(** * Insertion-ordered hash table with separate chaining

    A shallow embedding of [project/hashtable/threaded_hash_table.py]:
    the classes [Node], [DoublyLinkedList], [ThreadSafeHashTable] and
    [NonThreadSafeHashTable], followed by the properties of the map
    they implement.

    Modelling conventions.
    - Python integers are [Z]; [%] on integers is [Z.modulo] (the sign of
      the result follows the divisor in both).
    - The load factor and the quotient [_size / _capacity] are exact
      rationals ([Q]); division by zero raises [ZeroDivisionError].
    - A [DoublyLinkedList] is the sequence of its nodes from [head] to
      [tail]; a node reference is the position of the node in that
      sequence.  Every [append] allocates a node of its own, so the bucket
      chains and [_keys_list] share no node.
    - A method that mutates the table is a function from the table to the
      table it leaves and either a value or the exception raised: an
      exception does not roll back the mutations made before it.
    - [__setitem__] and [_resize] call each other; the recursion is
      bounded by [fuel], the number of nested re-entries of [__setitem__]
      still allowed, and [OutOfFuel] is raised when it is used up.
    - In the sequential semantics the reentrant locks never block and
      carry no data; module [Locking] models the order in which the
      methods take them. *)

From Stdlib Require Import QArith.
From stdpp Require Import prelude strings pretty.
Close Scope Q_scope.
Local Open Scope Z_scope.
Set Default Proof Using "Type".

(** ** Python values shared by the classes *)

Inductive exn (K : Type) : Type :=
  | KeyError (key : K)
  | ValueError (msg : string)
  | IndexError
  | ZeroDivisionError
  | OutOfFuel.
Arguments KeyError {K} key.
Arguments ValueError {K} msg.
Arguments IndexError {K}.
Arguments ZeroDivisionError {K}.
Arguments OutOfFuel {K}.

Inductive result (K A : Type) : Type :=
  | Return (a : A)
  | Raise (e : exn K).
Arguments Return {K A} a.
Arguments Raise {K A} e.

(** [l[i]] for a Python list: negative indices count from the end. *)
Definition norm_index {A} (l : list A) (i : Z) : option nat :=
  let n := Z.of_nat (length l) in
  if bool_decide (0 <= i < n) then Some (Z.to_nat i)
  else if bool_decide (- n <= i < 0) then Some (Z.to_nat (n + i))
  else None.

(** [a / b] on integers (true division). *)
Definition true_div {K} (a b : Z) : result K Q :=
  if b =? 0 then Raise ZeroDivisionError
  else Return (inject_Z a / inject_Z b)%Q.

Definition Qlt_bool (x y : Q) : bool := negb (Qle_bool y x).

(** ** class Node *)

Record Node (K V : Type) : Type := mkNode { key : K; value : V }.
Arguments mkNode {K V} key value.
Arguments key {K V} n.
Arguments value {K V} n.

(** ** class DoublyLinkedList *)

Module DoublyLinkedList.
Section Defs.
Context {K V : Type} `{EqDecision K}.

Record t : Type := mk { nodes : list (Node K V); _size : Z }.

Definition __init__ : t := {| nodes := []; _size := 0 |}.

Definition __len__ (self : t) : Z := _size self.

Definition append (self : t) (k : K) (v : V) : t * Node K V :=
  let new_node := mkNode k v in
  ({| nodes := nodes self ++ [new_node]; _size := _size self + 1 |},
   new_node).

(** The walk of [find] from a node at position [pos]. *)
Fixpoint find_from (pos : nat) (current : list (Node K V)) (k : K)
  : option (nat * Node K V) :=
  match current with
  | [] => None
  | n :: next =>
      if decide (key n = k) then Some (pos, n)
      else find_from (S pos) next k
  end.

Definition find (self : t) (k : K) : option (nat * Node K V) :=
  find_from 0 (nodes self) k.

Definition remove (self : t) (node : nat) : t :=
  {| nodes := delete node (nodes self); _size := _size self - 1 |}.

Definition __iter__ (self : t) : list K := key <$> nodes self.

Definition reverse_iter (self : t) : list K := reverse (key <$> nodes self).

(** [node.value = v] for the node at position [node]. *)
Definition set_value (self : t) (node : nat) (v : V) : t :=
  {| nodes := alter (λ n, mkNode (key n) v) node (nodes self);
     _size := _size self |}.
End Defs.
Arguments t : clear implicits.
End DoublyLinkedList.

Abbreviation DLL := DoublyLinkedList.t.

(** ** [Node] and [DoublyLinkedList] with their references *)

(** The two classes as the source has them: a node holds references to its
    neighbours, a list holds references to its first and last node.  A
    reference is the position of the node in the store of the nodes
    allocated so far, or [None].  An [append] allocates at the end of the
    store; nothing is ever freed. *)
Module Linked.
Definition ref : Type := option nat.

Inductive res (A : Type) : Type :=
  | Ok (a : A)
  (** an attribute of [None] is read or written *)
  | AttributeError
  (** a reference to a node that was never allocated *)
  | Dangling
  | OutOfFuel.
Arguments Ok {A} a.
Arguments AttributeError {A}.
Arguments Dangling {A}.
Arguments OutOfFuel {A}.

#[global] Instance res_ret : MRet res := λ A a, Ok a.
#[global] Instance res_bind : MBind res := λ A B f r,
  match r with
  | Ok a => f a
  | AttributeError => AttributeError
  | Dangling => Dangling
  | OutOfFuel => OutOfFuel
  end.

Section Defs.
Context {K V : Type} `{EqDecision K}.

Record Node : Type := mkNode {
  key : K;
  value : V;
  prev : ref;
  next : ref;
  next_in_bucket : ref
}.

Definition Node__init__ (k : K) (v : V) : Node := mkNode k v None None None.

Definition set_prev (r : ref) (n : Node) : Node :=
  mkNode (key n) (value n) r (next n) (next_in_bucket n).

Definition set_next (r : ref) (n : Node) : Node :=
  mkNode (key n) (value n) (prev n) r (next_in_bucket n).

(** The store: the nodes allocated so far. *)
Local Abbreviation store := (list Node).

Definition read (h : store) (node : nat) : res Node :=
  match h !! node with Some n => Ok n | None => Dangling end.

Definition update (h : store) (node : nat) (f : Node → Node) : res store :=
  match h !! node with
  | Some n => Ok (<[node := f n]> h)
  | None => Dangling
  end.

(** [r.attribute] for a reference that may be [None]. *)
Definition attr (r : ref) : res nat :=
  match r with Some node => Ok node | None => AttributeError end.

Record t : Type := mk { head : ref; tail : ref; _size : Z }.

Definition __init__ : t := mk None None 0.

Definition __len__ (self : t) : Z := _size self.

Definition append (h : store) (self : t) (k : K) (v : V)
  : res (store * t * nat) :=
  let new_node := length h in
  let h := h ++ [Node__init__ k v] in
  match head self with
  | None =>
      Ok (h, mk (Some new_node) (Some new_node) (_size self + 1), new_node)
  | Some _ =>
      h ← update h new_node (set_prev (tail self));
      last ← attr (tail self);
      h ← update h last (set_next (Some new_node));
      Ok (h, mk (head self) (Some new_node) (_size self + 1), new_node)
  end.

(** [while current: if current.key == key: return current;
    current = current.next], at most [fuel] times round the loop. *)
Fixpoint find_walk (fuel : nat) (h : store) (current : ref) (k : K)
  : res ref :=
  match current with
  | None => Ok None
  | Some node =>
      match fuel with
      | O => OutOfFuel
      | S fuel' =>
          n ← read h node;
          if decide (key n = k) then Ok (Some node)
          else find_walk fuel' h (next n) k
      end
  end.

Definition find (fuel : nat) (h : store) (self : t) (k : K) : res ref :=
  find_walk fuel h (head self) k.

Definition remove (h : store) (self : t) (node : nat) : res (store * t) :=
  n ← read h node;
  '(h, self) ← match prev n with
               | Some p =>
                   h ← update h p (set_next (next n)); Ok (h, self)
               | None => Ok (h, mk (next n) (tail self) (_size self))
               end;
  n ← read h node;
  '(h, self) ← match next n with
               | Some q =>
                   h ← update h q (set_prev (prev n)); Ok (h, self)
               | None => Ok (h, mk (head self) (prev n) (_size self))
               end;
  Ok (h, mk (head self) (tail self) (_size self - 1)).

(** The keys a generator yields when it is run to its end. *)
Fixpoint iter_walk (fuel : nat) (h : store) (current : ref)
  : res (list K) :=
  match current with
  | None => Ok []
  | Some node =>
      match fuel with
      | O => OutOfFuel
      | S fuel' =>
          n ← read h node;
          ks ← iter_walk fuel' h (next n);
          Ok (key n :: ks)
      end
  end.

Definition __iter__ (fuel : nat) (h : store) (self : t) : res (list K) :=
  iter_walk fuel h (head self).

Fixpoint reverse_walk (fuel : nat) (h : store) (current : ref)
  : res (list K) :=
  match current with
  | None => Ok []
  | Some node =>
      match fuel with
      | O => OutOfFuel
      | S fuel' =>
          n ← read h node;
          ks ← reverse_walk fuel' h (prev n);
          Ok (key n :: ks)
      end
  end.

Definition reverse_iter (fuel : nat) (h : store) (self : t)
  : res (list K) :=
  reverse_walk fuel h (tail self).

(** The nodes at [refs] are linked one to the next, the first one with
    [prev = p] and the last one with [next = None]. *)
Fixpoint links (h : store) (p : ref) (refs : list nat) : Prop :=
  match refs with
  | [] => True
  | node :: rest =>
      match h !! node with
      | Some n =>
          prev n = p ∧ next n = rest !! 0%nat ∧ links h (Some node) rest
      | None => False
      end
  end.

(** [self] is the list of the nodes at [refs], from [head] to [tail]. *)
Record linked (h : store) (self : t) (refs : list nat) : Prop := {
  linked_nodup : NoDup refs;
  linked_head : head self = refs !! 0%nat;
  linked_tail : tail self = last refs;
  linked_size : _size self = Z.of_nat (length refs);
  linked_links : links h None refs
}.
End Defs.
Arguments Node : clear implicits.
Abbreviation store K V := (list (Node K V)).
End Linked.

(** The list of entries that a linked list stands for: the sequence model
    of [DoublyLinkedList] used by the tables. *)
Definition entries_of {K V} (h : Linked.store K V) (refs : list nat)
  : list (Node K V) :=
  omap (λ node, (λ n, mkNode (Linked.key n) (Linked.value n)) <$> h !! node)
    refs.

Definition sequence {K V} (h : Linked.store K V) (self : Linked.t)
    (refs : list nat) : DLL K V :=
  DoublyLinkedList.mk (entries_of h refs) (Linked._size self).

(** Three appends to a new list in an empty store. *)
Definition three_nodes : Linked.res (Linked.store Z Z * Linked.t) :=
  '(h, l, _) ← Linked.append [] Linked.__init__ 1 10;
  '(h, l, _) ← Linked.append h l 2 20;
  '(h, l, _) ← Linked.append h l 3 30;
  mret (h, l).

Definition three_store : Linked.store Z Z :=
  match three_nodes with Linked.Ok (h, _) => h | _ => [] end.

Definition three_list : Linked.t :=
  match three_nodes with Linked.Ok (_, l) => l | _ => Linked.__init__ end.

(** ** The fields of a table and the methods' state *)

Record table (K V : Type) : Type := mkTable {
  _capacity : Z;
  _load_factor : Q;
  _buckets : list (DLL K V);
  _size : Z;
  _keys_list : DLL K V
}.
Arguments mkTable {K V} _ _ _ _ _.
Arguments _capacity {K V} t.
Arguments _load_factor {K V} t.
Arguments _buckets {K V} t.
Arguments _size {K V} t.
Arguments _keys_list {K V} t.

Definition M (K V A : Type) : Type := table K V → table K V * result K A.

Definition ret {K V A} (a : A) : M K V A := λ st, (st, Return a).
Definition raise {K V A} (e : exn K) : M K V A := λ st, (st, Raise e).
Definition bind {K V A B} (c : M K V A) (k : A → M K V B) : M K V B :=
  λ st, match c st with
        | (st', Return a) => k a st'
        | (st', Raise e) => (st', Raise e)
        end.
Definition get_self {K V} : M K V (table K V) := λ st, (st, Return st).
Definition put_self {K V} (st : table K V) : M K V unit := λ _, (st, Return tt).
Definition lift {K V A} (r : result K A) : M K V A := λ st, (st, r).

Notation "'do' x <- c ; k" := (bind c (λ x, k))
  (at level 10, x name, c at level 100, k at level 200).
Notation "'do' ' p <- c ; k" := (bind c (λ x, let 'p := x in k))
  (at level 10, p strict pattern, c at level 100, k at level 200).
Notation "c ;;; k" := (bind c (λ _, k))
  (at level 100, k at level 200, right associativity).

(** [for x in xs: body x] *)
Fixpoint for_each {K V A} (xs : list A) (body : A → M K V unit) : M K V unit :=
  match xs with
  | [] => ret tt
  | x :: rest => body x ;;; for_each rest body
  end.

(** ** Calls from a client *)

(** The operations both classes offer, as a client invokes them: [d[k] = v],
    [d[k]], [d.get(k, default)], [del d[k]], [k in d], [len(d)] and
    [list(iter(d))]. *)
Inductive op (K V : Type) : Type :=
  | OpSet (k : K) (v : V)
  | OpGetItem (k : K)
  | OpGet (k : K) (default : V)
  | OpDel (k : K)
  | OpContains (k : K)
  | OpLen
  | OpIter.
Arguments OpSet {K V} k v.
Arguments OpGetItem {K V} k.
Arguments OpGet {K V} k default.
Arguments OpDel {K V} k.
Arguments OpContains {K V} k.
Arguments OpLen {K V}.
Arguments OpIter {K V}.

(** What a call evaluates to. *)
Inductive val (K V : Type) : Type :=
  | VNone
  | VValue (v : V)
  | VBool (b : bool)
  | VInt (z : Z)
  | VKeys (ks : list K).
Arguments VNone {K V}.
Arguments VValue {K V} v.
Arguments VBool {K V} b.
Arguments VInt {K V} z.
Arguments VKeys {K V} ks.

(** A client that makes the calls one after the other and records what each
    returned or raised; an exception does not stop the client. *)
Fixpoint run {K V} (call : op K V → M K V (val K V)) (ops : list (op K V))
    (st : table K V) : table K V * list (result K (val K V)) :=
  match ops with
  | [] => (st, [])
  | o :: rest =>
      let '(st1, r) := call o st in
      let '(st2, rs) := run call rest st1 in
      (st2, r :: rs)
  end.

(** The statements both hash table classes share, word for word. *)
Module Common.
Section Defs.
Context {K V : Type} `{EqDecision K}.
Variable hash : K → Z.

Definition fresh_buckets (n : Z) : list (DLL K V) :=
  replicate (Z.to_nat n) DoublyLinkedList.__init__.

Definition _hash (k : K) : M K V Z :=
  do self <- get_self;
  if _capacity self =? 0 then raise ZeroDivisionError
  else ret (hash k `mod` _capacity self).

(** [self._buckets[bucket_index]], with the position it denotes. *)
Definition bucket_at (bucket_index : Z) : M K V (nat * DLL K V) :=
  do self <- get_self;
  match norm_index (_buckets self) bucket_index with
  | None => raise IndexError
  | Some i =>
      match _buckets self !! i with
      | Some bucket => ret (i, bucket)
      | None => raise IndexError
      end
  end.

Definition set_bucket (i : nat) (bucket : DLL K V) : M K V unit :=
  do self <- get_self;
  put_self (mkTable (_capacity self) (_load_factor self)
              (<[i := bucket]> (_buckets self)) (_size self)
              (_keys_list self)).

Definition set_keys_list (l : DLL K V) : M K V unit :=
  do self <- get_self;
  put_self (mkTable (_capacity self) (_load_factor self) (_buckets self)
              (_size self) l).

Definition set_size (n : Z) : M K V unit :=
  do self <- get_self;
  put_self (mkTable (_capacity self) (_load_factor self) (_buckets self)
              n (_keys_list self)).

(** [current = head; while current: if current.key == key:
    current.value = value; break; current = current.next] *)
Fixpoint update_walk (current : list (Node K V)) (k : K) (v : V)
  : list (Node K V) :=
  match current with
  | [] => []
  | n :: next =>
      if decide (key n = k) then mkNode (key n) v :: next
      else n :: update_walk next k v
  end.

(** The same walk with [self._keys_list.remove(current); break]. *)
Fixpoint remove_walk (current : list (Node K V)) (k : K)
  : list (Node K V) * bool :=
  match current with
  | [] => ([], false)
  | n :: next =>
      if decide (key n = k) then (next, true)
      else let '(l, found) := remove_walk next k in (n :: l, found)
  end.

(** [for bucket in old_buckets: node = bucket.find(key);
    if node: self[key] = node.value; break] *)
Fixpoint rehash_key (setitem : K → V → M K V unit)
    (old_buckets : list (DLL K V)) (k : K) : M K V unit :=
  match old_buckets with
  | [] => ret tt
  | bucket :: rest =>
      match DoublyLinkedList.find bucket k with
      | Some (_, node) => setitem k (value node)
      | None => rehash_key setitem rest k
      end
  end.

(** The body of [_resize] after its guard. *)
Definition rehash (setitem : K → V → M K V unit) (new_capacity : Z)
  : M K V unit :=
  do self <- get_self;
  let old_buckets := _buckets self in
  let old_keys := DoublyLinkedList.__iter__ (_keys_list self) in
  put_self (mkTable new_capacity (_load_factor self)
              (fresh_buckets new_capacity) 0 DoublyLinkedList.__init__) ;;;
  for_each old_keys (rehash_key setitem old_buckets).

(** [if self._size / self._capacity > self._load_factor:
      self._resize(self._capacity * 2)] *)
Definition _check_resize (_resize : Z → M K V unit) : M K V unit :=
  do self <- get_self;
  do load <- lift (true_div (_size self) (_capacity self));
  if Qlt_bool (_load_factor self) load
  then _resize (_capacity self * 2)
  else ret tt.

(** [__setitem__], given what [_check_resize] does. *)
Definition __setitem__ (_check_resize : M K V unit) (k : K) (v : V)
  : M K V unit :=
  do bucket_index <- _hash k;
  do '(i, bucket) <- bucket_at bucket_index;
  match DoublyLinkedList.find bucket k with
  | Some (existing_node, _) =>
      set_bucket i (DoublyLinkedList.set_value bucket existing_node v) ;;;
      do self <- get_self;
      set_keys_list
        (DoublyLinkedList.mk
           (update_walk (DoublyLinkedList.nodes (_keys_list self)) k v)
           (DoublyLinkedList._size (_keys_list self)))
  | None =>
      set_bucket i (DoublyLinkedList.append bucket k v).1 ;;;
      do self <- get_self;
      set_keys_list (DoublyLinkedList.append (_keys_list self) k v).1 ;;;
      do self <- get_self;
      set_size (_size self + 1) ;;;
      _check_resize
  end.

Definition __getitem__ (k : K) : M K V V :=
  do bucket_index <- _hash k;
  do '(_, bucket) <- bucket_at bucket_index;
  match DoublyLinkedList.find bucket k with
  | None => raise (KeyError k)
  | Some (_, node) => ret (value node)
  end.

Definition __delitem__ (k : K) : M K V unit :=
  do bucket_index <- _hash k;
  do '(i, bucket) <- bucket_at bucket_index;
  match DoublyLinkedList.find bucket k with
  | None => raise (KeyError k)
  | Some (node, _) =>
      set_bucket i (DoublyLinkedList.remove bucket node) ;;;
      do self <- get_self;
      let '(l, found) :=
        remove_walk (DoublyLinkedList.nodes (_keys_list self)) k in
      set_keys_list
        (DoublyLinkedList.mk l
           (if found then DoublyLinkedList._size (_keys_list self) - 1
            else DoublyLinkedList._size (_keys_list self))) ;;;
      do self <- get_self;
      set_size (_size self - 1)
  end.

Definition __contains__ (k : K) : M K V bool :=
  do bucket_index <- _hash k;
  do '(_, bucket) <- bucket_at bucket_index;
  ret (bool_decide (is_Some (DoublyLinkedList.find bucket k))).

Definition __iter__ : M K V (list K) :=
  do self <- get_self;
  ret (key <$> DoublyLinkedList.nodes (_keys_list self)).

Definition __len__ : M K V Z :=
  do self <- get_self; ret (_size self).

(** [try: return self[key] except KeyError: return default] *)
Definition get (k : K) (default : V) : M K V V :=
  λ st, match __getitem__ k st with
        | (st', Raise (KeyError _)) => (st', Return default)
        | r => r
        end.

Definition call (setitem : K → V → M K V unit) (o : op K V)
  : M K V (val K V) :=
  match o with
  | OpSet k v => setitem k v ;;; ret VNone
  | OpGetItem k => do v <- __getitem__ k; ret (VValue v)
  | OpGet k default => do v <- get k default; ret (VValue v)
  | OpDel k => __delitem__ k ;;; ret VNone
  | OpContains k => do b <- __contains__ k; ret (VBool b)
  | OpLen => do n <- __len__; ret (VInt n)
  | OpIter => do ks <- __iter__; ret (VKeys ks)
  end.
End Defs.
End Common.

(** ** class ThreadSafeHashTable *)

Module ThreadSafeHashTable.
Section Defs.
Context {K V : Type} `{EqDecision K}.
Variable hash : K → Z.

Definition default_initial_capacity : Z := 8.
Definition default_load_factor : Q := (3 # 4)%Q.

Definition __init__ (initial_capacity : Z) (load_factor : Q)
  : result K (table K V) :=
  if initial_capacity <=? 0
  then Raise (ValueError "Initial capacity must be positive")
  else if negb (Qlt_bool 0 load_factor && Qle_bool load_factor 1)
  then Raise (ValueError "Load factor must be between 0 and 1")
  else Return (mkTable initial_capacity load_factor
                 (Common.fresh_buckets initial_capacity) 0
                 DoublyLinkedList.__init__).

(** A call that leaves out an argument takes its default. *)
Definition construct (initial_capacity : option Z) (load_factor : option Q)
  : result K (table K V) :=
  __init__ (default default_initial_capacity initial_capacity)
           (default default_load_factor load_factor).

Definition _hash := Common._hash (V := V) hash.

(** [_resize], given what [self[key] = value] does inside it. *)
Definition _resize_with (setitem : K → V → M K V unit) (new_capacity : Z)
  : M K V unit :=
  do self <- get_self;
  do load <- lift (true_div (_size self) (_capacity self));
  if Qle_bool load (_load_factor self) then ret tt
  else Common.rehash setitem new_capacity.

Fixpoint __setitem__ (fuel : nat) : K → V → M K V unit :=
  Common.__setitem__ hash
    (Common._check_resize
       (_resize_with
          match fuel with
          | O => λ _ _, raise OutOfFuel
          | S fuel' => __setitem__ fuel'
          end)).

(** [self[key] = value] as called from inside [_resize]. *)
Definition nested (fuel : nat) : K → V → M K V unit :=
  match fuel with
  | O => λ _ _, raise OutOfFuel
  | S fuel' => __setitem__ fuel'
  end.

Definition _resize (fuel : nat) : Z → M K V unit :=
  _resize_with (nested fuel).

Definition _check_resize (fuel : nat) : M K V unit :=
  Common._check_resize (_resize fuel).

Definition __getitem__ := Common.__getitem__ (V := V) hash.
Definition get := Common.get (V := V) hash.
Definition __delitem__ := Common.__delitem__ (V := V) hash.
Definition __contains__ := Common.__contains__ (V := V) hash.
Definition __iter__ := Common.__iter__ (K := K) (V := V).
Definition __len__ := Common.__len__ (K := K) (V := V).

Definition __reversed__ : M K V (list K) :=
  do self <- get_self;
  ret (reverse (key <$> DoublyLinkedList.nodes (_keys_list self))).

Definition keys : M K V (list K) := __iter__.

Definition values : M K V (list V) :=
  do self <- get_self;
  ret (value <$> DoublyLinkedList.nodes (_keys_list self)).

Definition items : M K V (list (K * V)) :=
  do self <- get_self;
  ret ((λ current, (key current, value current))
         <$> DoublyLinkedList.nodes (_keys_list self)).

Definition clear : M K V unit :=
  do self <- get_self;
  put_self (mkTable (_capacity self) (_load_factor self)
              (Common.fresh_buckets (_capacity self)) 0
              DoublyLinkedList.__init__).

Definition call (fuel : nat) : op K V → M K V (val K V) :=
  Common.call hash (__setitem__ fuel).

(** [for key in self: items.append(f"{key!r}: {self[key]!r}")], given what
    [repr] is on keys and on values. *)
Fixpoint repr_items (repr_key : K → string) (repr_value : V → string)
    (ks : list K) : M K V (list string) :=
  match ks with
  | [] => ret []
  | k :: rest =>
      do v <- __getitem__ k;
      do items <- repr_items repr_key repr_value rest;
      ret (String.append (repr_key k) (String.append ": " (repr_value v))
             :: items)
  end.

Definition __repr__ (repr_key : K → string) (repr_value : V → string)
  : M K V string :=
  do ks <- __iter__;
  do items <- repr_items repr_key repr_value ks;
  ret (String.append "{" (String.append (String.concat ", " items) "}")).
End Defs.
End ThreadSafeHashTable.

(** ** class NonThreadSafeHashTable *)

Module NonThreadSafeHashTable.
Section Defs.
Context {K V : Type} `{EqDecision K}.
Variable hash : K → Z.

Definition __init__ (initial_capacity : Z) (load_factor : Q) : table K V :=
  mkTable initial_capacity load_factor
    (Common.fresh_buckets initial_capacity) 0 DoublyLinkedList.__init__.

Definition _hash := Common._hash (V := V) hash.

Definition _resize_with (setitem : K → V → M K V unit) (new_capacity : Z)
  : M K V unit :=
  Common.rehash setitem new_capacity.

Fixpoint __setitem__ (fuel : nat) : K → V → M K V unit :=
  Common.__setitem__ hash
    (Common._check_resize
       (_resize_with
          match fuel with
          | O => λ _ _, raise OutOfFuel
          | S fuel' => __setitem__ fuel'
          end)).

Definition nested (fuel : nat) : K → V → M K V unit :=
  match fuel with
  | O => λ _ _, raise OutOfFuel
  | S fuel' => __setitem__ fuel'
  end.

Definition _resize (fuel : nat) : Z → M K V unit :=
  _resize_with (nested fuel).

Definition _check_resize (fuel : nat) : M K V unit :=
  Common._check_resize (_resize fuel).

Definition __getitem__ := Common.__getitem__ (V := V) hash.
Definition __delitem__ := Common.__delitem__ (V := V) hash.
Definition __contains__ := Common.__contains__ (V := V) hash.
Definition __iter__ := Common.__iter__ (K := K) (V := V).
Definition __len__ := Common.__len__ (K := K) (V := V).

(** [Mapping.get], which the class inherits. *)
Definition get := Common.get (V := V) hash.

Definition call (fuel : nat) : op K V → M K V (val K V) :=
  Common.call hash (__setitem__ fuel).
End Defs.
End NonThreadSafeHashTable.

(** ** The order in which the methods take the locks *)

(** Each method of [ThreadSafeHashTable] reduced to the [acquire] and
    [release] calls it makes, in program order, and the two threads of a
    process interleaved over them.  [_bucket_locks] is replaced by
    [_resize]: a bucket lock is named by the generation of the list it
    belongs to and its index in it. *)
Module Locking.
Inductive lock : Type :=
  | Global
  | Bucket (generation index : nat).

#[global] Instance lock_eq_dec : EqDecision lock.
Proof. solve_decision. Defined.

Inductive action : Type :=
  | Acquire (l : lock)
  | Release (l : lock)
  (** [try: lock.release() except RuntimeError: pass] *)
  | ReleaseQuietly (l : lock).

#[global] Instance action_eq_dec : EqDecision action.
Proof. solve_decision. Defined.

(** The [RLock]s that are held: owner thread and recursion level. *)
Definition held : Type := list (lock * (nat * nat)).

Fixpoint owner (h : held) (l : lock) : option (nat * nat) :=
  match h with
  | [] => None
  | (l', o) :: rest => if decide (l' = l) then Some o else owner rest l
  end.

Fixpoint drop_lock (h : held) (l : lock) : held :=
  match h with
  | [] => []
  | (l', o) :: rest =>
      if decide (l' = l) then rest else (l', o) :: drop_lock rest l
  end.

Inductive outcome : Type :=
  | Proceeds (h : held)
  | Blocks
  | RuntimeError.

(** [RLock.acquire] and [RLock.release] called by thread [t]. *)
Definition exec (h : held) (t : nat) (a : action) : outcome :=
  match a with
  | Acquire l =>
      match owner h l with
      | None => Proceeds ((l, (t, 1%nat)) :: h)
      | Some (t', level) =>
          if decide (t' = t)
          then Proceeds ((l, (t, S level)) :: drop_lock h l)
          else Blocks
      end
  | Release l | ReleaseQuietly l =>
      let not_owned :=
        match a with ReleaseQuietly _ => Proceeds h | _ => RuntimeError end in
      match owner h l with
      | Some (t', level) =>
          if decide (t' = t)
          then Proceeds match level with
                        | S (S level') => (l, (t, S level')) :: drop_lock h l
                        | _ => drop_lock h l
                        end
          else not_owned
      | None => not_owned
      end
  end.

(** [__setitem__] up to its call of [_check_resize]:
    [with bucket_lock: ... with self._global_lock: ...], the same in
    both branches. *)
Definition setitem_locks (generation bucket_index : nat) : list action :=
  [Acquire (Bucket generation bucket_index); Acquire Global;
   Release Global; Release (Bucket generation bucket_index)].

(** [__delitem__] on a key that is present. *)
Definition delitem_locks (generation bucket_index : nat) : list action :=
  [Acquire (Bucket generation bucket_index); Acquire Global;
   Release Global; Release (Bucket generation bucket_index)].

(** [__getitem__] and [__contains__]. *)
Definition getitem_locks (generation bucket_index : nat) : list action :=
  [Acquire (Bucket generation bucket_index);
   Release (Bucket generation bucket_index)].

(** [_resize] when its guard lets it through and no [self[key] = value]
    of the rehash resizes again: the entries go to the buckets
    [rehashed] of the new table. *)
Definition resize_locks (generation old_capacity : nat)
    (rehashed : list nat) : list action :=
  [Acquire Global]
  ++ (Acquire ∘ Bucket generation <$> seq 0 old_capacity)
  ++ (rehashed ≫= setitem_locks (S generation))
  ++ (ReleaseQuietly ∘ Bucket (S generation) <$> seq 0 old_capacity)
  ++ [Release Global].

(** Two or more threads and the locks they hold. *)
Record system : Type := mkSystem {
  locks : held;
  threads : list (list action)
}.

(** Thread [t] makes its next call, if it can. *)
Definition step (s : system) (t : nat) : option system :=
  match threads s !! t with
  | Some (a :: rest) =>
      match exec (locks s) t a with
      | Proceeds h => Some (mkSystem h (<[t := rest]> (threads s)))
      | _ => None
      end
  | _ => None
  end.

Fixpoint schedule (ts : list nat) (s : system) : option system :=
  match ts with
  | [] => Some s
  | t :: rest =>
      match step s t with
      | Some s' => schedule rest s'
      | None => None
      end
  end.

(** Thread [t] has a next call and waits in it for another thread. *)
Definition blocked (s : system) (t : nat) : bool :=
  match threads s !! t with
  | Some (a :: _) =>
      match exec (locks s) t a with Blocks => true | _ => false end
  | _ => false
  end.

(** No bucket lock is taken before the first [acquire] of the global
    lock. *)
Fixpoint global_first (prog : list action) : bool :=
  match prog with
  | [] => true
  | Acquire Global :: _ => true
  | Acquire (Bucket _ _) :: rest =>
      bool_decide (Acquire Global ∉ rest)
  | _ :: rest => global_first rest
  end.

(** On a table of capacity 2 and load factor 0.25: thread 0 runs
    [d[0] = a] and thread 1 runs [d[1] = b], whose insert crosses the
    threshold and calls [_resize(4)]. *)
Definition two_writers : system :=
  mkSystem [] [setitem_locks 0 0;
               setitem_locks 0 1 ++ resize_locks 0 2 [1%nat]].
End Locking.

(** ** Concrete keys *)

(** [hash] on Python integers (CPython, 64 bits). *)
Definition hash_int (z : Z) : Z :=
  let h := Z.sgn z * (Z.abs z `mod` (2 ^ 61 - 1)) in
  if h =? -1 then -2 else h.

(** The table of capacity 4 and load factor 0.75 after [d[1] = 10],
    [d[2] = 20] and [d[5] = 50]: one more key crosses the threshold. *)
Definition example_ops : list (op Z Z) := [OpSet 1 10; OpSet 2 20; OpSet 5 50].

Definition example_table : table Z Z :=
  (run (ThreadSafeHashTable.call hash_int 4) example_ops
     (mkTable 4 (3 # 4) (Common.fresh_buckets 4) 0 DoublyLinkedList.__init__)).1.

(** The table of capacity 1 and load factor 0.3, empty. *)
Definition tiny_table : table Z Z :=
  mkTable 1 (3 # 10) (Common.fresh_buckets 1) 0 DoublyLinkedList.__init__.

(** The ten entries [0: 0, ..., 9: 9]. *)
Definition ten_entries : list (Z * Z) :=
  (λ i, (Z.of_nat i, Z.of_nat i)) <$> seq 0 10.

(** A new table of capacity 4 and load factor 0.75. *)
Definition example_empty : table Z Z :=
  mkTable 4 (3 # 4) (Common.fresh_buckets 4) 0 DoublyLinkedList.__init__.

(** A history with an update, a delete and a second insert of the deleted
    key. *)
Definition example_history : list (op Z Z) :=
  [OpSet 1 10; OpSet 2 20; OpSet 1 11; OpGetItem 1; OpDel 1; OpDel 1;
   OpSet 3 30; OpSet 1 12; OpContains 2; OpLen; OpIter; OpDel 3].

(** ** The load-factor test on integers *)

(** [over lf n c]: [n / c > lf], cross-multiplied. *)
Definition over (lf : Q) (n c : Z) : Prop := Qnum lf * c < n * QDen lf.

Global Instance over_dec lf n c : Decision (over lf n c).
Proof. unfold over. apply _. Defined.

(** * Specification *)

(** The representation invariant, the ordered map the table implements
    and what a call establishes. *)

Section Table.
Context {K V : Type} `{EqDecision K}.
Variable hash : K → Z.
Implicit Types (st : table K V) (k : K) (v : V) (n : Node K V).

Local Abbreviation nodes := DoublyLinkedList.nodes.
Local Abbreviation find := DoublyLinkedList.find.
Local Abbreviation find_from := DoublyLinkedList.find_from.

(** The nodes of the global order list, head to tail. *)
Definition kl st : list (Node K V) := nodes (_keys_list st).

(** The position in [_buckets] that [_hash] sends a key to. *)
Definition slot (c : Z) (k : K) : nat := Z.to_nat (hash k `mod` c).

Record Inv st : Prop := {
  inv_cap : 0 < _capacity st;
  inv_lf : 0 < Qnum (_load_factor st);
  inv_len : length (_buckets st) = Z.to_nat (_capacity st);
  inv_size : _size st = Z.of_nat (length (kl st));
  inv_nodup : NoDup (key <$> kl st);
  inv_chain : ∀ i b, _buckets st !! i = Some b →
    nodes b = filter (λ n, slot (_capacity st) (key n) = i) (kl st)
}.

(** The node of a key in the global order list. *)
Definition lookup_node st k : option (Node K V) :=
  snd <$> find_from 0 (kl st) k.

Local Abbreviation chain c i := (filter (λ n, slot c (key n) = i)).

(** The ordered map after [self[k] = v]. *)
Definition put (ns : list (Node K V)) k v : list (Node K V) :=
  if decide (k ∈ key <$> ns) then Common.update_walk ns k v
  else ns ++ [mkNode k v].

(** [c'] is [c] doubled the least number of times that brings the load
    of [n] entries down to the threshold. *)
Definition grown (lf : Q) (n c c' : Z) : Prop :=
  ∃ j : nat, c' = c * 2 ^ Z.of_nat j
    ∧ ¬ over lf n c'
    ∧ ∀ t : nat, (t < j)%nat → over lf n (c * 2 ^ Z.of_nat t).

Record post st k v st' : Prop := {
  post_inv : Inv st';
  post_kl : kl st' = put (kl st) k v;
  post_lf : _load_factor st' = _load_factor st;
  post_old : k ∈ key <$> kl st → _capacity st' = _capacity st;
  post_new : k ∉ key <$> kl st →
    grown (_load_factor st) (Z.of_nat (length (kl st)) + 1)
      (_capacity st) (_capacity st')
}.

(** [fuel] nested calls are enough for a call of [__setitem__] on [st]. *)
Definition enough (fuel : nat) st : Prop :=
  (Z.of_nat (length (kl st)) + 1) * QDen (_load_factor st)
  <= Qnum (_load_factor st) * _capacity st * 2 ^ Z.of_nat fuel.

Definition SetSpec (calls : option nat) (f : K → V → M K V unit) : Prop :=
  ∀ st k v, Inv st →
    ∃ st' r, f k v st = (st', r)
      ∧ (r = Return tt ∨ r = Raise OutOfFuel)
      ∧ (r = Return tt → post st k v st')
      ∧ (∀ m, calls = Some m → enough m st → r = Return tt).

Definition nested_calls (fuel : nat) : option nat :=
  match fuel with O => None | S m => Some m end.

(** The table inside the loop, once the nodes [done] are back in: [c] is
    the capacity [_resize] was called with and [N] the number of nodes
    to put back. *)
Record LoopInv (lf : Q) (N c : Z) (done : list (Node K V)) (s : table K V)
  : Prop := {
  loop_inv : Inv s;
  loop_kl : kl s = done;
  loop_lf : _load_factor s = lf;
  loop_cap : ∃ a : nat, _capacity s = c * 2 ^ Z.of_nat a
    ∧ ∀ t : nat, (t < a)%nat → over lf N (c * 2 ^ Z.of_nat t);
  loop_load : done ≠ [] → ¬ over lf (Z.of_nat (length done)) (_capacity s)
}.

(** What a call does to the sequence of entries and what it returns. *)
Definition model_step (o : op K V) (ns : list (Node K V))
  : list (Node K V) * result K (val K V) :=
  match o with
  | OpSet k v => (put ns k v, Return VNone)
  | OpGetItem k =>
      (ns, match snd <$> find_from 0 ns k with
           | Some n => Return (VValue (value n))
           | None => Raise (KeyError k)
           end)
  | OpGet k default =>
      (ns, Return (VValue match snd <$> find_from 0 ns k with
                          | Some n => value n
                          | None => default
                          end))
  | OpDel k =>
      if decide (k ∈ key <$> ns)
      then ((Common.remove_walk ns k).1, Return VNone)
      else (ns, Raise (KeyError k))
  | OpContains k => (ns, Return (VBool (bool_decide (k ∈ key <$> ns))))
  | OpLen => (ns, Return (VInt (Z.of_nat (length ns))))
  | OpIter => (ns, Return (VKeys (key <$> ns)))
  end.

Fixpoint model_run (ops : list (op K V)) (ns : list (Node K V))
  : list (Node K V) * list (result K (val K V)) :=
  match ops with
  | [] => (ns, [])
  | o :: rest =>
      let '(ns1, r) := model_step o ns in
      let '(ns2, rs) := model_run rest ns1 in
      (ns2, r :: rs)
  end.

(** [fuel] covers every call on a table of at most [n] entries. *)
Definition fuel_covers (fuel : nat) (lf : Q) (n : nat) : Prop :=
  (Z.of_nat n + 1) * QDen lf <= 2 ^ Z.of_nat fuel.

Inductive reachable : table K V → Prop :=
  | reachable_init c lf st :
      ThreadSafeHashTable.__init__ c lf = Return st → reachable st
  | reachable_call st fuel o st' r :
      reachable st →
      ThreadSafeHashTable.call hash fuel o st = (st', r) →
      r ≠ Raise OutOfFuel →
      reachable st'
  | reachable_clear st st' r :
      reachable st →
      ThreadSafeHashTable.clear st = (st', r) →
      reachable st'.

(** The keys inserted and not deleted since, in the order of the
    insertions that brought them in. *)
Definition live_step (ks : list K) (o : op K V) : list K :=
  match o with
  | OpSet k _ => if decide (k ∈ ks) then ks else ks ++ [k]
  | OpDel k => filter (λ k', k' ≠ k) ks
  | _ => ks
  end.

Definition live_keys (ops : list (op K V)) : list K :=
  fold_left live_step ops [].

(** The nesting depth of [_resize] on a table of at most [size] entries
    never exceeds this. *)
Definition fuel_for (lf : Q) (size : nat) : nat :=
  Z.to_nat (Z.log2_up ((Z.of_nat size + 1) * QDen lf)).

Definition fuel_of st : nat := fuel_for (_load_factor st) (length (kl st)).

(** The load of the table is within its threshold. *)
Definition within st : Prop :=
  ¬ over (_load_factor st) (_size st) (_capacity st).

Definition sets (kvs : list (K * V)) : list (op K V) :=
  (λ p, OpSet p.1 p.2) <$> kvs.

Definition entries (kvs : list (K * V)) : list (Node K V) :=
  (λ p, mkNode p.1 p.2) <$> kvs.

(** C6 as the specification words it: the capacity after the insert of
    a new key is twice the capacity before exactly when the load with
    the new entry exceeds the threshold. *)
Definition doubles_exactly_when_over st k v fuel : Prop :=
  ∀ st', ThreadSafeHashTable.__setitem__ hash fuel k v st = (st', Return tt) →
    _capacity st' = _capacity st * 2
    ↔ over (_load_factor st) (_size st + 1) (_capacity st).

(** [DoublyLinkedList._size] counts the nodes of the list, in every list of
    the table. *)
Definition dll_sized (l : DLL K V) : Prop :=
  DoublyLinkedList._size l = Z.of_nat (length (nodes l)).

Definition Sized st : Prop :=
  dll_sized (_keys_list st) ∧ Forall dll_sized (_buckets st).

(** * Properties *)

(** ** The walks over a chain *)

Section Walks.
Implicit Types (ns : list (Node K V)).

Import DoublyLinkedList Common.

Lemma find_from_None ns k pos :
  find_from pos ns k = None ↔ k ∉ key <$> ns.
Proof.
  clear hash.
  revert pos. induction ns as [|n ns IH]; intros pos; simpl.
  - split; [intros _; apply not_elem_of_nil | done].
  - destruct (decide (key n = k)) as [->|Hne].
    + split; [done | intros []; left].
    + rewrite (IH (S pos)), not_elem_of_cons. intuition congruence.
Qed.

Lemma find_from_Some ns k pos ref n :
  find_from pos ns k = Some (ref, n) →
  ∃ j, ref = (pos + j)%nat ∧ ns !! j = Some n ∧ key n = k
       ∧ k ∉ key <$> take j ns.
Proof.
  revert pos. induction ns as [|n' ns IH]; intros pos; simpl; [done|].
  destruct (decide (key n' = k)) as [Heq|Hne].
  - intros [= <- <-]. exists 0%nat. rewrite Nat.add_0_r.
    repeat split; auto. simpl. apply not_elem_of_nil.
  - intros Hf. destruct (IH _ Hf) as (j & -> & Hj & Hk & Hpre). exists (S j).
    repeat split; auto with lia. simpl.
    rewrite not_elem_of_cons. auto.
Qed.

Lemma find_from_elem ns k pos :
  k ∈ key <$> ns → is_Some (find_from pos ns k).
Proof.
  intros Hin. destruct (find_from pos ns k) eqn:E; [eauto|].
  apply find_from_None in E. done.
Qed.

(** The node [find] returns does not depend on where the count starts. *)
Lemma find_from_node ns k pos :
  snd <$> find_from pos ns k = snd <$> find_from 0 ns k.
Proof.
  generalize 0%nat. revert pos.
  induction ns as [|n ns IH]; intros pos pos'; simpl; [done|].
  destruct (decide (key n = k)); [done | apply IH].
Qed.

Lemma update_walk_absent ns k v : k ∉ key <$> ns → update_walk ns k v = ns.
Proof.
  induction ns as [|n ns IH]; simpl; [done|].
  rewrite not_elem_of_cons. intros [Hne Hni].
  destruct (decide (key n = k)); [done|]. by rewrite IH.
Qed.

Lemma remove_walk_absent ns k :
  k ∉ key <$> ns → remove_walk ns k = (ns, false).
Proof.
  induction ns as [|n ns IH]; simpl; [done|].
  rewrite not_elem_of_cons. intros [Hne Hni].
  destruct (decide (key n = k)); [done|]. by rewrite IH.
Qed.

Lemma remove_walk_present ns k :
  k ∈ key <$> ns → (remove_walk ns k).2 = true.
Proof.
  induction ns as [|n ns IH]; simpl.
  - intros []%elem_of_nil.
  - destruct (decide (key n = k)); [done|].
    rewrite elem_of_cons. intros [|Hin]; [done|].
    specialize (IH Hin). by destruct (remove_walk ns k).
Qed.

Lemma update_walk_keys ns k v : key <$> update_walk ns k v = key <$> ns.
Proof.
  induction ns as [|n ns IH]; simpl; [done|].
  destruct (decide (key n = k)); csimpl; [done | by f_equal].
Qed.

Lemma update_walk_length ns k v : length (update_walk ns k v) = length ns.
Proof.
  by rewrite <-(length_fmap key), update_walk_keys, length_fmap.
Qed.

(** [existing_node.value = value] on the node [find] returned is the
    walk that updates the first node with that key. *)
Lemma alter_find ns k v pos ref n :
  find_from pos ns k = Some (ref, n) →
  alter (λ n, mkNode (key n) v) (ref - pos)%nat ns = update_walk ns k v.
Proof.
  revert pos. induction ns as [|n' ns IH]; intros pos; simpl; [done|].
  destruct (decide (key n' = k)) as [Heq|Hne].
  - intros [= <- <-]. by rewrite Nat.sub_diag.
  - intros Hf. destruct (find_from_Some _ _ _ _ _ Hf) as (j & -> & _).
    replace (S pos + j - pos)%nat with (S j) by lia. simpl. f_equal.
    rewrite <-(IH _ Hf). f_equal. lia.
Qed.

(** [remove(node)] on the node [find] returned is the walk that unlinks
    the first node with that key. *)
Lemma delete_find ns k pos ref n :
  find_from pos ns k = Some (ref, n) →
  delete (ref - pos)%nat ns = (remove_walk ns k).1.
Proof.
  revert pos. induction ns as [|n' ns IH]; intros pos; simpl; [done|].
  destruct (decide (key n' = k)) as [Heq|Hne].
  - intros [= <- <-]. by rewrite Nat.sub_diag.
  - intros Hf. destruct (find_from_Some _ _ _ _ _ Hf) as (j & -> & _).
    replace (S pos + j - pos)%nat with (S j) by lia. simpl.
    specialize (IH _ Hf). replace (S pos + j - S pos)%nat with j in IH by lia.
    rewrite IH. by destruct (remove_walk ns k).
Qed.


Lemma filter_ne_absent (ks : list K) k :
  k ∉ ks → filter (λ k', k' ≠ k) ks = ks.
Proof.
  induction ks as [|k' ks IH]; [done|].
  rewrite not_elem_of_cons. intros [Hne Hni].
  rewrite filter_cons_True by done. by rewrite IH.
Qed.

Lemma remove_walk_keys ns k :
  NoDup (key <$> ns) →
  key <$> (remove_walk ns k).1 = filter (λ k', k' ≠ k) (key <$> ns).
Proof.
  induction ns as [|n ns IH]; csimpl; [done|].
  rewrite NoDup_cons. intros [Hni Hnd].
  destruct (decide (key n = k)) as [Heq|Hne]; csimpl.
  - rewrite filter_cons_False by (intros Hc; by apply Hc).
    rewrite filter_ne_absent; [done | by rewrite <-Heq].
  - rewrite filter_cons_True by done. rewrite <-IH by done.
    by destruct (remove_walk ns k).
Qed.

Lemma remove_walk_length ns k :
  k ∈ key <$> ns → S (length (remove_walk ns k).1) = length ns.
Proof.
  induction ns as [|n ns IH]; csimpl.
  - intros []%elem_of_nil.
  - destruct (decide (key n = k)); [done|].
    rewrite elem_of_cons. intros [|Hin]; [done|].
    specialize (IH Hin). destruct (remove_walk ns k). simpl in *. lia.
Qed.
End Walks.

(** ** A chain is the part of [_keys_list] that hashes to its slot *)

Section Filter.
Context (P : K → Prop) `{∀ k, Decision (P k)}.
Implicit Types (ns : list (Node K V)).

Import DoublyLinkedList Common.

Local Abbreviation sel := (filter (λ n, P (key n))).

Lemma filter_keys_absent ns k : ¬ P k → k ∉ key <$> sel ns.
Proof.
  intros HP (n & -> & Hn)%list_elem_of_fmap.
  apply list_elem_of_filter in Hn as [? _]. done.
Qed.

Lemma filter_keys_present ns k : P k → k ∈ key <$> sel ns ↔ k ∈ key <$> ns.
Proof.
  intros HP. rewrite !list_elem_of_fmap. split.
  - intros (n & -> & [_ Hn]%list_elem_of_filter). eauto.
  - intros (n & -> & Hn). exists n. split; [done|].
    apply list_elem_of_filter. done.
Qed.

Lemma filter_update_walk ns k v :
  sel (update_walk ns k v) = update_walk (sel ns) k v.
Proof.
  induction ns as [|n ns IH]; simpl; [done|].
  destruct (decide (key n = k)) as [Heq|Hne].
  - destruct (decide (P (key n))) as [HP|HP].
    + rewrite filter_cons_True by done. rewrite (filter_cons_True _ n) by done.
      simpl. by rewrite decide_True.
    + rewrite filter_cons_False by done. rewrite (filter_cons_False _ n) by done.
      rewrite update_walk_absent; [done|].
      apply filter_keys_absent. by rewrite <-Heq.
  - destruct (decide (P (key n))) as [HP|HP].
    + rewrite !filter_cons_True by done. simpl.
      rewrite decide_False by done. by rewrite IH.
    + by rewrite !filter_cons_False by done.
Qed.

Lemma filter_remove_walk ns k :
  sel (remove_walk ns k).1 = (remove_walk (sel ns) k).1.
Proof.
  induction ns as [|n ns IH]; simpl; [done|].
  destruct (decide (key n = k)) as [Heq|Hne].
  - destruct (decide (P (key n))) as [HP|HP].
    + rewrite (filter_cons_True _ n) by done. simpl. by rewrite decide_True.
    + rewrite (filter_cons_False _ n) by done.
      rewrite remove_walk_absent; [done|].
      apply filter_keys_absent. by rewrite <-Heq.
  - destruct (remove_walk ns k) as [l found] eqn:E. simpl in *.
    destruct (decide (P (key n))) as [HP|HP].
    + rewrite !filter_cons_True by done. simpl.
      rewrite decide_False by done. rewrite IH.
      by destruct (remove_walk (sel ns) k).
    + by rewrite !filter_cons_False by done.
Qed.

Lemma filter_find ns k :
  P k → snd <$> find_from 0 (sel ns) k = snd <$> find_from 0 ns k.
Proof.
  intros HP. induction ns as [|n ns IH]; simpl; [done|].
  destruct (decide (key n = k)) as [Heq|Hne].
  - rewrite filter_cons_True by (by rewrite Heq). simpl.
    by rewrite decide_True.
  - rewrite (find_from_node ns k 1), <-IH.
    destruct (decide (P (key n))) as [HPn|HPn].
    + rewrite filter_cons_True by done. simpl.
      rewrite decide_False by done. apply find_from_node.
    + by rewrite filter_cons_False by done.
Qed.
End Filter.

(** ** The load-factor test on integers *)

Lemma true_div_over (lf : Q) (n c : Z) :
  0 < c →
  ∃ load, true_div (K := K) n c = Return load
    ∧ Qlt_bool lf load = bool_decide (over lf n c)
    ∧ Qle_bool load lf = negb (bool_decide (over lf n c)).
Proof.
  intros Hc. unfold true_div. rewrite (proj2 (Z.eqb_neq c 0)) by lia.
  eexists. split; [done|].
  assert (Hle : Qle_bool (inject_Z n / inject_Z c) lf
                = negb (bool_decide (over lf n c))).
  { destruct c as [|p|p]; try lia. unfold over, Qle_bool, Qdiv, Qmult, Qinv.
    simpl. rewrite Z.mul_1_r. case_bool_decide; simpl.
    - apply Z.leb_gt. lia.
    - apply Z.leb_le. lia. }
  split; [|done]. unfold Qlt_bool. rewrite Hle. by rewrite negb_involutive.
Qed.

Lemma over_mono lf (n n' c c' : Z) :
  0 <= Qnum lf → n <= n' → c' <= c → over lf n c → over lf n' c'.
Proof. unfold over. intros. nia. Qed.

(** ** The representation invariant *)

Lemma lookup_node_None st k : lookup_node st k = None ↔ k ∉ key <$> kl st.
Proof.
  unfold lookup_node. rewrite fmap_None. apply find_from_None.
Qed.

Lemma lookup_node_Some st k n :
  lookup_node st k = Some n → n ∈ kl st ∧ key n = k.
Proof.
  unfold lookup_node. intros ([ref n'] & Hf & ->)%fmap_Some. simpl.
  apply find_from_Some in Hf as (j & _ & Hj & Hk & _).
  split; [by eapply list_elem_of_lookup_2 | done].
Qed.

Lemma lookup_node_elem st n :
  NoDup (key <$> kl st) → n ∈ kl st → lookup_node st (key n) = Some n.
Proof.
  intros Hnd Hin. destruct (lookup_node st (key n)) as [n'|] eqn:E.
  - apply lookup_node_Some in E as [Hin' Hk]. f_equal.
    apply list_elem_of_lookup in Hin as [i Hi].
    apply list_elem_of_lookup in Hin' as [i' Hi'].
    assert (i' = i) as ->; [|congruence].
    eapply NoDup_lookup; [done| |]; rewrite list_lookup_fmap.
    + by rewrite Hi'.
    + rewrite Hi. simpl. by rewrite Hk.
  - apply lookup_node_None in E. destruct E.
    apply list_elem_of_fmap. eauto.
Qed.

Lemma slot_bound st k : Inv st → (slot (_capacity st) k < length (_buckets st))%nat.
Proof.
  intros HI. rewrite (inv_len _ HI). unfold slot.
  pose proof (inv_cap _ HI).
  pose proof (Z.mod_pos_bound (hash k) (_capacity st)). lia.
Qed.

Lemma hash_run st k :
  Inv st → Common._hash hash k st = (st, Return (hash k `mod` _capacity st)).
Proof.
  intros HI. pose proof (inv_cap _ HI). unfold Common._hash, bind, get_self.
  by rewrite (proj2 (Z.eqb_neq _ 0)) by lia.
Qed.

Lemma bucket_at_run st k :
  Inv st → ∃ b,
    Common.bucket_at (hash k `mod` _capacity st) st
      = (st, Return (slot (_capacity st) k, b))
    ∧ _buckets st !! slot (_capacity st) k = Some b.
Proof.
  intros HI. pose proof (slot_bound st k HI) as Hb.
  destruct (lookup_lt_is_Some_2 _ _ Hb) as [b Hl]. exists b. split; [|done].
  pose proof (inv_cap _ HI). pose proof (inv_len _ HI).
  pose proof (Z.mod_pos_bound (hash k) (_capacity st)).
  unfold Common.bucket_at, bind, get_self, norm_index.
  rewrite bool_decide_true by lia. fold (slot (_capacity st) k).
  by rewrite Hl.
Qed.

(** [find] in the chain of a key's slot is [find] in the global list. *)
Lemma chain_find st k b :
  Inv st → _buckets st !! slot (_capacity st) k = Some b →
  snd <$> find b k = lookup_node st k.
Proof.
  intros HI Hl. unfold find, lookup_node. rewrite (inv_chain _ HI _ _ Hl).
  exact (filter_find (λ k', slot (_capacity st) k' = slot (_capacity st) k)
           (kl st) k eq_refl).
Qed.

Lemma chain_find_other st k i b :
  Inv st → _buckets st !! i = Some b → i ≠ slot (_capacity st) k →
  find b k = None.
Proof.
  intros HI Hl Hne. unfold find. apply find_from_None.
  rewrite (inv_chain _ HI _ _ Hl).
  refine (filter_keys_absent (λ k', slot (_capacity st) k' = i) (kl st) k _).
  congruence.
Qed.

Lemma getitem_run st k :
  Inv st →
  Common.__getitem__ hash k st
  = (st, match lookup_node st k with
         | Some n => Return (value n)
         | None => Raise (KeyError k)
         end).
Proof.
  intros HI. destruct (bucket_at_run st k HI) as (b & Hb & Hl).
  unfold Common.__getitem__, bind at 1. rewrite hash_run by done.
  unfold bind at 1. rewrite Hb. rewrite <-(chain_find st k b) by done.
  by destruct (find b k) as [[ref n]|].
Qed.

Lemma contains_run st k :
  Inv st →
  Common.__contains__ hash k st
  = (st, Return (bool_decide (k ∈ key <$> kl st))).
Proof.
  intros HI. destruct (bucket_at_run st k HI) as (b & Hb & Hl).
  unfold Common.__contains__, bind at 1. rewrite hash_run by done.
  unfold bind at 1. rewrite Hb. unfold ret. do 2 f_equal.
  apply bool_decide_ext. pose proof (chain_find st k b HI Hl) as Hc.
  destruct (find b k) as [[ref n]|]; simpl in Hc; symmetry in Hc.
  - apply lookup_node_Some in Hc as [Hin <-]. split; [|eauto].
    intros _. apply list_elem_of_fmap. eauto.
  - apply lookup_node_None in Hc. split; [by intros [? ?] | done].
Qed.

Lemma chain_update c i (ns : list (Node K V)) k v :
  chain c i (Common.update_walk ns k v) = Common.update_walk (chain c i ns) k v.
Proof. exact (filter_update_walk (λ k', slot c k' = i) ns k v). Qed.

Lemma chain_remove c i (ns : list (Node K V)) k :
  chain c i (Common.remove_walk ns k).1 = (Common.remove_walk (chain c i ns) k).1.
Proof. exact (filter_remove_walk (λ k', slot c k' = i) ns k). Qed.

Lemma chain_absent c i (ns : list (Node K V)) k :
  slot c k ≠ i → k ∉ key <$> chain c i ns.
Proof. exact (filter_keys_absent (λ k', slot c k' = i) ns k). Qed.

Lemma chain_find_is_Some st k b :
  Inv st → _buckets st !! slot (_capacity st) k = Some b →
  k ∈ key <$> kl st → ∃ ref n, find b k = Some (ref, n).
Proof.
  intros HI Hl Hin. pose proof (chain_find st k b HI Hl) as Hc.
  destruct (find b k) as [[ref n]|]; [eauto|].
  symmetry in Hc. by apply lookup_node_None in Hc.
Qed.

Lemma chain_find_is_None st k b :
  Inv st → _buckets st !! slot (_capacity st) k = Some b →
  k ∉ key <$> kl st → find b k = None.
Proof.
  intros HI Hl Hin. pose proof (chain_find st k b HI Hl) as Hc.
  destruct (find b k) as [[ref n]|]; [|done].
  symmetry in Hc. apply lookup_node_Some in Hc as [Hn <-].
  destruct Hin. apply list_elem_of_fmap. eauto.
Qed.

(** *** [__setitem__] on a key already present *)

Lemma setitem_existing st k v cr :
  Inv st → k ∈ key <$> kl st →
  ∃ st', Common.__setitem__ hash cr k v st = (st', Return tt)
    ∧ Inv st'
    ∧ kl st' = Common.update_walk (kl st) k v
    ∧ _capacity st' = _capacity st
    ∧ _load_factor st' = _load_factor st.
Proof.
  intros HI Hin. destruct (bucket_at_run st k HI) as (b & Hb & Hl).
  destruct (chain_find_is_Some st k b HI Hl Hin) as (ref & n & Hf).
  unfold Common.__setitem__, bind at 1. rewrite hash_run by done.
  unfold bind at 1. rewrite Hb, Hf. eexists. split; [reflexivity|].
  simpl. split; [|done]. destruct HI as [Hc Hlf Hlen Hsz Hnd Hch].
  split; simpl; auto.
  - by rewrite length_insert.
  - unfold kl in *. simpl. by rewrite update_walk_length.
  - unfold kl in *. simpl. by rewrite update_walk_keys.
  - intros i b'. unfold kl in *. simpl. rewrite chain_update.
    destruct (decide (i = slot (_capacity st) k)) as [->|Hne].
    + rewrite list_lookup_insert_eq by (by eapply lookup_lt_Some).
      intros [= <-]. simpl. rewrite <-(Hch _ _ Hl).
      rewrite <-(alter_find _ _ _ 0 _ _ Hf). by rewrite Nat.sub_0_r.
    + rewrite list_lookup_insert_ne by done. intros Hl'.
      rewrite update_walk_absent by (by apply chain_absent). eauto.
Qed.

(** *** [__setitem__] on a new key, up to the call of [_check_resize] *)

Lemma setitem_new st k v cr :
  Inv st → k ∉ key <$> kl st →
  ∃ st1, Common.__setitem__ hash cr k v st = cr st1
    ∧ Inv st1
    ∧ kl st1 = kl st ++ [mkNode k v]
    ∧ _capacity st1 = _capacity st
    ∧ _load_factor st1 = _load_factor st.
Proof.
  intros HI Hin. destruct (bucket_at_run st k HI) as (b & Hb & Hl).
  pose proof (chain_find_is_None st k b HI Hl Hin) as Hf.
  unfold Common.__setitem__, bind at 1. rewrite hash_run by done.
  unfold bind at 1. rewrite Hb, Hf. eexists. split; [reflexivity|].
  simpl. split; [|done]. destruct HI as [Hc Hlf Hlen Hsz Hnd Hch].
  split; simpl; auto.
  - by rewrite length_insert.
  - unfold kl in *. simpl. rewrite length_app. simpl. lia.
  - unfold kl in *. simpl. rewrite fmap_app. apply NoDup_app.
    split; [done|]. split; [|apply NoDup_singleton].
    intros k' Hk' ->%list_elem_of_singleton. done.
  - intros i b'. unfold kl in *. simpl. rewrite filter_app.
    destruct (decide (i = slot (_capacity st) k)) as [->|Hne].
    + rewrite list_lookup_insert_eq by (by eapply lookup_lt_Some).
      intros [= <-]. simpl. rewrite (Hch _ _ Hl).
      by rewrite (filter_cons_True _ (mkNode k v)) by done.
    + rewrite list_lookup_insert_ne by done. intros Hl'.
      rewrite (filter_cons_False _ (mkNode k v)) by (simpl; congruence).
      rewrite filter_nil, app_nil_r. eauto.
Qed.

(** *** [__delitem__] *)

Lemma delitem_absent st k :
  Inv st → k ∉ key <$> kl st →
  Common.__delitem__ hash k st = (st, Raise (KeyError k)).
Proof.
  intros HI Hin. destruct (bucket_at_run st k HI) as (b & Hb & Hl).
  pose proof (chain_find_is_None st k b HI Hl Hin) as Hf.
  unfold Common.__delitem__, bind at 1. rewrite hash_run by done.
  unfold bind at 1. by rewrite Hb, Hf.
Qed.

Lemma delitem_present st k :
  Inv st → k ∈ key <$> kl st →
  ∃ st', Common.__delitem__ hash k st = (st', Return tt)
    ∧ Inv st'
    ∧ kl st' = (Common.remove_walk (kl st) k).1
    ∧ _size st' = _size st - 1
    ∧ _capacity st' = _capacity st
    ∧ _load_factor st' = _load_factor st.
Proof.
  intros HI Hin. destruct (bucket_at_run st k HI) as (b & Hb & Hl).
  destruct (chain_find_is_Some st k b HI Hl Hin) as (ref & n & Hf).
  unfold Common.__delitem__, bind at 1. rewrite hash_run by done.
  unfold bind at 1. rewrite Hb, Hf.
  unfold bind, Common.set_bucket, get_self, put_self. simpl.
  fold (kl st). destruct (Common.remove_walk (kl st) k) as [l found] eqn:E.
  simpl. eexists. split; [reflexivity|].
  assert (l = (Common.remove_walk (kl st) k).1) as -> by (by rewrite E).
  clear E. simpl. split; [|done].
  pose proof (remove_walk_length (kl st) k Hin) as Hrl.
  destruct HI as [Hc Hlf Hlen Hsz Hnd Hch].
  split; simpl; auto.
  - by rewrite length_insert.
  - unfold kl in *. simpl. lia.
  - unfold kl in *. simpl. rewrite remove_walk_keys by done.
    by apply NoDup_filter.
  - intros i b'. unfold kl in *. simpl. rewrite chain_remove.
    destruct (decide (i = slot (_capacity st) k)) as [->|Hne].
    + rewrite list_lookup_insert_eq by (by eapply lookup_lt_Some).
      intros [= <-]. simpl. rewrite <-(Hch _ _ Hl).
      rewrite <-(delete_find _ _ 0 _ _ Hf). by rewrite Nat.sub_0_r.
    + rewrite list_lookup_insert_ne by done. intros Hl'.
      rewrite remove_walk_absent by (by apply chain_absent). eauto.
Qed.

(** *** [_check_resize] and [_resize] *)

Lemma check_resize_run st rs :
  Inv st →
  Common._check_resize rs st
  = if bool_decide (over (_load_factor st) (_size st) (_capacity st))
    then rs (_capacity st * 2) st else (st, Return tt).
Proof.
  intros HI. unfold Common._check_resize, bind, get_self, lift.
  destruct (true_div_over (_load_factor st) (_size st)
              (_capacity st) (inv_cap _ HI)) as (load & -> & -> & _).
  by case_bool_decide.
Qed.

Lemma resize_with_run st setitem new_capacity :
  Inv st →
  ThreadSafeHashTable._resize_with setitem new_capacity st
  = if bool_decide (over (_load_factor st) (_size st) (_capacity st))
    then Common.rehash setitem new_capacity st else (st, Return tt).
Proof.
  intros HI. unfold ThreadSafeHashTable._resize_with, bind, get_self, lift.
  destruct (true_div_over (_load_factor st) (_size st)
              (_capacity st) (inv_cap _ HI)) as (load & -> & _ & ->).
  by case_bool_decide.
Qed.

Lemma rehash_key_skip setitem (l1 l2 : list (DLL K V)) k :
  (∀ b, b ∈ l1 → find b k = None) →
  Common.rehash_key setitem (l1 ++ l2) k = Common.rehash_key setitem l2 k.
Proof.
  induction l1 as [|b l1 IH]; intros Hn; simpl; [done|].
  rewrite Hn by left. apply IH. intros b' Hb'. apply Hn. by right.
Qed.

(** The scan of the old chains finds every node of the global list. *)
Lemma rehash_key_found st setitem n :
  Inv st → n ∈ kl st →
  Common.rehash_key setitem (_buckets st) (key n)
  = setitem (key n) (value n).
Proof.
  intros HI Hin.
  pose proof (slot_bound st (key n) HI) as Hb.
  destruct (lookup_lt_is_Some_2 _ _ Hb) as [b Hl].
  rewrite <-(take_drop_middle _ _ _ Hl). rewrite rehash_key_skip.
  - simpl. pose proof (chain_find st (key n) b HI Hl) as Hc.
    rewrite lookup_node_elem in Hc by (done || apply HI).
    destruct (find b (key n)) as [[ref n']|]; [|done].
    by injection Hc as ->.
  - intros b' [i Hi]%list_elem_of_lookup.
    pose proof (lookup_lt_Some _ _ _ Hi) as Hlt. rewrite length_take in Hlt.
    rewrite lookup_take_lt in Hi by lia.
    eapply chain_find_other; [done..|lia].
Qed.

Lemma fresh_Inv c lf :
  0 < c → 0 < Qnum lf →
  Inv (mkTable c lf (Common.fresh_buckets c) 0 DoublyLinkedList.__init__).
Proof.
  intros Hc Hlf. split; simpl; auto.
  - unfold Common.fresh_buckets. by rewrite length_replicate.
  - apply NoDup_nil_2.
  - intros i b [-> _]%lookup_replicate. done.
Qed.

(** *** What a call of [__setitem__] establishes *)

Lemma raise_SetSpec : SetSpec None (λ _ _, raise OutOfFuel).
Proof.
  intros st k v _. exists st, (Raise OutOfFuel).
  split; [done|]. split; [by right|]. split; [done|]. done.
Qed.

(** *** The rehash loop of [_resize] *)

Lemma pow2_pos (a : nat) : 1 <= 2 ^ Z.of_nat a.
Proof. pose proof (Z.pow_pos_nonneg 2 (Z.of_nat a)). lia. Qed.

Lemma pow2_succ (a : nat) : 2 ^ Z.of_nat (S a) = 2 * 2 ^ Z.of_nat a.
Proof. rewrite Nat2Z.inj_succ, Z.pow_succ_r by lia. done. Qed.

Lemma pow2_add (a b : nat) :
  2 ^ Z.of_nat (a + b) = 2 ^ Z.of_nat a * 2 ^ Z.of_nat b.
Proof. rewrite Nat2Z.inj_add, Z.pow_add_r by lia. done. Qed.

Lemma rehash_loop calls f st1 c :
  Inv st1 → SetSpec calls f → 0 < c →
  let lf := _load_factor st1 in
  let N := Z.of_nat (length (kl st1)) in
  ∀ todo done s,
    kl st1 = done ++ todo → LoopInv lf N c done s →
    ∃ s' r,
      for_each (key <$> todo) (Common.rehash_key f (_buckets st1)) s
      = (s', r)
      ∧ (r = Return tt ∨ r = Raise OutOfFuel)
      ∧ (r = Return tt → LoopInv lf N c (kl st1) s')
      ∧ (∀ m, calls = Some m →
           N * QDen lf <= Qnum lf * c * 2 ^ Z.of_nat m → r = Return tt).
Proof.
  intros HI1 Hf Hc lf N todo.
  induction todo as [|n todo IH]; intros done s Hkl HL.
  - exists s, (Return tt). rewrite app_nil_r in Hkl. subst done.
    split; [done|]. split; [by left|]. split; [done|]. done.
  - assert (Hn : n ∈ kl st1).
    { rewrite Hkl. apply elem_of_app. right. left. }
    assert (Hnew : key n ∉ key <$> done).
    { pose proof (inv_nodup _ HI1) as Hnd. rewrite Hkl, fmap_app in Hnd.
      apply NoDup_app in Hnd as (_ & Hd & _). intros Hin.
      apply (Hd _ Hin). csimpl. left. }
    assert (Hlen : Z.of_nat (length done) + 1 <= N).
    { subst N. rewrite Hkl, length_app. simpl. lia. }
    destruct HL as [HIs Hkls Hlfs (a & Hca & Hover) Hload].
    csimpl. rewrite (rehash_key_found st1 f n HI1 Hn).
    destruct (Hf s (key n) (value n) HIs)
      as (s2 & r2 & Hrun & Hr & Hpost & Hterm).
    unfold bind at 1. rewrite Hrun. destruct Hr as [-> | ->].
    + destruct (Hpost eq_refl) as [HI2 Hkl2 Hlf2 _ Hnew2].
      rewrite Hkls in *. specialize (Hnew2 Hnew).
      destruct Hnew2 as (j & Hcj & Hnov & Hjov).
      rewrite Hlfs in Hnov, Hjov, Hlf2.
      apply (IH (done ++ [n])).
      * by rewrite <-app_assoc.
      * split; auto.
        -- rewrite Hkl2. unfold put. rewrite decide_False by done.
           by destruct n.
        -- exists (a + j)%nat. split.
           ++ rewrite Hcj, Hca, pow2_add. lia.
           ++ intros t Ht. destruct (decide (t < a)%nat) as [|Hge]; [auto|].
              specialize (Hjov (t - a)%nat ltac:(lia)).
              replace t with (a + (t - a))%nat by lia.
              rewrite pow2_add, Z.mul_assoc, <-Hca.
              pose proof (inv_lf _ HI1).
              eapply over_mono; [| | |exact Hjov]; subst lf; lia.
        -- intros _. rewrite length_app. simpl.
           by rewrite Nat2Z.inj_add.
    + exists s2, (Raise OutOfFuel). split; [done|]. split; [by right|].
      split; [done|]. intros m Hm Hb. apply (Hterm m Hm).
      unfold enough. rewrite Hkls, Hlfs, Hca.
      pose proof (pow2_pos a). pose proof (pow2_pos m).
      pose proof (inv_lf _ HI1). fold lf in H1.
      assert (0 < Z.pos (Qden lf)) by lia. nia.
Qed.

(** *** One level of the recursion *)

Lemma setitem_step fuel f :
  SetSpec (nested_calls fuel) f →
  SetSpec (Some fuel)
    (Common.__setitem__ hash
       (Common._check_resize (ThreadSafeHashTable._resize_with f))).
Proof.
  intros Hf st k v HI.
  destruct (decide (k ∈ key <$> kl st)) as [Hin|Hin].
  { destruct (setitem_existing st k v
                (Common._check_resize (ThreadSafeHashTable._resize_with f))
                HI Hin) as (st' & Hrun & HI' & Hkl & Hcap & Hlf).
    exists st', (Return tt). split; [done|]. split; [by left|].
    split; [|done]. intros _. split; auto; [|done].
    unfold put. by rewrite decide_True. }
  destruct (setitem_new st k v
              (Common._check_resize (ThreadSafeHashTable._resize_with f))
              HI Hin) as (st1 & Hrun & HI1 & Hkl1 & Hcap1 & Hlf1).
  rewrite Hrun, check_resize_run by done.
  assert (Hsz1 : _size st1 = Z.of_nat (length (kl st)) + 1).
  { rewrite (inv_size _ HI1), Hkl1, length_app. simpl. lia. }
  rewrite Hsz1, Hcap1, Hlf1.
  pose proof (inv_cap _ HI) as Hc. pose proof (inv_lf _ HI) as Hlfpos.
  case_bool_decide as Hov.
  - rewrite resize_with_run by done. rewrite Hsz1, Hcap1, Hlf1.
    rewrite bool_decide_true by done.
    unfold Common.rehash, bind at 1, get_self. unfold bind at 1, put_self.
    rewrite Hlf1.
    destruct (rehash_loop (nested_calls fuel) f st1 (_capacity st * 2)
                HI1 Hf ltac:(lia) (kl st1) []
                (mkTable (_capacity st * 2) (_load_factor st)
                   (Common.fresh_buckets (_capacity st * 2)) 0
                   DoublyLinkedList.__init__))
      as (s' & r & Hloop & Hr & Hok & Hterm); [done| |].
    { split; simpl.
      - apply fresh_Inv; lia.
      - done.
      - done.
      - exists 0%nat. split; [simpl; lia|]. intros t Ht. lia.
      - done. }
    unfold DoublyLinkedList.__iter__. fold (kl st1). rewrite Hloop.
    exists s', r. split; [done|]. split; [done|]. split.
    + intros Hret. destruct (Hok Hret) as [HI' Hkl' Hlf' (a & Hca & Hov') Hld].
      rewrite Hlf1 in *.
      assert (HN : Z.of_nat (length (kl st1)) = Z.of_nat (length (kl st)) + 1).
      { rewrite Hkl1, length_app. simpl. lia. }
      rewrite HN in *.
      split; auto.
      * rewrite Hkl', Hkl1. unfold put. by rewrite decide_False.
      * done.
      * intros _. exists (S a). split; [|split].
        -- rewrite Hca, pow2_succ. lia.
        -- apply Hld. rewrite Hkl1. by destruct (kl st).
        -- intros [|t] Ht.
           ++ simpl. by rewrite Z.mul_1_r.
           ++ rewrite pow2_succ, Z.mul_assoc. apply Hov'. lia.
    + intros m [= <-] Hen. destruct fuel as [|fuel'].
      * unfold enough in Hen. unfold over in Hov. simpl in Hen. lia.
      * apply (Hterm fuel' eq_refl). rewrite Hkl1, length_app, Hlf1. simpl.
        unfold enough in Hen. rewrite pow2_succ in Hen. lia.
  - exists st1, (Return tt). split; [done|]. split; [by left|].
    split; [|done]. intros _. split; auto.
    + rewrite Hkl1. unfold put. by rewrite decide_False.
    + intros _. exists 0%nat. rewrite Hcap1. split; [simpl; lia|].
      split; [done|]. intros t Ht. lia.
Qed.

Lemma setitem_SetSpec fuel :
  SetSpec (Some fuel) (ThreadSafeHashTable.__setitem__ hash fuel).
Proof.
  induction fuel as [|fuel IH]; simpl; apply setitem_step; simpl.
  - apply raise_SetSpec.
  - exact IH.
Qed.

Lemma enough_mono fuel fuel' st :
  Inv st → (fuel <= fuel')%nat → enough fuel st → enough fuel' st.
Proof.
  intros HI Hle. unfold enough.
  pose proof (inv_cap _ HI). pose proof (inv_lf _ HI).
  assert (2 ^ Z.of_nat fuel <= 2 ^ Z.of_nat fuel')
    by (apply Z.pow_le_mono_r; lia).
  nia.
Qed.

(** A call of [__setitem__] with enough fuel returns, and what it
    leaves. *)
Lemma setitem_run fuel st k v :
  Inv st → enough fuel st →
  ∃ st', ThreadSafeHashTable.__setitem__ hash fuel k v st = (st', Return tt)
    ∧ post st k v st'.
Proof.
  intros HI Hen.
  destruct (setitem_SetSpec fuel st k v HI) as (st' & r & Hrun & _ & Hp & Ht).
  specialize (Ht fuel eq_refl Hen). subst r. eauto.
Qed.

(** Any result other than [OutOfFuel] is that result. *)
Lemma setitem_result fuel st k v st' r :
  Inv st → ThreadSafeHashTable.__setitem__ hash fuel k v st = (st', r) →
  r ≠ Raise OutOfFuel → r = Return tt ∧ post st k v st'.
Proof.
  intros HI Hrun Hne.
  destruct (setitem_SetSpec fuel st k v HI) as (st2 & r2 & Hrun2 & Hr & Hp & _).
  rewrite Hrun in Hrun2. injection Hrun2 as E1 E2. subst st2 r2.
  destruct Hr as [-> | ->]; [auto | done].
Qed.

Lemma setitem_unfold fuel :
  ThreadSafeHashTable.__setitem__ (V := V) hash fuel
  = Common.__setitem__ hash (ThreadSafeHashTable._check_resize hash fuel).
Proof. by destruct fuel. Qed.

Lemma get_run st k default :
  Inv st →
  Common.get hash k default st
  = (st, Return match lookup_node st k with
                | Some n => value n
                | None => default
                end).
Proof.
  intros HI. unfold Common.get. rewrite getitem_run by done.
  by destruct (lookup_node st k).
Qed.

Lemma init_Inv c lf st :
  ThreadSafeHashTable.__init__ c lf = Return st →
  Inv st ∧ kl st = [] ∧ _capacity st = c ∧ _load_factor st = lf.
Proof.
  unfold ThreadSafeHashTable.__init__.
  destruct (c <=? 0) eqn:Hc; [done|]. apply Z.leb_gt in Hc.
  destruct (Qlt_bool 0 lf) eqn:Hlf; simpl; [|done].
  destruct (Qle_bool lf 1); simpl; [|done].
  intros [= <-]. split; [|done]. apply fresh_Inv; [done|].
  unfold Qlt_bool, Qle_bool in Hlf. simpl in Hlf.
  apply negb_true_iff, Z.leb_gt in Hlf. lia.
Qed.

(** *** The ordered map the table implements *)

Lemma fuel_covers_enough fuel st (size : nat) :
  Inv st → (length (kl st) <= size)%nat →
  fuel_covers fuel (_load_factor st) size → enough fuel st.
Proof.
  intros HI Hn. unfold fuel_covers, enough.
  pose proof (inv_cap _ HI). pose proof (inv_lf _ HI).
  pose proof (pow2_pos fuel). intros Hf.
  assert (1 <= Qnum (_load_factor st) * _capacity st) by nia.
  assert (2 ^ Z.of_nat fuel
          <= Qnum (_load_factor st) * _capacity st * 2 ^ Z.of_nat fuel) by nia.
  assert ((Z.of_nat (length (kl st)) + 1) * QDen (_load_factor st)
          <= (Z.of_nat size + 1) * QDen (_load_factor st)) by nia.
  lia.
Qed.

Lemma fuel_covers_mono fuel lf (size size' : nat) :
  (size' <= size)%nat → fuel_covers fuel lf size → fuel_covers fuel lf size'.
Proof. unfold fuel_covers. nia. Qed.

Lemma put_length ns k v : (length (put ns k v) <= S (length ns))%nat.
Proof.
  unfold put. case_decide.
  - rewrite update_walk_length. lia.
  - rewrite length_app. simpl. lia.
Qed.

(** A call with enough fuel does what the ordered map does. *)
Lemma call_model fuel o st :
  Inv st → (∀ k v, o = OpSet k v → enough fuel st) →
  ∃ st', ThreadSafeHashTable.call hash fuel o st
         = (st', (model_step o (kl st)).2)
    ∧ Inv st'
    ∧ kl st' = (model_step o (kl st)).1
    ∧ _load_factor st' = _load_factor st
    ∧ ((∀ k v, o ≠ OpSet k v) → _capacity st' = _capacity st).
Proof.
  intros HI Hen. unfold ThreadSafeHashTable.call.
  destruct o as [k v|k|k d|k|k| |]; simpl.
  - destruct (setitem_run fuel st k v HI (Hen k v eq_refl))
      as (st' & Hrun & Hp).
    exists st'. unfold bind. rewrite Hrun.
    destruct Hp. do 4 (split; [done|]). intros Hns. by destruct (Hns k v).
  - exists st. unfold bind. rewrite getitem_run by done.
    fold (lookup_node st k). by destruct (lookup_node st k).
  - exists st. unfold bind. rewrite get_run by done. done.
  - case_decide as Hin.
    + destruct (delitem_present st k HI Hin)
        as (st' & Hrun & HI' & Hkl & _ & Hcap & Hlf).
      exists st'. unfold bind. rewrite Hrun. auto.
    + exists st. unfold bind. rewrite delitem_absent by done. auto.
  - exists st. unfold bind. rewrite contains_run by done. auto.
  - exists st. unfold bind, Common.__len__, bind, get_self, ret.
    rewrite (inv_size _ HI). auto.
  - exists st. auto.
Qed.

Lemma model_step_length o ns :
  (length (model_step o ns).1 <= S (length ns))%nat.
Proof.
  destruct o; simpl; try lia.
  - apply put_length.
  - case_decide; simpl; [|lia].
    destruct (decide (length ns = 0)%nat) as [Hz|Hz].
    + destruct ns; [simpl; lia | done].
    + pose proof (remove_walk_length ns k ltac:(done)). lia.
Qed.

(** A client with enough fuel sees what the ordered map answers. *)
Lemma run_model fuel ops st :
  Inv st →
  fuel_covers fuel (_load_factor st) (length (kl st) + length ops) →
  ∃ st', run (ThreadSafeHashTable.call hash fuel) ops st
         = (st', (model_run ops (kl st)).2)
    ∧ Inv st'
    ∧ kl st' = (model_run ops (kl st)).1
    ∧ _load_factor st' = _load_factor st.
Proof.
  revert st. induction ops as [|o ops IH]; intros st HI Hf; simpl.
  - exists st. auto.
  - destruct (call_model fuel o st HI) as (st1 & Hc & HI1 & Hkl1 & Hlf1 & _).
    { intros _ _ _. eapply fuel_covers_enough; [done| |done]. lia. }
    rewrite Hc. destruct (model_step o (kl st)) as [ns1 r] eqn:Hm.
    simpl in *. destruct (IH st1 HI1) as (st2 & Hr & HI2 & Hkl2 & Hlf2).
    { rewrite Hlf1, Hkl1. eapply fuel_covers_mono; [|done].
      pose proof (model_step_length o (kl st)) as Hl. rewrite Hm in Hl.
      simpl in *. lia. }
    rewrite Hkl1 in Hr, Hkl2. rewrite Hr.
    destruct (model_run ops ns1) as [ns2 rs].
    exists st2. simpl in *. split; [done|]. split; [done|].
    split; [done | congruence].
Qed.

(** *** The tables a client can get *)

Lemma call_result fuel o st st' r :
  Inv st → ThreadSafeHashTable.call hash fuel o st = (st', r) →
  r ≠ Raise OutOfFuel →
  Inv st' ∧ r = (model_step o (kl st)).2 ∧ kl st' = (model_step o (kl st)).1.
Proof.
  intros HI Hrun Hne.
  assert ((∃ k v, o = OpSet k v) ∨ ¬ (∃ k v, o = OpSet k v))
    as [(k & v & ->)|Hns]
    by (destruct o; eauto; right; intros (? & ? & ?); done).
  - unfold ThreadSafeHashTable.call in Hrun. simpl in Hrun.
    unfold bind in Hrun.
    destruct (ThreadSafeHashTable.__setitem__ hash fuel k v st)
      as [s r0] eqn:Hs.
    destruct (setitem_result fuel st k v s r0 HI Hs) as [-> Hp].
    { intros ->. by injection Hrun as _ <-. }
    injection Hrun as <- <-. destruct Hp. simpl. auto.
  - destruct (call_model fuel o st HI) as (s & Hc & HIs & Hkl & _ & _).
    { intros k v ->. destruct Hns. eauto. }
    rewrite Hrun in Hc. injection Hc as <- <-. auto.
Qed.

Lemma reachable_Inv st : reachable st → Inv st.
Proof.
  induction 1 as [c lf st Hi|st fuel o st' r _ IH Hc Hne|st st' r _ IH Hc].
  - by apply init_Inv in Hi as [? _].
  - by destruct (call_result fuel o st st' r IH Hc Hne).
  - injection Hc as <- _. destruct IH. by apply fresh_Inv.
Qed.

Lemma model_step_shorter o ns :
  (∀ k v, o ≠ OpSet k v) → (length (model_step o ns).1 <= length ns)%nat.
Proof.
  intros Hns. destruct o as [k v|k|k d|k|k| |]; simpl; try lia.
  - by destruct (Hns k v).
  - case_decide as Hin; simpl; [|lia].
    pose proof (remove_walk_length ns k Hin). lia.
Qed.

Lemma call_within fuel o st st' r :
  Inv st → within st →
  ThreadSafeHashTable.call hash fuel o st = (st', r) →
  r ≠ Raise OutOfFuel →
  within st'.
Proof.
  intros HI Hw Hrun Hne. unfold within in *.
  pose proof (inv_lf _ HI) as Hlf.
  assert ((∃ k v, o = OpSet k v) ∨ (∀ k v, o ≠ OpSet k v))
    as [(k & v & ->)|Hns]
    by (destruct o; eauto; right; intros ? ? ?; done).
  - unfold ThreadSafeHashTable.call in Hrun. simpl in Hrun.
    unfold bind in Hrun.
    destruct (ThreadSafeHashTable.__setitem__ hash fuel k v st)
      as [s r0] eqn:Hs.
    destruct (setitem_result fuel st k v s r0 HI Hs) as [-> Hp].
    { intros ->. by injection Hrun as _ <-. }
    injection Hrun as <- _. destruct Hp as [HI' Hkl' Hlf' Hold Hnew].
    rewrite (inv_size _ HI'), Hkl', Hlf'. unfold put.
    case_decide as Hin.
    + rewrite update_walk_length, (Hold Hin), <-(inv_size _ HI). done.
    + destruct (Hnew Hin) as (j & _ & Hno & _).
      rewrite length_app. simpl.
      replace (Z.of_nat (length (kl st) + 1))
        with (Z.of_nat (length (kl st)) + 1) by lia. done.
  - destruct (call_model fuel o st HI) as (s & Hc & HIs & Hkl & Hlf' & Hcap).
    { intros k v ->. by destruct (Hns k v). }
    rewrite Hrun in Hc. injection Hc as <- _.
    rewrite Hlf', (Hcap Hns), (inv_size _ HIs), Hkl.
    pose proof (model_step_shorter o (kl st) Hns) as Hlen.
    intros Hov. apply Hw. rewrite (inv_size _ HI).
    eapply over_mono; [| |reflexivity|exact Hov]; lia.
Qed.

Lemma reachable_within st : reachable st → within st.
Proof.
  induction 1 as [c lf st Hi|st fuel o st' r Hr IH Hc Hne|st st' r Hr IH Hc].
  - apply init_Inv in Hi as (HI & Hkl & _). unfold within, over.
    rewrite (inv_size _ HI), Hkl. simpl. pose proof (inv_lf _ HI).
    pose proof (inv_cap _ HI). nia.
  - eapply call_within; [by apply reachable_Inv|done..].
  - injection Hc as <- _. apply reachable_Inv in Hr.
    unfold within, over. simpl. pose proof (inv_lf _ Hr).
    pose proof (inv_cap _ Hr). nia.
Qed.

(** *** The keys alive after a history *)

Lemma model_step_keys o ns :
  NoDup (key <$> ns) →
  key <$> (model_step o ns).1 = live_step (key <$> ns) o
  ∧ NoDup (key <$> (model_step o ns).1).
Proof.
  intros Hnd. destruct o as [k v|k|k d|k|k| |]; simpl; auto.
  - unfold put. case_decide as Hin.
    + by rewrite update_walk_keys.
    + rewrite fmap_app. split; [done|]. apply NoDup_app.
      split; [done|]. split; [|apply NoDup_singleton].
      intros k' Hk' ->%list_elem_of_singleton. done.
  - case_decide as Hin; simpl.
    + rewrite remove_walk_keys by done. split; [done|]. by apply NoDup_filter.
    + by rewrite filter_ne_absent.
Qed.

Lemma model_run_keys ops ns :
  NoDup (key <$> ns) →
  key <$> (model_run ops ns).1 = fold_left live_step ops (key <$> ns).
Proof.
  revert ns. induction ops as [|o ops IH]; intros ns Hnd; simpl; [done|].
  destruct (model_step_keys o ns Hnd) as [Hk Hnd'].
  destruct (model_step o ns) as [ns1 r]. simpl in *.
  specialize (IH ns1 Hnd'). destruct (model_run ops ns1). simpl in *.
  by rewrite IH, Hk.
Qed.

(** *** The two classes run the same statements *)

Lemma for_each_ext {A} (xs : list A) (f g : A → M K V unit) st :
  (∀ x s, f x s = g x s) → for_each xs f st = for_each xs g st.
Proof.
  intros Hfg. revert st. induction xs as [|x xs IH]; intros st; simpl; [done|].
  unfold bind. rewrite Hfg. destruct (g x st) as [s [[]|e]]; [apply IH|done].
Qed.

Lemma rehash_key_ext (f g : K → V → M K V unit) bs k st :
  (∀ k v s, f k v s = g k v s) →
  Common.rehash_key f bs k st = Common.rehash_key g bs k st.
Proof.
  intros Hfg. induction bs as [|b bs IH]; simpl; [done|].
  destruct (find b k) as [[ref n]|]; [apply Hfg | apply IH].
Qed.

Lemma check_resize_same (f g : K → V → M K V unit) st :
  (∀ k v s, f k v s = g k v s) →
  Common._check_resize (ThreadSafeHashTable._resize_with f) st
  = Common._check_resize (NonThreadSafeHashTable._resize_with g) st.
Proof.
  intros Hfg. unfold Common._check_resize, bind at 1 3, get_self.
  unfold bind, lift. destruct (true_div _ _) as [load|e] eqn:Hd; [|done].
  destruct (Qlt_bool (_load_factor st) load) eqn:Hlt; [|done].
  unfold ThreadSafeHashTable._resize_with, NonThreadSafeHashTable._resize_with.
  unfold bind at 1, get_self. unfold bind at 1, lift. rewrite Hd.
  unfold Qlt_bool in Hlt. apply negb_true_iff in Hlt. rewrite Hlt.
  unfold Common.rehash, bind, get_self, put_self.
  rewrite (for_each_ext _ _ (Common.rehash_key g (_buckets st))); [done|].
  intros k s. by apply rehash_key_ext.
Qed.

Lemma bind_ext {A B} (c : M K V A) (f g : A → M K V B) st :
  (∀ a s, f a s = g a s) → bind c f st = bind c g st.
Proof. intros Hfg. unfold bind. destruct (c st) as [s [a|e]]; auto. Qed.

Lemma setitem_body_ext (cr cr' : M K V unit) k v st :
  (∀ s, cr s = cr' s) →
  Common.__setitem__ hash cr k v st = Common.__setitem__ hash cr' k v st.
Proof.
  intros Hcr. unfold Common.__setitem__.
  apply bind_ext. intros h s. apply bind_ext. intros [i b] s'.
  destruct (find b k) as [[ref n]|]; [done|].
  do 5 (apply bind_ext; intros ? ?). apply Hcr.
Qed.

Lemma setitem_same fuel k v st :
  ThreadSafeHashTable.__setitem__ hash fuel k v st
  = NonThreadSafeHashTable.__setitem__ hash fuel k v st.
Proof.
  revert k v st. induction fuel as [|fuel IH]; intros k v st; simpl;
    apply setitem_body_ext; intros s; by apply check_resize_same.
Qed.

Lemma call_same fuel o st :
  ThreadSafeHashTable.call hash fuel o st
  = NonThreadSafeHashTable.call hash fuel o st.
Proof.
  destruct o; try done. simpl. unfold bind. by rewrite setitem_same.
Qed.

Lemma run_same fuel ops st :
  run (ThreadSafeHashTable.call hash fuel) ops st
  = run (NonThreadSafeHashTable.call hash fuel) ops st.
Proof.
  revert st. induction ops as [|o ops IH]; intros st; simpl; [done|].
  rewrite call_same. destruct (NonThreadSafeHashTable.call hash fuel o st).
  by rewrite IH.
Qed.

(** *** Fuel that is always enough *)

Lemma fuel_for_covers lf (size fuel : nat) :
  (fuel_for lf size <= fuel)%nat → fuel_covers fuel lf size.
Proof.
  unfold fuel_for, fuel_covers. intros Hle.
  set (x := (Z.of_nat size + 1) * QDen lf) in *.
  assert (0 < x) by (subst x; nia).
  pose proof (Z.log2_up_nonneg x).
  assert (x <= 2 ^ Z.log2_up x).
  { destruct (decide (x = 1)) as [->|]; [done|].
    apply Z.log2_up_spec. lia. }
  assert (2 ^ Z.log2_up x <= 2 ^ Z.of_nat fuel)
    by (apply Z.pow_le_mono_r; lia).
  lia.
Qed.

Lemma fuel_of_enough fuel st :
  Inv st → (fuel_of st <= fuel)%nat → enough fuel st.
Proof.
  intros HI Hle. eapply fuel_covers_enough; [done|reflexivity|].
  by apply fuel_for_covers.
Qed.

(** *** Lookups after [put] *)

Lemma find_from_app_absent (ns ns' : list (Node K V)) k :
  k ∉ key <$> ns →
  snd <$> find_from 0 (ns ++ ns') k = snd <$> find_from 0 ns' k.
Proof.
  induction ns as [|n ns IH]; csimpl; [done|].
  rewrite not_elem_of_cons. intros [Hne Hni].
  rewrite decide_False by done.
  rewrite (find_from_node _ k 1). by apply IH.
Qed.

Lemma put_find ns k v :
  snd <$> find_from 0 (put ns k v) k = Some (mkNode k v).
Proof.
  unfold put. case_decide as Hin.
  - induction ns as [|n ns IH]; csimpl; [by apply elem_of_nil in Hin|].
    destruct (decide (key n = k)) as [->|Hne]; simpl.
    + by rewrite decide_True.
    + rewrite decide_False by done. rewrite (find_from_node _ k 1).
      apply IH. apply elem_of_cons in Hin as [|]; [done|done].
  - rewrite find_from_app_absent by done. simpl. by rewrite decide_True.
Qed.

Lemma put_find_ne ns k v k' :
  k' ≠ k →
  snd <$> find_from 0 (put ns k v) k' = snd <$> find_from 0 ns k'.
Proof.
  clear hash.
  intros Hne. unfold put. case_decide as Hin.
  - clear Hin. induction ns as [|n ns IH]; csimpl; [done|].
    destruct (decide (key n = k)) as [Hk|Hk]; simpl.
    + rewrite !decide_False by congruence. done.
    + destruct (decide (key n = k')); [done|].
      rewrite !(find_from_node _ k' 1). apply IH.
  - induction ns as [|n ns IH]; csimpl.
    + by rewrite decide_False.
    + destruct (decide (key n = k')); [done|].
      rewrite !(find_from_node _ k' 1). apply IH.
      rewrite fmap_cons, not_elem_of_cons in Hin. tauto.
Qed.

(** With distinct keys, the update walk rewrites the entry of the key and
    nothing else. *)
Lemma update_walk_fmap (ns : list (Node K V)) k v :
  NoDup (key <$> ns) →
  Common.update_walk ns k v
  = (λ n, if decide (key n = k) then mkNode (key n) v else n) <$> ns.
Proof.
  induction ns as [|n ns IH]; csimpl; [done|].
  rewrite NoDup_cons. intros [Hni Hnd].
  destruct (decide (key n = k)) as [Hk|Hk].
  - f_equal. rewrite <-IH by done.
    rewrite update_walk_absent; [done | by rewrite <-Hk].
  - f_equal. by apply IH.
Qed.

Lemma run_from_init c lf st0 ops fuel st rs :
  ThreadSafeHashTable.__init__ c lf = Return st0 →
  (fuel_for lf (length ops) <= fuel)%nat →
  run (ThreadSafeHashTable.call hash fuel) ops st0 = (st, rs) →
  Inv st ∧ rs = (model_run ops []).2 ∧ key <$> kl st = live_keys ops.
Proof.
  intros (HI0 & Hkl0 & _ & Hlf0)%init_Inv Hfuel Hrun.
  destruct (run_model fuel ops st0 HI0) as (st' & Hr & HI & Hkl & _).
  { rewrite Hkl0, Hlf0. simpl. by apply fuel_for_covers. }
  rewrite Hrun in Hr. injection Hr as <- ->. rewrite Hkl0 in *.
  split; [done|]. split; [done|]. rewrite Hkl.
  apply (model_run_keys ops []). apply NoDup_nil_2.
Qed.

(** *** A run of inserts of new keys *)

Lemma run_cons (call : op K V → M K V (val K V)) o ops st st1 r st2 rs :
  call o st = (st1, r) → run call ops st1 = (st2, rs) →
  run call (o :: ops) st = (st2, r :: rs).
Proof. intros Hc Hr. simpl. by rewrite Hc, Hr. Qed.

Lemma inserts_run fuel kvs st :
  Inv st → NoDup ((key <$> kl st) ++ kvs.*1) →
  fuel_covers fuel (_load_factor st) (length (kl st) + length kvs) →
  ∃ st', run (ThreadSafeHashTable.call hash fuel) (sets kvs) st
         = (st', (λ _, Return VNone) <$> kvs)
    ∧ Inv st'
    ∧ kl st' = kl st ++ entries kvs
    ∧ _load_factor st' = _load_factor st
    ∧ (∃ j : nat, _capacity st' = _capacity st * 2 ^ Z.of_nat j)
    ∧ (kvs ≠ [] →
       ¬ over (_load_factor st) (Z.of_nat (length (kl st'))) (_capacity st')).
Proof.
  revert st. induction kvs as [|[k v] kvs IH]; intros st HI Hnd Hf.
  - exists st. simpl. rewrite app_nil_r.
    split; [done|]. split; [done|]. split; [done|]. split; [done|].
    split; [|done]. exists 0%nat. simpl. lia.
  - assert (Hk : k ∉ key <$> kl st).
    { apply NoDup_app in Hnd as (_ & Hd & _). intros Hin.
      apply (Hd _ Hin). csimpl. left. }
    destruct (setitem_run fuel st k v HI) as (st1 & Hrun & [HI1 Hkl1 Hlf1 _ Hg]).
    { eapply fuel_covers_enough; [done| |done]. lia. }
    unfold put in Hkl1. rewrite decide_False in Hkl1 by done.
    destruct (Hg Hk) as (j & Hcj & Hnov & _).
    destruct (IH st1 HI1) as (st' & Hr & HI' & Hkl' & Hlf' & (j' & Hcj') & Hov').
    { rewrite Hkl1, fmap_app, <-app_assoc. done. }
    { rewrite Hlf1, Hkl1, length_app. simpl.
      eapply fuel_covers_mono; [|done]. simpl. lia. }
    exists st'. split.
    { apply (run_cons _ (OpSet k v) (sets kvs) st st1); [|done].
      unfold ThreadSafeHashTable.call. simpl. unfold bind. by rewrite Hrun. }
    split; [done|].
    split; [by rewrite Hkl', Hkl1, <-app_assoc|].
    split; [congruence|]. split.
    + exists (j + j')%nat. rewrite Hcj', Hcj, pow2_add. lia.
    + intros _. destruct kvs as [|p kvs].
      * simpl in Hr. injection Hr as <-.
        rewrite Hkl1, length_app. simpl.
        replace (Z.of_nat (length (kl st) + 1)) with
          (Z.of_nat (length (kl st)) + 1) by lia. done.
      * rewrite <-Hlf1. by apply Hov'.
Qed.

(** *** Writing a key twice *)

Lemma update_walk_app_absent (ns ns' : list (Node K V)) k v :
  k ∉ key <$> ns →
  Common.update_walk (ns ++ ns') k v = ns ++ Common.update_walk ns' k v.
Proof.
  induction ns as [|n ns IH]; csimpl; [done|].
  rewrite not_elem_of_cons. intros [Hne Hni].
  rewrite decide_False by done. by rewrite IH.
Qed.

Lemma update_walk_twice (ns : list (Node K V)) k v1 v2 :
  Common.update_walk (Common.update_walk ns k v1) k v2
  = Common.update_walk ns k v2.
Proof.
  induction ns as [|n ns IH]; simpl; [done|].
  destruct (decide (key n = k)) as [Hk|Hk]; simpl.
  - by rewrite decide_True.
  - rewrite decide_False by done. by rewrite IH.
Qed.

Lemma put_keys ns k v : k ∈ key <$> put ns k v.
Proof.
  unfold put. case_decide.
  - by rewrite update_walk_keys.
  - rewrite fmap_app. apply elem_of_app. right. csimpl. left.
Qed.

Lemma put_twice ns k v1 v2 : put (put ns k v1) k v2 = put ns k v2.
Proof.
  unfold put at 1. rewrite decide_True by apply put_keys.
  unfold put. case_decide as Hin.
  - apply update_walk_twice.
  - rewrite update_walk_app_absent by done. simpl. by rewrite decide_True.
Qed.

(** A call of [__setitem__] on a key already present returns whatever
    the fuel. *)
Lemma setitem_update fuel st k v :
  Inv st → k ∈ key <$> kl st →
  ∃ st', ThreadSafeHashTable.__setitem__ hash fuel k v st = (st', Return tt)
    ∧ Inv st'
    ∧ kl st' = Common.update_walk (kl st) k v.
Proof.
  intros HI Hin. rewrite setitem_unfold.
  destruct (setitem_existing st k v
              (ThreadSafeHashTable._check_resize hash fuel) HI Hin)
    as (st' & Hrun & HI' & Hkl & _). eauto.
Qed.

(** What a client can observe of a table depends on its sequence of
    entries only. *)
Lemma observe_kl st st' :
  Inv st → Inv st' → kl st = kl st' →
  (ThreadSafeHashTable.__len__ st).2 = (ThreadSafeHashTable.__len__ st').2
  ∧ (∀ k, (ThreadSafeHashTable.__getitem__ hash k st).2
          = (ThreadSafeHashTable.__getitem__ hash k st').2)
  ∧ (ThreadSafeHashTable.keys st).2 = (ThreadSafeHashTable.keys st').2
  ∧ (ThreadSafeHashTable.values st).2 = (ThreadSafeHashTable.values st').2
  ∧ (ThreadSafeHashTable.items st).2 = (ThreadSafeHashTable.items st').2.
Proof.
  intros HI HI' Hkl.
  unfold ThreadSafeHashTable.__len__, ThreadSafeHashTable.keys,
    ThreadSafeHashTable.__iter__, ThreadSafeHashTable.values,
    ThreadSafeHashTable.items, ThreadSafeHashTable.__getitem__,
    Common.__len__, Common.__iter__, bind, get_self, ret. simpl.
  fold (kl st) (kl st'). rewrite (inv_size _ HI), (inv_size _ HI'), Hkl.
  split; [done|]. split; [|done].
  intros k. rewrite !getitem_run by done. unfold lookup_node.
  by rewrite Hkl.
Qed.

Lemma run_reachable fuel ops st st' rs :
  reachable st →
  run (ThreadSafeHashTable.call hash fuel) ops st = (st', rs) →
  Forall (λ r, r ≠ Raise OutOfFuel) rs →
  reachable st'.
Proof.
  revert st rs. induction ops as [|o ops IH]; intros st rs Hr; simpl.
  - by intros [= <- _].
  - destruct (ThreadSafeHashTable.call hash fuel o st) as [s1 r] eqn:Hc.
    destruct (run (ThreadSafeHashTable.call hash fuel) ops s1)
      as [s2 rs'] eqn:Hrun.
    intros [= <- <-] [Hne Hrs]%Forall_cons. eapply IH; [|done..].
    by eapply reachable_call.
Qed.


(** *** More on the walks and on fuel *)

Lemma remove_walk_filter (ns : list (Node K V)) k :
  NoDup (key <$> ns) →
  (Common.remove_walk ns k).1 = filter (λ n, key n ≠ k) ns.
Proof.
  induction ns as [|n ns IH]; csimpl; [done|].
  rewrite NoDup_cons. intros [Hni Hnd].
  destruct (decide (key n = k)) as [Heq|Hne]; simpl.
  - rewrite filter_cons_False by (intros Hc; by apply Hc).
    clear IH. induction ns as [|n' ns IH]; [done|].
    rewrite fmap_cons, not_elem_of_cons in Hni. destruct Hni as [Hn' Hni].
    apply NoDup_cons in Hnd as [_ Hnd].
    rewrite filter_cons_True by (simpl; congruence). f_equal. auto.
  - rewrite filter_cons_True by done. rewrite <-IH by done.
    by destruct (Common.remove_walk ns k).
Qed.

Lemma remove_walk_cases (ns : list (Node K V)) k :
  (Common.remove_walk ns k = (ns, false))
  ∨ ((Common.remove_walk ns k).2 = true
     ∧ S (length (Common.remove_walk ns k).1) = length ns).
Proof.
  destruct (decide (k ∈ key <$> ns)) as [Hin|Hin].
  - right. split; [by apply remove_walk_present | by apply remove_walk_length].
  - left. by apply remove_walk_absent.
Qed.

Lemma fuel_for_mono lf (size size' : nat) :
  (size <= size')%nat → (fuel_for lf size <= fuel_for lf size')%nat.
Proof.
  intros Hle. unfold fuel_for. apply Z2Nat.inj_le; try apply Z.log2_up_nonneg.
  apply Z.log2_up_le_mono. nia.
Qed.

(** *** The size counters of the lists *)

Lemma fresh_Sized c lf :
  Sized (mkTable c lf (Common.fresh_buckets c) 0 DoublyLinkedList.__init__).
Proof.
  split; simpl; [done|]. unfold Common.fresh_buckets.
  apply Forall_replicate. done.
Qed.

Lemma for_each_Sized {A} (xs : list A) (body : A → M K V unit) st :
  (∀ x s, Sized s → Sized (body x s).1) →
  Sized st → Sized (for_each xs body st).1.
Proof.
  intros Hb. revert st. induction xs as [|x xs IH]; intros st HS; simpl; [done|].
  unfold bind. specialize (Hb x st HS).
  destruct (body x st) as [s [[]|e]]; simpl in *; auto.
Qed.

Lemma rehash_key_Sized (f : K → V → M K V unit) bs k st :
  (∀ k v s, Sized s → Sized (f k v s).1) →
  Sized st → Sized (Common.rehash_key f bs k st).1.
Proof.
  intros Hf HS. induction bs as [|b bs IH]; simpl; [done|].
  destruct (find b k) as [[ref n]|]; auto.
Qed.

Lemma check_resize_Sized (f : K → V → M K V unit) st :
  (∀ k v s, Sized s → Sized (f k v s).1) →
  Sized st →
  Sized (Common._check_resize (ThreadSafeHashTable._resize_with f) st).1.
Proof.
  intros Hf HS. unfold Common._check_resize, bind at 1, get_self.
  unfold bind at 1, lift. destruct (true_div _ _) as [load|e] eqn:Hd; [|done].
  destruct (Qlt_bool _ _); [|done].
  unfold ThreadSafeHashTable._resize_with, bind at 1, get_self.
  unfold bind at 1, lift. rewrite Hd. destruct (Qle_bool _ _); [done|].
  unfold Common.rehash, bind, get_self, put_self.
  apply for_each_Sized; [|apply fresh_Sized].
  intros x s. by apply rehash_key_Sized.
Qed.

Lemma hash_state k st : (Common._hash hash k st).1 = st.
Proof.
  unfold Common._hash, bind, get_self. by destruct (_capacity st =? 0).
Qed.

Lemma bucket_at_state h st : (Common.bucket_at (K := K) (V := V) h st).1 = st.
Proof.
  unfold Common.bucket_at, bind, get_self.
  destruct (norm_index _ _) as [i|]; [|done]. by destruct (_ !! i).
Qed.

Lemma bucket_at_lookup h st s i b :
  Common.bucket_at h st = (s, Return (i, b)) → _buckets st !! i = Some b.
Proof.
  unfold Common.bucket_at, bind, get_self.
  destruct (norm_index _ _) as [j|]; [|done].
  destruct (_ !! j) as [b'|] eqn:Hl; [|done]. by intros [= _ <- <-].
Qed.

Lemma setitem_body_Sized (cr : M K V unit) k v st :
  (∀ s, Sized s → Sized (cr s).1) →
  Sized st → Sized (Common.__setitem__ hash cr k v st).1.
Proof.
  intros Hcr [Hk Hb]. unfold Common.__setitem__, bind at 1.
  pose proof (hash_state k st) as Hh.
  destruct (Common._hash hash k st) as [s [h|e]]; simpl in Hh; subst s;
    [|by split].
  unfold bind at 1. pose proof (bucket_at_state h st) as Hs.
  destruct (Common.bucket_at h st) as [s [[i b]|e]] eqn:Hba; simpl in Hs;
    subst s; [|by split].
  apply bucket_at_lookup in Hba.
  pose proof (proj1 (Forall_lookup _ _) Hb i b Hba) as Hsb.
  destruct (find b k) as [[ref n]|].
  - unfold bind, Common.set_bucket, Common.set_keys_list, bind, get_self,
      put_self. simpl. split; simpl.
    + unfold dll_sized in *. simpl. by rewrite update_walk_length.
    + apply Forall_insert; [done|]. unfold dll_sized in *. simpl.
      by rewrite length_alter.
  - unfold bind, Common.set_bucket, Common.set_keys_list, Common.set_size,
      bind, get_self, put_self. simpl. apply Hcr. split; simpl.
    + unfold dll_sized in *. simpl. rewrite length_app. simpl. lia.
    + apply Forall_insert; [done|]. unfold dll_sized in *. simpl.
      rewrite length_app. simpl. lia.
Qed.

Lemma setitem_Sized fuel k v st :
  Sized st → Sized (ThreadSafeHashTable.__setitem__ hash fuel k v st).1.
Proof.
  revert k v st. induction fuel as [|fuel IH]; intros k v st HS; simpl;
    apply setitem_body_Sized; try done; intros s Hs;
    apply check_resize_Sized; auto.
Qed.

Lemma delitem_Sized k st :
  Sized st → Sized (Common.__delitem__ hash k st).1.
Proof.
  intros [Hk Hb]. unfold Common.__delitem__, bind at 1.
  pose proof (hash_state k st) as Hh.
  destruct (Common._hash hash k st) as [s [h|e]]; simpl in Hh; subst s;
    [|by split].
  unfold bind at 1. pose proof (bucket_at_state h st) as Hs.
  destruct (Common.bucket_at h st) as [s [[i b]|e]] eqn:Hba; simpl in Hs;
    subst s; [|by split].
  apply bucket_at_lookup in Hba.
  pose proof (proj1 (Forall_lookup _ _) Hb i b Hba) as Hsb.
  destruct (find b k) as [[ref n]|] eqn:Hf; [|by split].
  unfold bind at 1, Common.set_bucket, bind at 1, get_self, put_self.
  unfold bind at 1, get_self. simpl.
  destruct (remove_walk_cases (nodes (_keys_list st)) k) as [Hr|[Hr Hl]].
  - rewrite Hr. split; simpl.
    + done.
    + apply Forall_insert; [done|]. unfold dll_sized in *. simpl.
      apply find_from_Some in Hf as (j & -> & Hj & _).
      rewrite length_delete by eauto.
      apply lookup_lt_Some in Hj. simpl. lia.
  - destruct (Common.remove_walk (nodes (_keys_list st)) k) as [l found].
    simpl in *. subst found. split; simpl.
    + unfold dll_sized in *. simpl. lia.
    + apply Forall_insert; [done|]. unfold dll_sized in *. simpl.
      apply find_from_Some in Hf as (j & -> & Hj & _).
      rewrite length_delete by eauto.
      apply lookup_lt_Some in Hj. simpl. lia.
Qed.

Lemma call_Sized fuel o st :
  Sized st → Sized (ThreadSafeHashTable.call hash fuel o st).1.
Proof.
  intros HS. unfold ThreadSafeHashTable.call.
  destruct o as [k v|k|k d|k|k| |]; simpl; unfold bind.
  - pose proof (setitem_Sized fuel k v st HS) as H1.
    by destruct (ThreadSafeHashTable.__setitem__ hash fuel k v st) as [s [[]|e]].
  - unfold Common.__getitem__, bind at 1.
    pose proof (hash_state k st) as Hh.
    destruct (Common._hash hash k st) as [s [h|e]]; simpl in Hh; subst s;
      [|done].
    unfold bind. pose proof (bucket_at_state h st) as Hs.
    destruct (Common.bucket_at h st) as [s [[i b]|e]]; simpl in Hs; subst s;
      [|done].
    by destruct (find b k) as [[ref n]|].
  - unfold Common.get, Common.__getitem__, bind at 1.
    pose proof (hash_state k st) as Hh.
    destruct (Common._hash hash k st) as [s [h|e]]; simpl in Hh; subst s;
      [|by destruct e].
    unfold bind. pose proof (bucket_at_state h st) as Hs.
    destruct (Common.bucket_at h st) as [s [[i b]|e]]; simpl in Hs; subst s;
      [|by destruct e].
    by destruct (find b k) as [[ref n]|].
  - pose proof (delitem_Sized k st HS) as H1.
    by destruct (Common.__delitem__ hash k st) as [s [[]|e]].
  - unfold Common.__contains__, bind at 1.
    pose proof (hash_state k st) as Hh.
    destruct (Common._hash hash k st) as [s [h|e]]; simpl in Hh; subst s;
      [|done].
    unfold bind. pose proof (bucket_at_state h st) as Hs.
    by destruct (Common.bucket_at h st) as [s [[i b]|e]]; simpl in Hs; subst s.
  - done.
  - done.
Qed.

Lemma reachable_Sized st : reachable st → Sized st.
Proof.
  induction 1 as [c lf st Hi|st fuel o st' r _ IH Hc _|st st' r _ IH Hc].
  - revert Hi. unfold ThreadSafeHashTable.__init__.
    destruct (c <=? 0); [done|]. destruct (negb _); [done|].
    intros [= <-]. apply fresh_Sized.
  - pose proof (call_Sized fuel o st IH) as HS. by rewrite Hc in HS.
  - injection Hc as <- _. apply fresh_Sized.
Qed.

Lemma elem_of_keys_lookup st st' k :
  lookup_node st k = lookup_node st' k →
  (k ∈ key <$> kl st ↔ k ∈ key <$> kl st').
Proof.
  clear hash.
  intros Hl. pose proof (lookup_node_None st k) as H1.
  pose proof (lookup_node_None st' k) as H2. rewrite Hl in H1.
  destruct (decide (k ∈ key <$> kl st)), (decide (k ∈ key <$> kl st')); tauto.
Qed.

(** *** Capacity and threshold along the calls *)

Lemma call_growth fuel o st st' r :
  Inv st → ThreadSafeHashTable.call hash fuel o st = (st', r) →
  r ≠ Raise OutOfFuel →
  _load_factor st' = _load_factor st
  ∧ ∃ j : nat, _capacity st' = _capacity st * 2 ^ Z.of_nat j.
Proof.
  intros HI Hrun Hne.
  assert ((∃ k v, o = OpSet k v) ∨ (∀ k v, o ≠ OpSet k v))
    as [(k & v & ->)|Hns]
    by (destruct o; eauto; right; intros ? ? ?; done).
  - unfold ThreadSafeHashTable.call in Hrun. simpl in Hrun.
    unfold bind in Hrun.
    remember (ThreadSafeHashTable.__setitem__ hash fuel k v st) as p eqn:Hs.
    destruct p as [s r0]. symmetry in Hs.
    destruct (setitem_result fuel st k v s r0 HI Hs) as [-> Hp].
    { intros ->. by injection Hrun as _ <-. }
    injection Hrun as <- _. destruct Hp as [_ _ Hlf Hold Hnew].
    split; [done|].
    destruct (decide (k ∈ key <$> kl st)) as [Hin|Hin].
    + exists 0%nat. rewrite (Hold Hin). simpl. lia.
    + destruct (Hnew Hin) as (j & Hj & _). eauto.
  - destruct (call_model fuel o st HI) as (s & Hc & _ & _ & Hlf & Hcap).
    { intros k v ->. by destruct (Hns k v). }
    rewrite Hrun in Hc. injection Hc as <- _. split; [done|].
    exists 0%nat. rewrite (Hcap Hns). simpl. lia.
Qed.

Lemma run_growth fuel ops st st' rs :
  Inv st → run (ThreadSafeHashTable.call hash fuel) ops st = (st', rs) →
  Forall (λ r, r ≠ Raise OutOfFuel) rs →
  _load_factor st' = _load_factor st
  ∧ ∃ j : nat, _capacity st' = _capacity st * 2 ^ Z.of_nat j.
Proof.
  revert st rs. induction ops as [|o ops IH]; intros st rs HI; simpl.
  - intros [= <- _] _. split; [done|]. exists 0%nat. simpl. lia.
  - destruct (ThreadSafeHashTable.call hash fuel o st) as [s1 r] eqn:Hc.
    destruct (run (ThreadSafeHashTable.call hash fuel) ops s1)
      as [s2 rs'] eqn:Hrun.
    intros [= <- <-] [Hne Hrs]%Forall_cons.
    destruct (call_growth fuel o st s1 r HI Hc Hne) as (Hlf1 & j1 & Hj1).
    destruct (call_result fuel o st s1 r HI Hc Hne) as (HI1 & _).
    destruct (IH s1 rs' HI1 Hrun Hrs) as (Hlf2 & j2 & Hj2).
    split; [congruence|]. exists (j1 + j2)%nat.
    rewrite Hj2, Hj1, pow2_add. lia.
Qed.

Lemma reachable_threshold st :
  reachable st → (0 < _load_factor st ∧ _load_factor st <= 1)%Q.
Proof.
  induction 1 as [c lf st Hi|st fuel o st' r Hr IH Hc Hne|st st' r Hr IH Hc].
  - revert Hi. unfold ThreadSafeHashTable.__init__.
    destruct (c <=? 0); [done|].
    destruct (Qlt_bool 0 lf) eqn:Hlt; simpl; [|done].
    destruct (Qle_bool lf 1) eqn:Hle; simpl; [|done].
    intros [= <-]. simpl. split; [|by apply Qle_bool_iff].
    apply Qnot_le_lt. intros Hc'%Qle_bool_iff.
    unfold Qlt_bool in Hlt. by rewrite Hc' in Hlt.
  - apply reachable_Inv in Hr.
    destruct (call_growth fuel o st st' r Hr Hc Hne) as [-> _]. done.
  - by injection Hc as <- _.
Qed.

(** *** The chains partition the entries *)

Lemma indicator_sum (a c : nat) :
  (a < c)%nat →
  sum_list_with (λ i, if decide (a = i) then 1%nat else 0%nat) (seq 0 c)
  = 1%nat.
Proof.
  induction c as [|c IH]; [lia|]. intros Hlt.
  rewrite seq_S, sum_list_with_app. simpl.
  destruct (decide (a = c)) as [->|Hne].
  - rewrite Nat.add_0_r. clear IH Hlt.
    assert (Hz : ∀ l : list nat, c ∉ l →
              sum_list_with (λ i, if decide (c = i) then 1%nat else 0%nat) l
              = 0%nat).
    { induction l as [|x l IHl]; [done|]. rewrite not_elem_of_cons.
      intros [Hx Hl]. simpl. rewrite decide_False by done. auto. }
    rewrite Hz; [done|]. rewrite elem_of_seq. lia.
  - rewrite IH by lia. lia.
Qed.

Lemma count_by_slot {A} (f : A → nat) (l : list A) (c : nat) :
  Forall (λ x, (f x < c)%nat) l →
  sum_list_with (λ i, length (filter (λ x, f x = i) l)) (seq 0 c) = length l.
Proof.
  induction 1 as [|x l Hx Hl IH]; simpl.
  - induction (seq 0 c) as [|i rest IHs]; [done|]. simpl. apply IHs.
  - assert (Hsplit : ∀ idx : list nat,
      sum_list_with (λ i, length (filter (λ y, f y = i) (x :: l))) idx
      = (sum_list_with (λ i, if decide (f x = i) then 1 else 0) idx
         + sum_list_with (λ i, length (filter (λ y, f y = i) l)) idx)%nat).
    { induction idx as [|i rest IHs]; [done|]. simpl.
      destruct (decide (f x = i)) as [Heq|Hne].
      - rewrite filter_cons_True by done. simpl. lia.
      - rewrite filter_cons_False by done. lia. }
    rewrite Hsplit, IH, indicator_sum by done. done.
Qed.

Lemma sum_list_with_fmap_eq {A B} (f : A → nat) (g : B → nat) l l' :
  f <$> l = g <$> l' → sum_list_with f l = sum_list_with g l'.
Proof.
  revert l'. induction l as [|x l IH]; intros [|y l']; csimpl; try done.
  intros [= Hxy Hl]. rewrite Hxy. f_equal. by apply IH.
Qed.

Lemma chains_total st :
  Inv st →
  sum_list_with (λ b, length (nodes b)) (_buckets st) = length (kl st).
Proof.
  intros HI.
  rewrite <-(count_by_slot (λ n, slot (_capacity st) (key n)) (kl st)
               (Z.to_nat (_capacity st))).
  - pose proof (inv_len _ HI) as Hlen. pose proof (inv_chain _ HI) as Hch.
    revert Hlen Hch. generalize (Z.to_nat (_capacity st)) as c.
    intros c Hlen Hch.
    assert (Heq : (λ b, length (nodes b)) <$> _buckets st
                  = (λ i, length (chain (_capacity st) i (kl st))) <$> seq 0 c).
    { apply list_eq. intros i. rewrite !list_lookup_fmap.
      destruct (_buckets st !! i) as [b|] eqn:Hb; simpl.
      - rewrite lookup_seq_lt by (apply lookup_lt_Some in Hb; lia).
        simpl. by rewrite (Hch _ _ Hb).
      - apply lookup_ge_None in Hb. rewrite (proj2 (lookup_ge_None _ _)); [done|].
        rewrite length_seq. lia. }
    by apply sum_list_with_fmap_eq.
  - apply Forall_forall. intros n _. unfold slot.
    pose proof (inv_cap _ HI).
    pose proof (Z.mod_pos_bound (hash (key n)) (_capacity st)). lia.
Qed.
End Table.

(** * The claims *)

Section Claims.
Context {K V : Type} `{EqDecision K}.
Variable hash : K → Z.
Implicit Types (st : table K V) (k : K) (v : V).

Local Abbreviation reachable := (reachable hash).

(** C3: in every table a client can get, [d[k] = v] followed by [d[k]]
    returns [v]. *)
Theorem set_then_get st k v fuel :
  reachable st → (fuel_of st <= fuel)%nat →
  ∃ st', ThreadSafeHashTable.__setitem__ hash fuel k v st = (st', Return tt)
    ∧ ThreadSafeHashTable.__getitem__ hash k st' = (st', Return v).
Proof.
  intros HI%reachable_Inv Hfuel.
  destruct (setitem_run hash fuel st k v HI (fuel_of_enough hash fuel st HI Hfuel))
    as (st' & Hrun & [HI' Hkl _ _ _]).
  exists st'. split; [done|].
  unfold ThreadSafeHashTable.__getitem__. rewrite (getitem_run hash) by done.
  unfold lookup_node. by rewrite Hkl, put_find.
Qed.

(** C4: [del d[k]] on a key that is present returns, after which [k in d]
    is false and [len(d)] is one less; on a key that is absent it raises
    [KeyError] and leaves the table as it was. *)
Theorem delete_present_or_absent st k :
  reachable st →
  ∃ present n,
    ThreadSafeHashTable.__contains__ hash k st = (st, Return present)
    ∧ ThreadSafeHashTable.__len__ st = (st, Return n)
    ∧ if present
      then ∃ st',
        ThreadSafeHashTable.__delitem__ hash k st = (st', Return tt)
        ∧ ThreadSafeHashTable.__contains__ hash k st' = (st', Return false)
        ∧ ThreadSafeHashTable.__len__ st' = (st', Return (n - 1))
      else
        ThreadSafeHashTable.__delitem__ hash k st = (st, Raise (KeyError k)).
Proof.
  intros HI%reachable_Inv.
  exists (bool_decide (k ∈ key <$> kl st)), (_size st).
  unfold ThreadSafeHashTable.__contains__, ThreadSafeHashTable.__delitem__.
  rewrite (contains_run hash) by done. split; [done|]. split; [done|].
  case_bool_decide as Hin.
  - destruct (delitem_present hash st k HI Hin)
      as (st' & Hrun & HI' & Hkl & Hsz & _).
    exists st'. split; [done|]. rewrite (contains_run hash) by done.
    split.
    + rewrite bool_decide_false; [done|]. rewrite Hkl.
      rewrite remove_walk_keys by exact (inv_nodup _ _ HI).
      intros [Hne _]%list_elem_of_filter. done.
    + unfold ThreadSafeHashTable.__len__, Common.__len__, bind, get_self, ret.
      by rewrite Hsz.
  - by apply delitem_absent.
Qed.

(** C5: after any history of calls on a new table, [keys()] is the
    sequence of the keys inserted and not deleted since, in the order of
    the insertions that brought them in, and as long as [len()]. *)
Theorem keys_enumerate_live c lf st0 ops fuel st rs :
  ThreadSafeHashTable.__init__ c lf = Return st0 →
  (fuel_for lf (length ops) <= fuel)%nat →
  run (ThreadSafeHashTable.call hash fuel) ops st0 = (st, rs) →
  ThreadSafeHashTable.keys st = (st, Return (live_keys ops))
  ∧ ThreadSafeHashTable.__len__ st
    = (st, Return (Z.of_nat (length (live_keys ops)))).
Proof.
  intros Hi Hfuel Hrun.
  destruct (run_from_init hash c lf st0 ops fuel st rs Hi Hfuel Hrun)
    as (HI & _ & Hkeys).
  unfold ThreadSafeHashTable.keys, ThreadSafeHashTable.__iter__,
    ThreadSafeHashTable.__len__, Common.__iter__, Common.__len__,
    bind, get_self, ret.
  fold (kl st). rewrite Hkeys. split; [done|].
  by rewrite (inv_size _ _ HI), <-Hkeys, length_fmap.
Qed.

(** C8: after any history of calls on a new table, for a key that was
    never inserted or has been deleted since, [get(k, default)] returns
    [default] (it raises nothing) and [k in d] is false. *)
Theorem absent_key_default c lf st0 ops fuel st rs k default :
  ThreadSafeHashTable.__init__ c lf = Return st0 →
  (fuel_for lf (length ops) <= fuel)%nat →
  run (ThreadSafeHashTable.call hash fuel) ops st0 = (st, rs) →
  k ∉ live_keys ops →
  ThreadSafeHashTable.get hash k default st = (st, Return default)
  ∧ ThreadSafeHashTable.__contains__ hash k st = (st, Return false).
Proof.
  intros Hi Hfuel Hrun Hk.
  destruct (run_from_init hash c lf st0 ops fuel st rs Hi Hfuel Hrun)
    as (HI & _ & Hkeys).
  rewrite <-Hkeys in Hk.
  unfold ThreadSafeHashTable.get, ThreadSafeHashTable.__contains__.
  rewrite (get_run hash), (contains_run hash) by done.
  rewrite (proj2 (lookup_node_None st k) Hk).
  by rewrite bool_decide_false.
Qed.

(** C7: [ThreadSafeHashTable(initial_capacity, load_factor)] raises
    [ValueError] exactly when [initial_capacity] is not positive or
    [load_factor] is outside (0, 1]; otherwise it returns an empty table
    with that capacity and that threshold.  The defaults are 8 and 0.75. *)
Theorem construction c lf :
  match ThreadSafeHashTable.__init__ (K := K) (V := V) c lf with
  | Raise e =>
      (c <= 0 ∨ ¬ (0 < lf ∧ lf <= 1)%Q) ∧ ∃ msg, e = ValueError msg
  | Return st =>
      (0 < c ∧ (0 < lf ∧ lf <= 1)%Q)
      ∧ _capacity st = c ∧ _load_factor st = lf
      ∧ Z.of_nat (length (_buckets st)) = c
      ∧ ThreadSafeHashTable.__len__ st = (st, Return 0)
      ∧ ThreadSafeHashTable.keys st = (st, Return [])
      ∧ ∀ k, ThreadSafeHashTable.__contains__ hash k st = (st, Return false)
  end
  ∧ ThreadSafeHashTable.construct (K := K) (V := V) None None
    = ThreadSafeHashTable.__init__ 8 (3 # 4)%Q.
Proof.
  split; [|done].
  destruct (ThreadSafeHashTable.__init__ c lf) as [st|e] eqn:Hi.
  - pose proof (init_Inv hash c lf st Hi) as (HI & Hkl & Hc & Hlf).
    revert Hi. unfold ThreadSafeHashTable.__init__.
    destruct (c <=? 0) eqn:Hc0; [done|]. apply Z.leb_gt in Hc0.
    destruct (Qlt_bool 0 lf) eqn:Hlt; simpl; [|done].
    destruct (Qle_bool lf 1) eqn:Hle; simpl; [|done].
    intros _. split.
    { split; [done|]. split.
      - apply Qnot_le_lt. intros Hc'%Qle_bool_iff.
        unfold Qlt_bool in Hlt. by rewrite Hc' in Hlt.
      - by apply Qle_bool_iff. }
    split; [done|]. split; [done|].
    split; [rewrite (inv_len _ _ HI); lia|].
    unfold ThreadSafeHashTable.__len__, ThreadSafeHashTable.keys,
      ThreadSafeHashTable.__iter__, ThreadSafeHashTable.__contains__.
    split; [unfold Common.__len__, bind, get_self, ret;
            by rewrite (inv_size _ _ HI), Hkl|].
    split; [unfold Common.__iter__, bind, get_self, ret;
            fold (kl st); by rewrite Hkl|].
    intros k. rewrite (contains_run hash) by done. rewrite Hkl.
    rewrite bool_decide_false; [done|]. apply not_elem_of_nil.
  - revert Hi. unfold ThreadSafeHashTable.__init__.
    destruct (c <=? 0) eqn:Hc0.
    { apply Z.leb_le in Hc0. intros [= <-]. eauto. }
    destruct (Qlt_bool 0 lf) eqn:Hlt; simpl.
    + destruct (Qle_bool lf 1) eqn:Hle; simpl; [done|].
      intros [= <-]. split; [|eauto]. right. intros [_ Hc'%Qle_bool_iff].
      by rewrite Hc' in Hle.
    + intros [= <-]. split; [|eauto]. right. intros [Hc' _].
      unfold Qlt_bool in Hlt. apply negb_false_iff, Qle_bool_iff in Hlt.
      by apply Qle_not_lt in Hlt.
Qed.

(** C1: inserting any sequence of distinct keys into a new table, across
    however many resizes, loses and duplicates nothing: [len()] is the
    number of keys, every key maps to its value, and [keys()] and
    [items()] list them in the order of insertion.  The table ends at the
    initial capacity doubled some number of times, within the load
    threshold. *)
Theorem resize_transparent c lf st0 kvs fuel :
  ThreadSafeHashTable.__init__ c lf = Return st0 →
  NoDup kvs.*1 →
  (fuel_for lf (length kvs) <= fuel)%nat →
  ∃ st, run (ThreadSafeHashTable.call hash fuel) (sets kvs) st0
        = (st, (λ _, Return VNone) <$> kvs)
    ∧ ThreadSafeHashTable.__len__ st
      = (st, Return (Z.of_nat (length kvs)))
    ∧ (∀ k v, (k, v) ∈ kvs →
         ThreadSafeHashTable.__getitem__ hash k st = (st, Return v))
    ∧ ThreadSafeHashTable.keys st = (st, Return kvs.*1)
    ∧ ThreadSafeHashTable.items st = (st, Return kvs)
    ∧ (∃ j : nat, _capacity st = c * 2 ^ Z.of_nat j)
    ∧ (kvs ≠ [] → ¬ over lf (Z.of_nat (length kvs)) (_capacity st)).
Proof.
  intros (HI0 & Hkl0 & Hc0 & Hlf0)%(init_Inv hash) Hnd Hfuel.
  destruct (inserts_run hash fuel kvs st0 HI0)
    as (st & Hrun & HI & Hkl & Hlf & Hcap & Hov).
  { by rewrite Hkl0. }
  { rewrite Hkl0, Hlf0. simpl. by apply fuel_for_covers. }
  rewrite Hkl0 in Hkl. simpl in Hkl. rewrite Hc0, Hlf0 in *.
  assert (Hlen : length (kl st) = length kvs)
    by (by rewrite Hkl; unfold entries; rewrite length_fmap).
  exists st. split; [done|].
  unfold ThreadSafeHashTable.__len__, ThreadSafeHashTable.keys,
    ThreadSafeHashTable.__iter__, ThreadSafeHashTable.items,
    ThreadSafeHashTable.__getitem__,
    Common.__len__, Common.__iter__, bind, get_self, ret.
  fold (kl st). split; [by rewrite (inv_size _ _ HI), Hlen|].
  split.
  { intros k v Hin. rewrite (getitem_run hash) by done.
    rewrite (lookup_node_elem st (mkNode k v)); [done|exact (inv_nodup _ _ HI)|].
    rewrite Hkl. apply list_elem_of_fmap. by exists (k, v). }
  split.
  { rewrite Hkl. unfold entries. rewrite <-list_fmap_compose. done. }
  split.
  { rewrite Hkl. unfold entries. rewrite <-list_fmap_compose.
    do 2 f_equal. rewrite <-(list_fmap_id kvs) at 2.
    apply list_fmap_ext. by intros _ [k v] _. }
  split; [done|]. by rewrite <-Hlen.
Qed.

(** C9: from the same valid constructor arguments, a client making the
    same calls ([d[k] = v], [d[k]], [get], [del d[k]], [k in d], [len],
    iteration) on a [ThreadSafeHashTable] and on a
    [NonThreadSafeHashTable] gets the same value or exception at every
    call, and ends with the same table; with enough fuel no call runs
    out of it. *)
Theorem classes_agree c lf st0 ops fuel :
  ThreadSafeHashTable.__init__ c lf = Return st0 →
  run (ThreadSafeHashTable.call hash fuel) ops st0
  = run (NonThreadSafeHashTable.call hash fuel) ops
      (NonThreadSafeHashTable.__init__ c lf)
  ∧ ((fuel_for lf (length ops) <= fuel)%nat →
     Forall (λ r, r ≠ Raise OutOfFuel)
       (run (ThreadSafeHashTable.call hash fuel) ops st0).2).
Proof.
  intros Hi. split.
  - rewrite run_same. f_equal. revert Hi.
    unfold ThreadSafeHashTable.__init__, NonThreadSafeHashTable.__init__.
    destruct (c <=? 0); [done|].
    destruct (negb _); [done|]. by intros [= <-].
  - intros Hfuel.
    destruct (run (ThreadSafeHashTable.call hash fuel) ops st0)
      as [st rs] eqn:Hrun.
    destruct (run_from_init hash c lf st0 ops fuel st rs Hi Hfuel Hrun)
      as (_ & -> & _).
    simpl. clear. generalize (@nil (Node K V)).
    induction ops as [|o ops IH]; intros ns; simpl; [constructor|].
    destruct (model_step o ns) as [ns1 r] eqn:Hm.
    specialize (IH ns1). destruct (model_run ops ns1) as [ns2 rs].
    simpl in *. constructor; [|done].
    destruct o; simpl in Hm; try (by injection Hm as _ <-).
    + injection Hm as _ <-. by destruct (snd <$> _).
    + destruct (decide _); by injection Hm as _ <-.
Qed.

(** C6, as the code has it: the insert of a new key leaves the capacity
    as it is when the load with the new entry is within the threshold,
    and otherwise doubles it the least number of times that brings the
    load within the threshold, which is once when the load at twice the
    capacity is within it, and so whenever capacity times threshold is at
    least 1.  [del d[k]] never changes the capacity, and [_resize] on a
    table within the threshold leaves it as it is. *)
Theorem capacity_growth st k v fuel :
  reachable st → (fuel_of st <= fuel)%nat →
  ThreadSafeHashTable.__contains__ hash k st = (st, Return false) →
  let lf := _load_factor st in
  let n := _size st + 1 in
  (∃ st',
     ThreadSafeHashTable.__setitem__ hash fuel k v st = (st', Return tt)
     ∧ grown lf n (_capacity st) (_capacity st')
     ∧ (¬ over lf n (_capacity st) → _capacity st' = _capacity st)
     ∧ (over lf n (_capacity st) → ¬ over lf n (_capacity st * 2) →
        _capacity st' = _capacity st * 2)
     ∧ (QDen lf <= Qnum lf * _capacity st →
        _capacity st' = _capacity st ∨ _capacity st' = _capacity st * 2))
  ∧ (∀ k' st' r, ThreadSafeHashTable.__delitem__ hash k' st = (st', r) →
       _capacity st' = _capacity st)
  ∧ (¬ over lf (_size st) (_capacity st) →
     ∀ new_capacity,
       ThreadSafeHashTable._resize hash fuel new_capacity st
       = (st, Return tt)).
Proof.
  intros Hreach Hfuel Hc lf n.
  pose proof (reachable_Inv hash st Hreach) as HI.
  pose proof (reachable_within hash st Hreach) as Hw.
  unfold ThreadSafeHashTable.__contains__ in Hc.
  rewrite (contains_run hash) in Hc by done.
  injection Hc as Hc. apply bool_decide_eq_false in Hc.
  split; [|split].
  - destruct (setitem_run hash fuel st k v HI
                (fuel_of_enough hash fuel st HI Hfuel))
      as (st' & Hrun & [_ _ _ _ Hg]).
    specialize (Hg Hc). rewrite <-(inv_size _ _ HI) in Hg.
    exists st'. split; [done|]. split; [done|].
    destruct Hg as (j & Hcj & Hnov & Hov).
    assert (Hzero : ¬ over lf n (_capacity st) → _capacity st' = _capacity st).
    { intros Hno. destruct j as [|j]; [simpl in Hcj; lia|].
      destruct Hno. specialize (Hov 0%nat ltac:(lia)).
      simpl in Hov. by rewrite Z.mul_1_r in Hov. }
    assert (Hone : over lf n (_capacity st) → ¬ over lf n (_capacity st * 2) →
                   _capacity st' = _capacity st * 2).
    { intros Ho Hno. destruct j as [|[|j]].
      - simpl in Hcj. rewrite Z.mul_1_r in Hcj. by rewrite Hcj in Hnov.
      - done.
      - destruct Hno. apply (Hov 1%nat). lia. }
    split; [done|]. split; [done|]. intros Hbig.
    destruct (decide (over lf n (_capacity st))) as [Ho|Hno]; [|auto].
    right. apply Hone; [done|]. unfold within in Hw.
    subst lf n. unfold over in *. lia.
  - intros k' st' r. unfold ThreadSafeHashTable.__delitem__.
    destruct (decide (k' ∈ key <$> kl st)) as [Hin|Hin].
    + destruct (delitem_present hash st k' HI Hin)
        as (s & -> & _ & _ & _ & Hcap & _). by intros [= <- _].
    + rewrite (delitem_absent hash) by done. by intros [= <- _].
  - intros Hno new_capacity. unfold ThreadSafeHashTable._resize.
    rewrite (resize_with_run hash) by done. by rewrite bool_decide_false.
Qed.

(** C10: in every table a client can get, [d[k] = v1; d[k] = v2] leaves
    what [d[k] = v2] alone leaves, as far as [len], every lookup,
    [keys()], [values()] and [items()] can tell; and when [k] is already
    present, [d[k] = v2] changes neither [len()] nor [keys()], and
    [items()] has the new value in the place of the old one. *)
Theorem set_twice st k v1 v2 fuel :
  reachable st → (fuel_of st <= fuel)%nat →
  ∃ s1 s12 s2,
    ThreadSafeHashTable.__setitem__ hash fuel k v1 st = (s1, Return tt)
    ∧ ThreadSafeHashTable.__setitem__ hash fuel k v2 s1 = (s12, Return tt)
    ∧ ThreadSafeHashTable.__setitem__ hash fuel k v2 st = (s2, Return tt)
    ∧ (ThreadSafeHashTable.__len__ s12).2 = (ThreadSafeHashTable.__len__ s2).2
    ∧ (∀ k', (ThreadSafeHashTable.__getitem__ hash k' s12).2
             = (ThreadSafeHashTable.__getitem__ hash k' s2).2)
    ∧ (ThreadSafeHashTable.keys s12).2 = (ThreadSafeHashTable.keys s2).2
    ∧ (ThreadSafeHashTable.values s12).2 = (ThreadSafeHashTable.values s2).2
    ∧ (ThreadSafeHashTable.items s12).2 = (ThreadSafeHashTable.items s2).2
    ∧ (ThreadSafeHashTable.__contains__ hash k st = (st, Return true) →
       (ThreadSafeHashTable.__len__ s2).2 = (ThreadSafeHashTable.__len__ st).2
       ∧ (ThreadSafeHashTable.keys s2).2 = (ThreadSafeHashTable.keys st).2
       ∧ ∃ old, (ThreadSafeHashTable.items st).2 = Return old
           ∧ (ThreadSafeHashTable.items s2).2
             = Return ((λ p, if decide (p.1 = k) then (p.1, v2) else p)
                         <$> old)).
Proof.
  intros HI%reachable_Inv Hfuel.
  pose proof (fuel_of_enough hash fuel st HI Hfuel) as Hen.
  destruct (setitem_run hash fuel st k v1 HI Hen)
    as (s1 & Hrun1 & [HI1 Hkl1 _ _ _]).
  destruct (setitem_update hash fuel s1 k v2 HI1) as (s12 & Hrun12 & HI12 & Hkl12).
  { rewrite Hkl1. apply put_keys. }
  destruct (setitem_run hash fuel st k v2 HI Hen)
    as (s2 & Hrun2 & [HI2 Hkl2 _ _ _]).
  exists s1, s12, s2. do 3 (split; [done|]).
  assert (Hsame : kl s12 = kl s2).
  { rewrite Hkl12, Hkl2, <-(put_twice (kl st) k v1 v2), <-Hkl1.
    unfold put. rewrite decide_True; [done|]. rewrite Hkl1. apply put_keys. }
  destruct (observe_kl hash s12 s2 HI12 HI2 Hsame) as (? & ? & ? & ? & ?).
  do 5 (split; [done|]).
  unfold ThreadSafeHashTable.__contains__.
  rewrite (contains_run hash) by done. intros [= Hin].
  apply bool_decide_eq_true in Hin.
  unfold put in Hkl2. rewrite decide_True in Hkl2 by done.
  unfold ThreadSafeHashTable.__len__, ThreadSafeHashTable.keys,
    ThreadSafeHashTable.__iter__, ThreadSafeHashTable.items,
    Common.__len__, Common.__iter__, bind, get_self, ret. simpl.
  fold (kl st) (kl s2).
  rewrite (inv_size _ _ HI), (inv_size _ _ HI2), Hkl2.
  rewrite update_walk_length, update_walk_keys.
  split; [done|]. split; [done|]. eexists. split; [done|].
  f_equal. rewrite update_walk_fmap by exact (inv_nodup _ _ HI).
  rewrite <-!list_fmap_compose. apply list_fmap_ext.
  intros _ [k' v'] _. simpl. by destruct (decide (k' = k)).
Qed.
End Claims.

(** * More properties of the tables a client can get *)

Section More.
Context {K V : Type} `{EqDecision K}.
Variable hash : K → Z.
Implicit Types (st : table K V) (k : K) (v : V).

Local Abbreviation reachable := (reachable hash).

(** A call on a table a client can get raises nothing but [KeyError], and
    that only for [d[k]] and [del d[k]] on a key that is not in the table,
    which they leave as it was. *)
Theorem only_KeyError st fuel o st' r :
  reachable st → (fuel_of st <= fuel)%nat →
  ThreadSafeHashTable.call hash fuel o st = (st', r) →
  (∃ x, r = Return x)
  ∨ (∃ k, r = Raise (KeyError k)
       ∧ (o = OpGetItem k ∨ o = OpDel k)
       ∧ ThreadSafeHashTable.__contains__ hash k st = (st, Return false)
       ∧ st' = st).
Proof.
  intros HI%reachable_Inv Hfuel.
  unfold ThreadSafeHashTable.call, ThreadSafeHashTable.__contains__.
  destruct o as [k v|k|k d|k|k| |]; simpl; unfold bind.
  - destruct (setitem_run hash fuel st k v HI
                (fuel_of_enough hash fuel st HI Hfuel)) as (s & -> & _).
    intros [= _ <-]. eauto.
  - rewrite (getitem_run hash) by done.
    destruct (lookup_node st k) as [n|] eqn:Hl.
    + intros [= _ <-]. eauto.
    + intros [= <- <-]. right. exists k. split; [done|]. split; [by left|].
      split; [|done]. rewrite (contains_run hash) by done.
      apply lookup_node_None in Hl. by rewrite bool_decide_false.
  - rewrite (get_run hash) by done. intros [= _ <-]. eauto.
  - destruct (decide (k ∈ key <$> kl st)) as [Hin|Hin].
    + destruct (delitem_present hash st k HI Hin) as (s & -> & _).
      intros [= _ <-]. eauto.
    + rewrite (delitem_absent hash) by done. intros [= <- <-].
      right. exists k. split; [done|]. split; [by right|].
      split; [|done]. rewrite (contains_run hash) by done.
      by rewrite bool_decide_false.
  - rewrite (contains_run hash) by done. intros [= _ <-]. eauto.
  - intros [= _ <-]. eauto.
  - intros [= _ <-]. eauto.
Qed.

(** The global order list and the chains never drift apart: [items()] is
    [keys()] zipped with [values()], no key occurs twice, and [d[k]] is [v]
    exactly when [(k, v)] is among the items. *)
Theorem items_agree_with_lookups st :
  reachable st →
  ∃ ks vs,
    ThreadSafeHashTable.keys st = (st, Return ks)
    ∧ ThreadSafeHashTable.values st = (st, Return vs)
    ∧ ThreadSafeHashTable.items st = (st, Return (zip ks vs))
    ∧ length ks = length vs
    ∧ NoDup ks
    ∧ ∀ k v, (k, v) ∈ zip ks vs
             ↔ ThreadSafeHashTable.__getitem__ hash k st = (st, Return v).
Proof.
  intros HI%reachable_Inv.
  exists (key <$> kl st), (value <$> kl st).
  split; [done|]. split; [done|]. split.
  { unfold ThreadSafeHashTable.items, bind, get_self, ret. fold (kl st).
    do 2 f_equal. induction (kl st) as [|n ns IH]; csimpl; [done|].
    by rewrite IH. }
  split; [by rewrite !length_fmap|]. split; [apply HI|].
  intros k v. unfold ThreadSafeHashTable.__getitem__.
  rewrite (getitem_run hash) by done.
  assert (Hz : zip (key <$> kl st) (value <$> kl st)
               = (λ n, (key n, value n)) <$> kl st).
  { induction (kl st) as [|n ns IH]; csimpl; [done|]. by rewrite IH. }
  rewrite Hz, list_elem_of_fmap. split.
  - intros (n & [= -> ->] & Hn).
    by rewrite (lookup_node_elem st n (inv_nodup _ _ HI) Hn).
  - destruct (lookup_node st k) as [n|] eqn:Hl; [|done].
    intros [= <-]. apply lookup_node_Some in Hl as [Hn <-]. eauto.
Qed.

(** [get(k, default)] on a key that is present returns what [d[k]] returns,
    and leaves the table as it is. *)
Theorem get_present st k default :
  reachable st →
  ThreadSafeHashTable.__contains__ hash k st = (st, Return true) →
  ∃ v, ThreadSafeHashTable.__getitem__ hash k st = (st, Return v)
    ∧ ThreadSafeHashTable.get hash k default st = (st, Return v).
Proof.
  intros HI%reachable_Inv.
  unfold ThreadSafeHashTable.__contains__, ThreadSafeHashTable.__getitem__,
    ThreadSafeHashTable.get.
  rewrite (contains_run hash), (getitem_run hash), (get_run hash) by done.
  intros [= Hin]. apply bool_decide_eq_true in Hin.
  destruct (lookup_node st k) as [n|] eqn:Hl; [eauto|].
  by apply lookup_node_None in Hl.
Qed.

(** [d[k] = v] disturbs no other key, resize or not: every other key keeps
    its value and its presence, and the keys keep their order, with [k]
    added at the end when it is new. *)
Theorem set_keeps_others st k v fuel :
  reachable st → (fuel_of st <= fuel)%nat →
  ∃ st' ks present,
    ThreadSafeHashTable.__setitem__ hash fuel k v st = (st', Return tt)
    ∧ ThreadSafeHashTable.keys st = (st, Return ks)
    ∧ ThreadSafeHashTable.__contains__ hash k st = (st, Return present)
    ∧ ThreadSafeHashTable.keys st'
      = (st', Return (if present then ks else ks ++ [k]))
    ∧ ∀ k', k' ≠ k →
        (ThreadSafeHashTable.__getitem__ hash k' st').2
        = (ThreadSafeHashTable.__getitem__ hash k' st).2
        ∧ (ThreadSafeHashTable.__contains__ hash k' st').2
          = (ThreadSafeHashTable.__contains__ hash k' st).2.
Proof.
  intros HI%reachable_Inv Hfuel.
  destruct (setitem_run hash fuel st k v HI
              (fuel_of_enough hash fuel st HI Hfuel))
    as (st' & Hrun & [HI' Hkl _ _ _]).
  exists st', (key <$> kl st), (bool_decide (k ∈ key <$> kl st)).
  split; [done|]. split; [done|].
  unfold ThreadSafeHashTable.__contains__, ThreadSafeHashTable.__getitem__.
  rewrite (contains_run hash) by done. split; [done|]. split.
  - unfold ThreadSafeHashTable.keys, ThreadSafeHashTable.__iter__,
      Common.__iter__, bind, get_self, ret. fold (kl st').
    rewrite Hkl. unfold put. do 2 f_equal. case_decide as Hin.
    + rewrite bool_decide_true by done. apply update_walk_keys.
    + rewrite bool_decide_false by done. by rewrite fmap_app.
  - intros k' Hne. rewrite !(getitem_run hash), !(contains_run hash) by done.
    simpl. assert (Hl : lookup_node st' k' = lookup_node st k').
    { unfold lookup_node. rewrite Hkl. by apply put_find_ne. }
    rewrite Hl. split; [done|]. f_equal. apply bool_decide_ext.
    by apply elem_of_keys_lookup.
Qed.

(** [del d[k]] removes that entry and nothing else: [items()] afterwards is
    [items()] before without the entry of [k], in the same order, and every
    other key keeps its value. *)
Theorem delete_keeps_others st k :
  reachable st →
  ThreadSafeHashTable.__contains__ hash k st = (st, Return true) →
  ∃ st' kvs,
    ThreadSafeHashTable.__delitem__ hash k st = (st', Return tt)
    ∧ ThreadSafeHashTable.items st = (st, Return kvs)
    ∧ ThreadSafeHashTable.items st'
      = (st', Return (filter (λ p, p.1 ≠ k) kvs))
    ∧ ∀ k', k' ≠ k →
        (ThreadSafeHashTable.__getitem__ hash k' st').2
        = (ThreadSafeHashTable.__getitem__ hash k' st).2.
Proof.
  intros HI%reachable_Inv.
  unfold ThreadSafeHashTable.__contains__, ThreadSafeHashTable.__delitem__,
    ThreadSafeHashTable.__getitem__.
  rewrite (contains_run hash) by done. intros [= Hin].
  apply bool_decide_eq_true in Hin.
  destruct (delitem_present hash st k HI Hin) as (st' & Hrun & HI' & Hkl & _).
  rewrite remove_walk_filter in Hkl by apply (inv_nodup _ _ HI).
  exists st', ((λ n, (key n, value n)) <$> kl st).
  split; [done|]. split; [done|]. split.
  - unfold ThreadSafeHashTable.items, bind, get_self, ret. fold (kl st').
    rewrite Hkl. do 2 f_equal. clear.
    induction (kl st) as [|n ns IH]; [done|]. csimpl.
    destruct (decide (key n ≠ k)) as [Hne|Heq].
    + rewrite !filter_cons_True by done. csimpl. by rewrite IH.
    + by rewrite !filter_cons_False by done.
  - intros k' Hne. rewrite !(getitem_run hash) by done. simpl.
    unfold lookup_node. rewrite Hkl.
    pose proof (filter_find (λ k'', k'' ≠ k) (kl st) k' Hne) as Hff.
    cbv beta in Hff. by rewrite Hff.
Qed.

(** A key deleted and inserted again goes to the end of the order: after
    [del d[k]; d[k] = v] the keys are the other keys in their order followed
    by [k], [d[k]] is [v] and [len()] is what it was. *)
Theorem delete_then_set_last st k v fuel :
  reachable st → (fuel_of st <= fuel)%nat →
  ThreadSafeHashTable.__contains__ hash k st = (st, Return true) →
  ∃ st1 st2 ks,
    ThreadSafeHashTable.__delitem__ hash k st = (st1, Return tt)
    ∧ ThreadSafeHashTable.__setitem__ hash fuel k v st1 = (st2, Return tt)
    ∧ ThreadSafeHashTable.keys st = (st, Return ks)
    ∧ ThreadSafeHashTable.keys st2
      = (st2, Return (filter (λ k', k' ≠ k) ks ++ [k]))
    ∧ ThreadSafeHashTable.__getitem__ hash k st2 = (st2, Return v)
    ∧ (ThreadSafeHashTable.__len__ st2).2 = (ThreadSafeHashTable.__len__ st).2.
Proof.
  intros HI%reachable_Inv Hfuel.
  unfold ThreadSafeHashTable.__contains__, ThreadSafeHashTable.__delitem__,
    ThreadSafeHashTable.__getitem__.
  rewrite (contains_run hash) by done. intros [= Hin].
  apply bool_decide_eq_true in Hin.
  destruct (delitem_present hash st k HI Hin)
    as (st1 & Hrun1 & HI1 & Hkl1 & _ & _ & Hlf1).
  pose proof (remove_walk_length (kl st) k Hin) as Hlen.
  pose proof (remove_walk_keys (kl st) k (inv_nodup _ _ HI)) as Hkeys.
  rewrite <-Hkl1 in Hlen, Hkeys.
  assert (Hout : k ∉ key <$> kl st1).
  { rewrite Hkeys. intros [Hne _]%list_elem_of_filter. done. }
  destruct (setitem_run hash fuel st1 k v HI1)
    as (st2 & Hrun2 & [HI2 Hkl2 _ _ _]).
  { apply (fuel_of_enough hash); [done|]. etrans; [|exact Hfuel].
    unfold fuel_of. rewrite Hlf1. apply fuel_for_mono. lia. }
  unfold put in Hkl2. rewrite decide_False in Hkl2 by done.
  exists st1, st2, (key <$> kl st). do 3 (split; [done|]). split; [|split].
  - unfold ThreadSafeHashTable.keys, ThreadSafeHashTable.__iter__,
      Common.__iter__, bind, get_self, ret. fold (kl st2).
    by rewrite Hkl2, fmap_app, Hkeys.
  - rewrite (getitem_run hash) by done. unfold lookup_node.
    rewrite Hkl2, find_from_app_absent by done. simpl.
    by rewrite decide_True.
  - unfold ThreadSafeHashTable.__len__, Common.__len__, bind, get_self, ret.
    simpl. rewrite (inv_size _ _ HI2), (inv_size _ _ HI), Hkl2, length_app.
    simpl. f_equal. lia.
Qed.

(** [clear()] empties the table and keeps its capacity and threshold; the
    table it leaves is one a client can go on with. *)
Theorem clear_empties st :
  reachable st →
  ∃ st',
    ThreadSafeHashTable.clear st = (st', Return tt)
    ∧ ThreadSafeHashTable.__len__ st' = (st', Return 0)
    ∧ ThreadSafeHashTable.keys st' = (st', Return [])
    ∧ (∀ k default,
         ThreadSafeHashTable.__contains__ hash k st' = (st', Return false)
         ∧ ThreadSafeHashTable.get hash k default st' = (st', Return default))
    ∧ _capacity st' = _capacity st
    ∧ _load_factor st' = _load_factor st
    ∧ Z.of_nat (length (_buckets st')) = _capacity st
    ∧ reachable st'.
Proof.
  intros Hr. pose proof (reachable_Inv hash st Hr) as HI.
  eexists. split; [reflexivity|].
  set (st' := mkTable (_capacity st) (_load_factor st)
                (Common.fresh_buckets (_capacity st)) 0
                DoublyLinkedList.__init__ : table K V).
  assert (Hr' : reachable st') by (by eapply reachable_clear).
  pose proof (reachable_Inv hash _ Hr') as HI'.
  split; [done|]. split; [done|]. split.
  - intros k d. unfold ThreadSafeHashTable.__contains__, ThreadSafeHashTable.get.
    rewrite (contains_run hash), (get_run hash) by done.
    rewrite bool_decide_false by apply not_elem_of_nil. done.
  - split; [done|]. split; [done|]. split; [|done].
    simpl. unfold Common.fresh_buckets. rewrite length_replicate.
    pose proof (inv_cap _ _ HI). lia.
Qed.

(** What every table a client can get satisfies: a positive capacity, as
    many chains as the capacity, a threshold in (0, 1], and a load
    [len() / capacity] within the threshold. *)
Theorem table_invariants st :
  reachable st →
  0 < _capacity st
  ∧ Z.of_nat (length (_buckets st)) = _capacity st
  ∧ (0 < _load_factor st ∧ _load_factor st <= 1)%Q
  ∧ 0 <= _size st
  ∧ (inject_Z (_size st) / inject_Z (_capacity st) <= _load_factor st)%Q.
Proof.
  intros Hr. pose proof (reachable_Inv hash st Hr) as HI.
  pose proof (inv_cap _ _ HI) as Hc.
  split; [done|]. split; [rewrite (inv_len _ _ HI); lia|].
  split; [by apply (reachable_threshold hash)|].
  split; [rewrite (inv_size _ _ HI); lia|].
  pose proof (reachable_within hash st Hr) as Hw. unfold within in Hw.
  destruct (true_div_over (K := K) (_load_factor st) (_size st) (_capacity st) Hc)
    as (load & Hd & _ & Hle).
  unfold true_div in Hd. rewrite (proj2 (Z.eqb_neq _ 0)) in Hd by lia.
  injection Hd as <-. apply Qle_bool_iff. rewrite Hle.
  by rewrite bool_decide_false.
Qed.

(** The chains partition the entries: the chain at index [i] holds exactly
    the keys that [_hash] sends to [i], in the order of the global list;
    every list's [len()] is the number of its nodes, and the lengths of the
    chains add up to [len()] of the table. *)
Theorem chains_partition st :
  reachable st →
  (∀ (i : nat) b, _buckets st !! i = Some b →
     DoublyLinkedList.__iter__ b
     = filter (λ k, hash k `mod` _capacity st = Z.of_nat i)
         (DoublyLinkedList.__iter__ (_keys_list st))
     ∧ DoublyLinkedList.__len__ b
       = Z.of_nat (length (DoublyLinkedList.__iter__ b)))
  ∧ DoublyLinkedList.__len__ (_keys_list st) = _size st
  ∧ Z.of_nat (sum_list_with (λ b, length (DoublyLinkedList.__iter__ b))
                (_buckets st))
    = _size st.
Proof.
  intros Hr. pose proof (reachable_Inv hash st Hr) as HI.
  pose proof (reachable_Sized hash st Hr) as [Hk Hb].
  pose proof (inv_cap _ _ HI) as Hc.
  split; [|split].
  - intros i b Hl. unfold DoublyLinkedList.__iter__, DoublyLinkedList.__len__.
    split.
    + rewrite (inv_chain _ _ HI _ _ Hl). fold (kl st). clear -Hc.
      induction (kl st) as [|n ns IH]; [done|]. csimpl.
      assert (Hiff : slot hash (_capacity st) (key n) = i
                     ↔ hash (key n) `mod` _capacity st = Z.of_nat i).
      { unfold slot.
        pose proof (Z.mod_pos_bound (hash (key n)) (_capacity st)). lia. }
      destruct (decide (slot hash (_capacity st) (key n) = i)) as [Hs|Hs].
      * rewrite filter_cons_True by done.
        rewrite (filter_cons_True _ (key n)) by tauto. csimpl. by rewrite IH.
      * rewrite filter_cons_False by done.
        by rewrite (filter_cons_False _ (key n)) by tauto.
    + rewrite length_fmap. apply (proj1 (Forall_lookup _ _) Hb i b Hl).
  - unfold DoublyLinkedList.__len__. rewrite Hk, (inv_size _ _ HI). done.
  - rewrite (inv_size _ _ HI), <-(chains_total hash st HI). f_equal.
    unfold DoublyLinkedList.__iter__. generalize (_buckets st). clear.
    intros bs. induction bs as [|b bs IH]; [done|]. simpl.
    by rewrite length_fmap, IH.
Qed.

(** Along any run of calls on a new table the threshold stays what the
    constructor was given and the capacity is the initial capacity doubled
    some number of times: the table never shrinks, not even when entries
    are deleted. *)
Theorem capacity_only_doubles c lf st0 ops fuel st rs :
  ThreadSafeHashTable.__init__ c lf = Return st0 →
  (fuel_for lf (length ops) <= fuel)%nat →
  run (ThreadSafeHashTable.call hash fuel) ops st0 = (st, rs) →
  _load_factor st = lf ∧ ∃ j : nat, _capacity st = c * 2 ^ Z.of_nat j.
Proof.
  intros Hi Hfuel Hrun.
  destruct (run_from_init hash c lf st0 ops fuel st rs Hi Hfuel Hrun)
    as (_ & Hrs & _).
  apply (init_Inv hash) in Hi as (HI0 & _ & Hc0 & Hlf0).
  destruct (run_growth hash fuel ops st0 st rs HI0 Hrun) as (Hlf & j & Hj).
  - rewrite Hrs. clear. generalize (@nil (Node K V)).
    induction ops as [|o ops IH]; intros ns; simpl; [constructor|].
    destruct (model_step o ns) as [ns1 r] eqn:Hm.
    specialize (IH ns1). destruct (model_run ops ns1) as [ns2 rs].
    simpl in *. constructor; [|done].
    destruct o; simpl in Hm; try (by injection Hm as _ <-).
    + injection Hm as _ <-. by destruct (snd <$> _).
    + destruct (decide _); by injection Hm as _ <-.
  - split; [congruence|]. exists j. by rewrite Hj, Hc0.
Qed.

(** [repr(d)] raises nothing and writes the entries of [items()] in their
    order, each as [repr(key): repr(value)], between braces. *)
Theorem repr_lists_items st (repr_key : K → string) (repr_value : V → string) :
  reachable st →
  ∃ kvs,
    ThreadSafeHashTable.items st = (st, Return kvs)
    ∧ ThreadSafeHashTable.__repr__ hash repr_key repr_value st
      = (st, Return
           (String.append "{"
              (String.append
                 (String.concat ", "
                    ((λ p, String.append (repr_key p.1)
                             (String.append ": " (repr_value p.2))) <$> kvs))
                 "}"))).
Proof.
  intros HI%reachable_Inv. exists ((λ n, (key n, value n)) <$> kl st).
  split; [done|].
  unfold ThreadSafeHashTable.__repr__, ThreadSafeHashTable.__iter__,
    Common.__iter__, bind at 1, bind at 1, get_self, ret. fold (kl st).
  assert (Hitems : ∀ ns, (∀ n, n ∈ ns → n ∈ kl st) →
    ThreadSafeHashTable.repr_items hash repr_key repr_value (key <$> ns) st
    = (st, Return ((λ n, String.append (repr_key (key n))
                           (String.append ": " (repr_value (value n))))
                     <$> ns))).
  { induction ns as [|n ns IH]; intros Hsub; csimpl; [done|].
    unfold bind at 1, ThreadSafeHashTable.__getitem__.
    rewrite (getitem_run hash) by done.
    rewrite (lookup_node_elem st n (inv_nodup _ _ HI)) by (apply Hsub; left).
    unfold bind. rewrite IH by (intros n' Hn'; apply Hsub; by right). done. }
  unfold bind. rewrite Hitems by done. unfold ret.
  by rewrite <-list_fmap_compose.
Qed.

(** [NonThreadSafeHashTable] does not check its arguments.  With a
    capacity of zero every call that hashes a key raises
    [ZeroDivisionError], with a negative one [IndexError] (there is no
    chain), [get] included; the table stays empty. *)
Theorem unchecked_capacity c lf fuel (o : op K V) :
  c <= 0 →
  NonThreadSafeHashTable.call hash fuel o (NonThreadSafeHashTable.__init__ c lf)
  = (NonThreadSafeHashTable.__init__ c lf,
     match o with
     | OpLen => Return (VInt 0)
     | OpIter => Return (VKeys [])
     | _ => Raise (if c =? 0 then ZeroDivisionError else IndexError)
     end).
Proof.
  intros Hc. unfold NonThreadSafeHashTable.call, NonThreadSafeHashTable.__init__.
  assert (Hfresh : Common.fresh_buckets (K := K) (V := V) c = []).
  { unfold Common.fresh_buckets. by replace (Z.to_nat c) with 0%nat by lia. }
  rewrite Hfresh.
  assert (Hfuel : ∀ k v (cr : M K V unit),
    Common.__setitem__ hash cr k v (mkTable c lf [] 0 DoublyLinkedList.__init__)
    = (mkTable c lf [] 0 DoublyLinkedList.__init__,
       Raise (if c =? 0 then ZeroDivisionError else IndexError))).
  { intros k v cr.
    unfold Common.__setitem__, bind, Common._hash, Common.bucket_at, bind,
      get_self, ret, raise, norm_index. simpl.
    destruct (c =? 0) eqn:Hz; [done|]. simpl.
    rewrite !bool_decide_false by lia. done. }
  destruct o as [k v|k|k d|k|k| |]; simpl; try done.
  - unfold bind at 1. destruct fuel; simpl; by rewrite Hfuel.
  - unfold Common.__getitem__, bind, Common._hash, Common.bucket_at, bind,
      get_self, ret, raise, norm_index. simpl.
    destruct (c =? 0) eqn:Hz; [done|]. simpl.
    rewrite !bool_decide_false by lia. done.
  - unfold Common.get, Common.__getitem__, bind, Common._hash,
      Common.bucket_at, bind, get_self, ret, raise, norm_index. simpl.
    destruct (c =? 0) eqn:Hz; [done|]. simpl.
    rewrite !bool_decide_false by lia. done.
  - unfold Common.__delitem__, bind, Common._hash, Common.bucket_at, bind,
      get_self, ret, raise, norm_index. simpl.
    destruct (c =? 0) eqn:Hz; [done|]. simpl.
    rewrite !bool_decide_false by lia. done.
  - unfold Common.__contains__, bind, Common._hash, Common.bucket_at, bind,
      get_self, ret, raise, norm_index. simpl.
    destruct (c =? 0) eqn:Hz; [done|]. simpl.
    rewrite !bool_decide_false by lia. done.
Qed.

(** The first insert into a new table whose load factor is not positive
    resizes, and the rehash calls [self[k] = v] on the new, empty table. *)
Lemma first_insert_resizes (f : K → V → M K V unit) c lf k v :
  0 < c → (lf <= 0)%Q →
  Common.__setitem__ hash
    (Common._check_resize (NonThreadSafeHashTable._resize_with f)) k v
    (NonThreadSafeHashTable.__init__ c lf)
  = (f k v ;;; ret tt) (NonThreadSafeHashTable.__init__ (c * 2) lf).
Proof.
  intros Hc Hlf. unfold NonThreadSafeHashTable.__init__.
  pose proof (Z.mod_pos_bound (hash k) c Hc) as Hm.
  set (i := Z.to_nat (hash k `mod` c)).
  assert (Hi : (i < Z.to_nat c)%nat) by (unfold i; lia).
  unfold Common.__setitem__, bind at 1, Common._hash, bind at 1, get_self.
  simpl. rewrite (proj2 (Z.eqb_neq c 0)) by lia. unfold ret at 1.
  unfold bind at 1, Common.bucket_at, bind at 1, get_self, norm_index. simpl.
  unfold Common.fresh_buckets. rewrite length_replicate.
  rewrite bool_decide_true by lia. fold i.
  rewrite lookup_replicate_2 by done. unfold ret at 1. simpl.
  unfold Common.set_bucket, Common.set_keys_list, Common.set_size, bind,
    get_self, put_self. simpl.
  unfold Common._check_resize, bind, get_self, lift. simpl.
  destruct (true_div_over (K := K) lf (0 + 1) c Hc) as (load & Hd & Hlt & _).
  rewrite Hd, Hlt, bool_decide_true; last first.
  { unfold over. unfold Qle in Hlf. simpl in Hlf.
    pose proof (Pos2Z.is_pos (Qden lf)). nia. }
  unfold NonThreadSafeHashTable._resize_with, Common.rehash, bind, get_self,
    put_self. simpl. unfold bind.
  rewrite insert_take_drop by (by rewrite length_replicate).
  rewrite rehash_key_skip; last first.
  { intros b [j Hj]%list_elem_of_lookup.
    apply lookup_take_Some in Hj as [[-> _]%lookup_replicate _]. done. }
  simpl. unfold DoublyLinkedList.find. simpl.
  by rewrite decide_True by done.
Qed.

(** Nor does [NonThreadSafeHashTable] check the load factor.  With a
    positive capacity and a load factor of zero or less the first insert
    never returns: the load of one entry is over the threshold at every
    capacity, each [_resize] re-inserts the key and that insert resizes
    again, whatever depth of nesting is allowed (Python ends it with
    [RecursionError]); the table is left empty at the capacity reached. *)
Theorem unchecked_load_factor c lf fuel (k : K) (v : V) :
  0 < c → (lf <= 0)%Q →
  NonThreadSafeHashTable.__setitem__ hash fuel k v
    (NonThreadSafeHashTable.__init__ c lf)
  = (NonThreadSafeHashTable.__init__ (c * 2 ^ Z.of_nat (S fuel)) lf,
     Raise OutOfFuel).
Proof.
  intros Hc Hlf. revert c Hc. induction fuel as [|fuel IH]; intros c Hc.
  - simpl. rewrite first_insert_resizes by done. unfold bind, raise.
    by rewrite Z.pow_1_r.
  - change (NonThreadSafeHashTable.__setitem__ hash (S fuel))
      with (Common.__setitem__ (V := V) hash
              (Common._check_resize
                 (NonThreadSafeHashTable._resize_with
                    (NonThreadSafeHashTable.__setitem__ hash fuel)))).
    rewrite first_insert_resizes by done. unfold bind.
    rewrite IH by lia. do 2 f_equal.
    rewrite (Nat2Z.inj_succ (S fuel)), Z.pow_succ_r by lia. lia.
Qed.

(** [reversed(d)] yields the keys of [keys()] from the last to the first,
    so the key of the latest insert of a new key comes first. *)
Theorem reversed_newest_first st k v fuel :
  reachable st → (fuel_of st <= fuel)%nat →
  ThreadSafeHashTable.__contains__ hash k st = (st, Return false) →
  ∃ st' ks,
    ThreadSafeHashTable.keys st = (st, Return ks)
    ∧ ThreadSafeHashTable.__reversed__ st = (st, Return (reverse ks))
    ∧ ThreadSafeHashTable.__setitem__ hash fuel k v st = (st', Return tt)
    ∧ ThreadSafeHashTable.__reversed__ st' = (st', Return (k :: reverse ks)).
Proof.
  intros HI%reachable_Inv Hfuel. unfold ThreadSafeHashTable.__contains__.
  rewrite (contains_run hash) by done. intros [= Hin].
  apply bool_decide_eq_false in Hin.
  destruct (setitem_run hash fuel st k v HI
              (fuel_of_enough hash fuel st HI Hfuel))
    as (st' & Hrun & [HI' Hkl _ _ _]).
  unfold put in Hkl. rewrite decide_False in Hkl by done.
  exists st', (key <$> kl st). split; [done|]. split; [done|].
  split; [done|].
  unfold ThreadSafeHashTable.__reversed__, bind, get_self, ret.
  fold (kl st'). rewrite Hkl, fmap_app. csimpl. by rewrite reverse_snoc.
Qed.

(** The table is an insertion-ordered association list: on a new table
    every call of a history returns or raises what the same call does on
    the list of entries, and [items()] at the end is that list. *)
Theorem table_is_ordered_map c lf st0 ops fuel st rs :
  ThreadSafeHashTable.__init__ c lf = Return st0 →
  (fuel_for lf (length ops) <= fuel)%nat →
  run (ThreadSafeHashTable.call hash fuel) ops st0 = (st, rs) →
  rs = (model_run ops []).2
  ∧ ThreadSafeHashTable.items st
    = (st, Return ((λ n, (key n, value n)) <$> (model_run ops []).1)).
Proof.
  intros (HI0 & Hkl0 & _ & Hlf0)%(init_Inv hash) Hfuel Hrun.
  destruct (run_model hash fuel ops st0 HI0) as (st' & Hr & HI & Hkl & _).
  { rewrite Hkl0, Hlf0. simpl. by apply fuel_for_covers. }
  rewrite Hrun in Hr. injection Hr as <- ->. rewrite Hkl0 in *.
  split; [done|].
  unfold ThreadSafeHashTable.items, bind, get_self, ret. fold (kl st).
  by rewrite Hkl.
Qed.
End More.

(** * The linked lists *)

(** [DoublyLinkedList] with its references does to a list in good order
    what the sequence model of the tables does to the sequence. *)

Section Links.
Context {K V : Type} `{EqDecision K}.
Implicit Types (h : Linked.store K V) (self : Linked.t) (refs : list nat).
Implicit Types (k : K) (v : V).

Local Abbreviation entry := (λ n, mkNode (Linked.key n) (Linked.value n)).

Lemma links_lookup h p refs :
  Linked.links h p refs ↔
  ∀ i node, refs !! i = Some node →
    ∃ n, h !! node = Some n
      ∧ Linked.prev n = match i with O => p | S j => refs !! j end
      ∧ Linked.next n = refs !! S i.
Proof.
  revert p. induction refs as [|a rest IH]; intros p; simpl.
  - split; [intros _ i node; by rewrite lookup_nil | done].
  - destruct (h !! a) as [n|] eqn:Ha.
    + rewrite IH. split.
      * intros (Hp & Hn & Hrest) [|i] node; simpl.
        -- intros [= <-]. eauto.
        -- intros Hi. destruct (Hrest i node Hi) as (n' & ? & Hp' & ?).
           exists n'. split; [done|]. split; [|done]. by destruct i.
      * intros Hall. destruct (Hall 0%nat a eq_refl) as (n' & Hn' & ? & ?).
        simplify_eq. split; [done|]. split; [done|].
        intros i node Hi.
        destruct (Hall (S i) node Hi) as (n' & ? & Hp' & ?).
        exists n'. split; [done|]. split; [|done]. by destruct i.
    + split; [done|]. intros Hall.
      destruct (Hall 0%nat a eq_refl) as (? & ? & _). congruence.
Qed.

Lemma links_allocated h p refs node :
  Linked.links h p refs → node ∈ refs → (node < length h)%nat.
Proof.
  intros Hl [i Hi]%list_elem_of_lookup.
  destruct (proj1 (links_lookup h p refs) Hl i node Hi) as (n & Hn & _).
  by eapply lookup_lt_Some.
Qed.

Lemma entries_of_ext h h' refs :
  (∀ node, node ∈ refs → entry <$> h' !! node = entry <$> h !! node) →
  entries_of h' refs = entries_of h refs.
Proof.
  unfold entries_of. induction refs as [|a rest IH]; intros Hext; [done|].
  assert (Ha : entry <$> h' !! a = entry <$> h !! a) by (apply Hext; left).
  assert (Hr : omap (λ node, entry <$> h' !! node) rest
               = omap (λ node, entry <$> h !! node) rest).
  { apply IH. intros node Hn. apply Hext. by right. }
  csimpl. by rewrite Ha, Hr.
Qed.

Lemma links_Forall h p refs :
  Linked.links h p refs → Forall (λ node, is_Some (h !! node)) refs.
Proof.
  revert p. induction refs as [|a rest IH]; intros p; simpl; [done|].
  destruct (h !! a) as [n|] eqn:Ha; [|done]. intros (_ & _ & Hl).
  constructor; [by rewrite Ha|]. by apply (IH (Some a)).
Qed.

Lemma entries_of_lookup h refs i :
  Forall (λ node, is_Some (h !! node)) refs →
  entries_of h refs !! i = refs !! i ≫= λ node, entry <$> h !! node.
Proof.
  unfold entries_of. intros Hall. revert i.
  induction Hall as [|a rest [n Ha] _ IH]; intros i; [done|].
  csimpl. rewrite Ha. csimpl. destruct i as [|i]; simpl; [by rewrite Ha|].
  apply IH.
Qed.

Lemma entries_of_length h refs :
  Forall (λ node, is_Some (h !! node)) refs →
  length (entries_of h refs) = length refs.
Proof.
  unfold entries_of. induction 1 as [|a rest [n Ha] _ IH]; [done|].
  csimpl. rewrite Ha. csimpl. by rewrite IH.
Qed.

Lemma entries_of_delete h refs i :
  Forall (λ node, is_Some (h !! node)) refs →
  entries_of h (delete i refs) = delete i (entries_of h refs).
Proof.
  unfold entries_of. intros Hall. revert i.
  induction Hall as [|a rest [n Ha] _ IH]; intros i; [done|].
  destruct i as [|i]; csimpl; rewrite Ha; csimpl; [done|]. by rewrite IH.
Qed.

Lemma update_Some h node n f :
  h !! node = Some n → Linked.update h node f = Linked.Ok (<[node := f n]> h).
Proof. unfold Linked.update. by intros ->. Qed.

Lemma read_Some h node n : h !! node = Some n → Linked.read h node = Linked.Ok n.
Proof. unfold Linked.read. by intros ->. Qed.

Lemma linked_allocated h self refs node :
  Linked.linked h self refs → node ∈ refs → (node < length h)%nat.
Proof. intros [_ _ _ _ Hl]. by eapply links_allocated. Qed.

Lemma append_spec h self refs k v :
  Linked.linked h self refs →
  ∃ h' self',
    Linked.append h self k v = Linked.Ok (h', self', length h)
    ∧ Linked.linked h' self' (refs ++ [length h])
    ∧ sequence h' self' (refs ++ [length h])
      = (DoublyLinkedList.append (sequence h self refs) k v).1
    ∧ (∀ b nb, h !! b = Some nb →
         h' !! b = Some (if decide (Linked.tail self = Some b)
                         then Linked.set_next (Some (length h)) nb else nb))
    ∧ h' !! length h = Some (Linked.mkNode k v (Linked.tail self) None None)
    ∧ length h' = S (length h).
Proof.
  intros Hlinked. pose proof Hlinked as [Hnd Hhead Htail Hsize Hlinks].
  pose proof (proj1 (links_lookup h None refs) Hlinks) as Hlk.
  assert (Hfresh : length h ∉ refs).
  { intros Hin%(linked_allocated h self refs); [lia|done]. }
  assert (Hnew : (h ++ [Linked.Node__init__ k v]) !! length h
                 = Some (Linked.Node__init__ k v)).
  { by apply list_lookup_middle. }
  unfold Linked.append.
  destruct (last refs) as [t|] eqn:Hlast.
  - (* a list with a last node *)
    rewrite last_lookup in Hlast.
    assert (Hne : (0 < length refs)%nat).
    { apply lookup_lt_Some in Hlast. lia. }
    destruct (refs !! 0%nat) as [first|] eqn:Hfirst;
      [|apply lookup_ge_None in Hfirst; lia].
    rewrite Hhead, Htail. simpl.
    destruct (Hlk _ _ Hlast) as (nt & Hnt & Hpt & Hnxt).
    assert (Htlt : (t < length h)%nat) by (by eapply lookup_lt_Some).
    rewrite (update_Some _ _ _ _ Hnew). simpl.
    erewrite update_Some; last first.
    { rewrite list_lookup_insert_ne by lia. rewrite lookup_app_l by done.
      exact Hnt. }
    simpl.
    set (h' := <[t := _]> (<[length h := _]> _)).
    assert (Hat : h' !! length h
                  = Some (Linked.mkNode k v (Some t) None None)).
    { unfold h'. rewrite list_lookup_insert_ne by lia.
      rewrite list_lookup_insert_eq; [done|]. rewrite length_app. simpl. lia. }
    assert (Hatt : h' !! t = Some (Linked.set_next (Some (length h)) nt)).
    { unfold h'. rewrite list_lookup_insert_eq; [done|].
      rewrite length_insert, length_app. lia. }
    assert (Hother : ∀ node, node ≠ t → (node < length h)%nat →
                       h' !! node = h !! node).
    { intros node Hn1 Hn2. unfold h'.
      rewrite !list_lookup_insert_ne by lia. by rewrite lookup_app_l. }
    eexists _, _. split; [reflexivity|]. split; [|split; [|split; [|split]]].
    + constructor; simpl.
      * apply NoDup_app. split; [done|]. split; [|apply NoDup_singleton].
        intros x Hx ->%list_elem_of_singleton. done.
      * by rewrite lookup_app_l, Hfirst by lia.
      * by rewrite last_snoc.
      * rewrite length_app. simpl. lia.
      * apply links_lookup. intros i node Hi.
        apply lookup_snoc_Some in Hi as [[Hilt Hi]|[-> <-]].
        -- destruct (Hlk _ _ Hi) as (n & Hn & Hp & Hnx).
           destruct (decide (node = t)) as [->|Hnt'].
           ++ assert (i = pred (length refs)) as -> by (by eapply NoDup_lookup).
              eexists. split; [exact Hatt|]. simpl. simplify_eq. split.
              ** rewrite Hpt. destruct (pred (length refs)) eqn:E; [done|].
                 rewrite lookup_app_l by lia. done.
              ** replace (S (pred (length refs))) with (length refs) by lia.
                 by rewrite list_lookup_middle.
           ++ assert (i ≠ pred (length refs)) by congruence.
              exists n. split.
              { rewrite Hother; [done..|]. by eapply lookup_lt_Some. }
              split.
              ** rewrite Hp. destruct i; [done|]. by rewrite lookup_app_l by lia.
              ** rewrite Hnx. by rewrite lookup_app_l by lia.
        -- eexists. split; [exact Hat|]. simpl. split.
           ++ destruct (length refs) eqn:E; [lia|].
              rewrite lookup_app_l by lia. by rewrite <-Hlast.
           ++ symmetry. apply lookup_ge_None. rewrite length_app. simpl. lia.
    + unfold sequence, DoublyLinkedList.append. simpl. f_equal.
      unfold entries_of at 1. rewrite omap_app. f_equal.
      * apply entries_of_ext. intros node Hin.
        destruct (decide (node = t)) as [->|Hnt'].
        -- by rewrite Hatt, Hnt.
        -- rewrite Hother; [done..|]. by eapply linked_allocated.
      * csimpl. by rewrite Hat.
    + intros b nb Hb. case_decide as Hd.
      * injection Hd as <-. rewrite Hatt. congruence.
      * rewrite Hother; [done|congruence|]. by eapply lookup_lt_Some.
    + done.
    + unfold h'. rewrite !length_insert, length_app. simpl. lia.
  - (* the empty list *)
    assert (refs = []) as ->.
    { rewrite last_lookup in Hlast. apply lookup_ge_None in Hlast.
      destruct refs; [done|simpl in Hlast; lia]. }
    rewrite Hhead. simpl. simpl in Hsize.
    eexists _, _. split; [reflexivity|]. split; [|split; [|split; [|split]]].
    + constructor; simpl; [apply NoDup_singleton|done|done|lia|].
      rewrite Hnew. done.
    + unfold sequence, DoublyLinkedList.append, entries_of. csimpl.
      by rewrite Hnew.
    + intros b nb Hb. rewrite Htail. simpl.
      rewrite lookup_app_l; [done|]. by eapply lookup_lt_Some.
    + by rewrite Hnew, Htail.
    + rewrite length_app. simpl. lia.
Qed.


(** *** The walks *)

Lemma find_walk_links fuel h p refs k pos :
  Linked.links h p refs → (length refs ≤ fuel)%nat →
  Linked.find_walk fuel h (refs !! 0%nat) k
  = Linked.Ok (DoublyLinkedList.find_from pos (entries_of h refs) k
               ≫= λ r, refs !! (r.1 - pos)%nat).
Proof.
  revert fuel p pos. induction refs as [|a rest IH]; intros fuel p pos; simpl.
  - by destruct fuel.
  - destruct (h !! a) as [n|] eqn:Ha; [|done]. intros (Hp & Hn & Hl) Hf.
    destruct fuel as [|fuel]; [lia|]. simpl.
    rewrite (read_Some _ _ _ Ha). simpl.
    destruct (decide (Linked.key n = k)) as [Hk|Hk].
    + simpl. by rewrite Nat.sub_diag.
    + rewrite Hn, (IH fuel (Some a) (S pos)) by (done || lia). f_equal.
      destruct (DoublyLinkedList.find_from (S pos) (entries_of h rest) k)
        as [[r n']|] eqn:E; simpl; [|done].
      apply find_from_Some in E as (j & -> & _).
      replace (S pos + j - pos)%nat with (S j) by lia.
      by replace (S pos + j - S pos)%nat with j by lia.
Qed.

Lemma iter_walk_links fuel h p refs :
  Linked.links h p refs → (length refs ≤ fuel)%nat →
  Linked.iter_walk fuel h (refs !! 0%nat) = Linked.Ok (key <$> entries_of h refs).
Proof.
  revert fuel p. induction refs as [|a rest IH]; intros fuel p; simpl.
  - by destruct fuel.
  - destruct (h !! a) as [n|] eqn:Ha; [|done]. intros (Hp & Hn & Hl) Hf.
    destruct fuel as [|fuel]; [lia|]. simpl.
    rewrite (read_Some _ _ _ Ha). simpl.
    by rewrite Hn, (IH fuel (Some a)) by (done || lia).
Qed.

Lemma reverse_walk_links fuel h refs i :
  Linked.links h None refs → (i ≤ length refs)%nat → (i ≤ fuel)%nat →
  Linked.reverse_walk fuel h (match i with O => None | S j => refs !! j end)
  = Linked.Ok (reverse (key <$> take i (entries_of h refs))).
Proof.
  intros Hl. pose proof (proj1 (links_lookup h None refs) Hl) as Hlk.
  revert fuel. induction i as [|j IH]; intros fuel Hi Hf.
  - by destruct fuel.
  - destruct (lookup_lt_is_Some_2 refs j) as [a Ha]; [lia|].
    destruct (Hlk j a Ha) as (n & Hn & Hp & _).
    destruct fuel as [|fuel]; [lia|]. rewrite Ha. simpl.
    rewrite (read_Some _ _ _ Hn). simpl.
    rewrite Hp, IH by lia. simpl. f_equal.
    erewrite take_S_r; last first.
    { rewrite entries_of_lookup by (by eapply links_Forall).
      rewrite Ha. simpl. by rewrite Hn. }
    rewrite fmap_app. csimpl. by rewrite reverse_snoc.
Qed.

(** *** [remove] *)

Lemma update_alter h node f :
  is_Some (h !! node) → Linked.update h node f = Linked.Ok (alter f node h).
Proof.
  intros [n Hn]. rewrite (update_Some _ _ n) by done. f_equal.
  apply list_eq. intros j. destruct (decide (node = j)) as [<-|Hne].
  - rewrite list_lookup_insert_eq by (by eapply lookup_lt_Some).
    by rewrite list_lookup_alter_eq, Hn.
  - by rewrite list_lookup_insert_ne, list_lookup_alter_ne.
Qed.

Lemma upd_lookup (r : Linked.ref) f h b :
  match r with Some a => alter f a h | None => h end !! b
  = if decide (r = Some b) then f <$> h !! b else h !! b.
Proof.
  destruct r as [a|]; [|by rewrite decide_False].
  destruct (decide (a = b)) as [->|Hne].
  - rewrite decide_True by done. apply list_lookup_alter_eq.
  - rewrite decide_False by congruence. by apply list_lookup_alter_ne.
Qed.


Lemma last_delete refs i :
  (i < length refs)%nat →
  last (delete i refs)
  = if decide (S i = length refs)
    then match i with O => None | S j => refs !! j end
    else last refs.
Proof.
  intros Hi. rewrite !last_lookup, length_delete by (by apply lookup_lt_is_Some_2).
  rewrite list_lookup_delete. case_decide as Hd1; case_decide as Hd2.
  - destruct i as [|j]; [lia|]. f_equal. lia.
  - lia.
  - destruct i as [|j]; [|lia]. apply lookup_ge_None. lia.
  - f_equal. lia.
Qed.

Lemma remove_run h self refs i node :
  Linked.linked h self refs → refs !! i = Some node →
  Linked.remove h self node
  = Linked.Ok
      (match refs !! S i with
       | Some q =>
           alter (Linked.set_prev match i with O => None | S j => refs !! j end)
             q
             match match i with O => None | S j => refs !! j end with
             | Some p => alter (Linked.set_next (refs !! S i)) p h
             | None => h
             end
       | None =>
           match match i with O => None | S j => refs !! j end with
           | Some p => alter (Linked.set_next (refs !! S i)) p h
           | None => h
           end
       end,
       Linked.mk (delete i refs !! 0%nat) (last (delete i refs))
         (Linked._size self - 1)).
Proof.
  intros [Hnd Hhead Htail Hsize Hlinks] Hi.
  pose proof (proj1 (links_lookup h None refs) Hlinks) as Hlk.
  destruct (Hlk i node Hi) as (n & Hn & Hp & Hnx).
  assert (Hilt : (i < length refs)%nat) by (by eapply lookup_lt_Some).
  unfold Linked.remove. rewrite (read_Some _ _ _ Hn). simpl.
  rewrite last_delete by done.
  destruct i as [|j].
  - rewrite Hp. simpl. rewrite (read_Some _ _ _ Hn). simpl. rewrite Hnx, Hp.
    rewrite list_lookup_delete_ge by lia.
    destruct (refs !! 1%nat) as [q|] eqn:Hq.
    + destruct (Hlk _ _ Hq) as (nq & Hnq & _).
      rewrite update_alter by (by rewrite Hnq). simpl.
      rewrite decide_False; [by rewrite Htail|].
      apply lookup_lt_Some in Hq. lia.
    + simpl. rewrite decide_True; [done|].
      apply lookup_ge_None in Hq. lia.
  - destruct (lookup_lt_is_Some_2 refs j) as [p Hj]; [lia|].
    destruct (Hlk _ _ Hj) as (np & Hnp & _).
    assert (p ≠ node).
    { intros ->. pose proof (NoDup_lookup _ _ _ _ Hnd Hi Hj). lia. }
    rewrite Hp, Hj. simpl. rewrite update_alter by (by rewrite Hnp). simpl.
    rewrite (read_Some _ _ n) by (by rewrite list_lookup_alter_ne).
    simpl. rewrite Hnx, Hp, Hj.
    rewrite list_lookup_delete_lt by lia.
    destruct (refs !! S (S j)) as [q|] eqn:Hq.
    + destruct (Hlk _ _ Hq) as (nq & Hnq & _).
      assert (p ≠ q).
      { intros ->. pose proof (NoDup_lookup _ _ _ _ Hnd Hq Hj). lia. }
      rewrite update_alter
        by (by rewrite list_lookup_alter_ne, Hnq).
      simpl. rewrite decide_False; [by rewrite Htail, Hhead|].
      apply lookup_lt_Some in Hq. lia.
    + simpl. rewrite decide_True; [by rewrite Hhead|].
      apply lookup_ge_None in Hq. lia.
Qed.


Lemma remove_spec h self refs i node :
  Linked.linked h self refs → refs !! i = Some node →
  ∃ h' self',
    Linked.remove h self node = Linked.Ok (h', self')
    ∧ Linked.linked h' self' (delete i refs)
    ∧ sequence h' self' (delete i refs)
      = DoublyLinkedList.remove (sequence h self refs) i
    ∧ (∀ b, b ∉ delete i refs → h' !! b = h !! b)
    ∧ length h' = length h.
Proof.
  intros Hlinked Hi. rewrite (remove_run _ _ _ _ _ Hlinked Hi).
  destruct Hlinked as [Hnd Hhead Htail Hsize Hlinks].
  pose proof (proj1 (links_lookup h None refs) Hlinks) as Hlk.
  assert (Hilt : (i < length refs)%nat) by (by eapply lookup_lt_Some).
  set (pr := match i with O => None | S j => refs !! j end).
  set (sc := refs !! S i).
  set (h1 := match pr with
             | Some p => alter (Linked.set_next sc) p h
             | None => h
             end).
  set (h' := match sc with Some q => alter _ q _ | None => _ end).
  assert (Hh' : ∀ b,
    h' !! b
    = (if decide (sc = Some b) then fmap (Linked.set_prev pr) else id)
        ((if decide (pr = Some b) then fmap (Linked.set_next sc) else id)
           (h !! b))).
  { intros b. etrans; [exact (upd_lookup sc (Linked.set_prev pr) h1 b)|].
    unfold h1. rewrite (upd_lookup pr). by repeat case_decide. }
  assert (Hsc : ∀ o b, refs !! o = Some b → sc = Some b ↔ o = S i).
  { intros o b Ho. unfold sc. split; [|by intros ->].
    intros Hs. by eapply NoDup_lookup. }
  assert (Hpr : ∀ o b, refs !! o = Some b → pr = Some b ↔ S o = i).
  { intros o b Ho. unfold pr. destruct i as [|j]; [done|]. split.
    - intros Hs. f_equal. by eapply NoDup_lookup.
    - by intros [= ->]. }
  eexists _, _. split; [reflexivity|]. split; [|split; [|split]].
  - constructor; simpl; [|done|done| |].
    + eapply sublist_NoDup; [done|apply sublist_delete].
    + rewrite length_delete by (by apply lookup_lt_is_Some_2). lia.
    + apply links_lookup. intros j' b Hb.
      rewrite list_lookup_delete in Hb.
      destruct (Hlk _ _ Hb) as (nb & Hnb & Hpb & Hnxb).
      pose proof (Hsc _ _ Hb) as Hsb. pose proof (Hpr _ _ Hb) as Hpb'.
      rewrite Hh', Hnb.
      destruct (decide (sc = Some b)) as [Hs|Hs];
        destruct (decide (pr = Some b)) as [Hq|Hq]; simpl;
        eexists; (split; [reflexivity|]); simpl.
      * apply Hsb in Hs. apply Hpb' in Hq. case_decide; lia.
      * apply Hsb in Hs. case_decide; [lia|]. assert (j' = i) as -> by lia.
        split.
        -- unfold pr. destruct i as [|j]; [done|].
           by rewrite list_lookup_delete_lt by lia.
        -- rewrite Hnxb. by rewrite list_lookup_delete_ge by lia.
      * apply Hpb' in Hq. case_decide; [|lia]. split.
        -- rewrite Hpb. destruct j' as [|j'']; [done|].
           by rewrite list_lookup_delete_lt by lia.
        -- unfold sc. rewrite list_lookup_delete_ge by lia. f_equal. lia.
      * rewrite Hsb in Hs. rewrite Hpb' in Hq. case_decide.
        -- split.
           ++ rewrite Hpb. destruct j' as [|j'']; [done|].
              by rewrite list_lookup_delete_lt by lia.
           ++ rewrite Hnxb. by rewrite list_lookup_delete_lt by lia.
        -- split.
           ++ rewrite Hpb. destruct j' as [|j'']; [lia|].
              by rewrite list_lookup_delete_ge by lia.
           ++ rewrite Hnxb. by rewrite list_lookup_delete_ge by lia.
  - unfold sequence, DoublyLinkedList.remove. simpl. f_equal.
    rewrite <-entries_of_delete by (by eapply links_Forall).
    apply entries_of_ext. intros b _. rewrite Hh'.
    repeat case_decide; by destruct (h !! b).
  - intros b Hb. rewrite Hh'.
    rewrite (decide_False (P := sc = Some b)), (decide_False (P := pr = Some b));
      [done| |].
    + intros Hq. apply Hb. unfold pr in Hq. destruct i as [|j]; [done|].
      apply (list_elem_of_lookup_2 _ j). by rewrite list_lookup_delete_lt by lia.
    + intros Hs. apply Hb. apply (list_elem_of_lookup_2 _ i).
      by rewrite list_lookup_delete_ge by lia.
  - unfold h', h1. destruct sc, pr; by rewrite ?length_alter.
Qed.


(** [append] on a list in good order allocates one node at the end of the
    store, links it behind the tail and counts it: the list is in good
    order again with the new node last, it stands for the sequence with
    [(k, v)] added at the end, and no node outside the list is written. *)
Theorem append_links_at_tail h self refs k v :
  Linked.linked h self refs →
  ∃ h' self',
    Linked.append h self k v = Linked.Ok (h', self', length h)
    ∧ Linked.linked h' self' (refs ++ [length h])
    ∧ sequence h' self' (refs ++ [length h])
      = (DoublyLinkedList.append (sequence h self refs) k v).1
    ∧ Linked.__len__ self' = Linked.__len__ self + 1
    ∧ (∀ node, node ∉ refs → (node < length h)%nat → h' !! node = h !! node).
Proof.
  intros Hl. destruct (append_spec h self refs k v Hl)
    as (h' & self' & Hrun & Hl' & Hseq & Hnodes & _).
  exists h', self'. split; [done|]. split; [done|]. split; [done|]. split.
  - unfold Linked.__len__.
    rewrite (Linked.linked_size _ _ _ Hl'), (Linked.linked_size _ _ _ Hl).
    rewrite length_app. simpl. lia.
  - intros node Hout Hlt.
    destruct (lookup_lt_is_Some_2 h node Hlt) as [n Hn].
    rewrite (Hnodes _ _ Hn), Hn, decide_False; [done|].
    rewrite (Linked.linked_tail _ _ _ Hl), last_lookup. intros Ht.
    apply Hout. by eapply list_elem_of_lookup_2.
Qed.

(** [find] on a list in good order comes to an end within as many steps as
    the list has nodes and returns the first node that holds the key, or
    [None] when no node holds it: the node that [find] of the sequence
    gives. *)
Theorem find_first_match h self refs k fuel :
  Linked.linked h self refs → (length refs ≤ fuel)%nat →
  ∃ r,
    Linked.find fuel h self k = Linked.Ok r
    ∧ r = (DoublyLinkedList.find (sequence h self refs) k ≫= λ p, refs !! p.1)
    ∧ match r with
      | Some node =>
          ∃ i n, refs !! i = Some node ∧ h !! node = Some n
            ∧ Linked.key n = k
            ∧ ∀ j b nb, (j < i)%nat → refs !! j = Some b →
                h !! b = Some nb → Linked.key nb ≠ k
      | None =>
          ∀ b nb, b ∈ refs → h !! b = Some nb → Linked.key nb ≠ k
      end.
Proof.
  intros [Hnd Hhead Htail Hsize Hlinks] Hfuel.
  pose proof (links_Forall _ _ _ Hlinks) as Hall.
  eexists. split.
  { unfold Linked.find. rewrite Hhead.
    by apply (find_walk_links fuel h None refs k 0). }
  unfold DoublyLinkedList.find, sequence. simpl. split.
  { destruct (DoublyLinkedList.find_from 0 (entries_of h refs) k)
      as [[i e]|]; simpl; [|done]. by rewrite Nat.sub_0_r. }
  destruct (DoublyLinkedList.find_from 0 (entries_of h refs) k)
    as [[i e]|] eqn:E; simpl.
  - apply find_from_Some in E as (j & -> & He & Hk & Hbefore). simpl.
    rewrite Nat.sub_0_r. rewrite entries_of_lookup in He by done.
    destruct (refs !! j) as [node|] eqn:Hj; [|done]. simpl in He.
    destruct (h !! node) as [n|] eqn:Hn; [|done]. injection He as <-.
    exists j, n. split; [done|]. split; [done|]. split; [done|].
    intros j' b nb Hlt Hb Hnb Hkb. apply Hbefore.
    apply list_elem_of_fmap. exists (entry nb). split; [done|].
    apply (list_elem_of_lookup_2 _ j'). rewrite lookup_take_lt by done.
    rewrite entries_of_lookup by done. rewrite Hb. simpl. by rewrite Hnb.
  - apply find_from_None in E. intros b nb [j Hj]%list_elem_of_lookup Hnb Hkb.
    apply E. apply list_elem_of_fmap. exists (entry nb). split; [done|].
    apply (list_elem_of_lookup_2 _ j).
    rewrite entries_of_lookup by done. rewrite Hj. simpl. by rewrite Hnb.
Qed.

(** [remove] of a node of a list in good order unlinks that node and no
    other: the list is in good order again with the other nodes in their
    order, it stands for the sequence without that entry, it counts one
    node less, and no node outside the remaining list is written. *)
Theorem remove_unlinks h self refs i node :
  Linked.linked h self refs → refs !! i = Some node →
  ∃ h' self',
    Linked.remove h self node = Linked.Ok (h', self')
    ∧ Linked.linked h' self' (delete i refs)
    ∧ sequence h' self' (delete i refs)
      = DoublyLinkedList.remove (sequence h self refs) i
    ∧ Linked.__len__ self' = Linked.__len__ self - 1
    ∧ (∀ b, b ∉ delete i refs → h' !! b = h !! b).
Proof.
  intros Hl Hi. destruct (remove_spec h self refs i node Hl Hi)
    as (h' & self' & Hrun & Hl' & Hseq & Hframe & _).
  exists h', self'. split; [done|]. split; [done|]. split; [done|].
  split; [|done]. unfold Linked.__len__.
  rewrite (Linked.linked_size _ _ _ Hl'), (Linked.linked_size _ _ _ Hl).
  rewrite length_delete by (by rewrite Hi).
  apply lookup_lt_Some in Hi. lia.
Qed.

(** On a list in good order the two iterators come to an end within as
    many steps as the list has nodes; [__iter__] yields the keys from head
    to tail, [reverse_iter] the same keys from tail to head, and [len()]
    is the number of keys they yield. *)
Theorem iterators_mirror h self refs fuel :
  Linked.linked h self refs → (length refs ≤ fuel)%nat →
  ∃ ks,
    Linked.__iter__ fuel h self = Linked.Ok ks
    ∧ Linked.reverse_iter fuel h self = Linked.Ok (reverse ks)
    ∧ Linked.__len__ self = Z.of_nat (length ks)
    ∧ ks = DoublyLinkedList.__iter__ (sequence h self refs)
    ∧ reverse ks = DoublyLinkedList.reverse_iter (sequence h self refs).
Proof.
  intros [Hnd Hhead Htail Hsize Hlinks] Hfuel.
  pose proof (links_Forall _ _ _ Hlinks) as Hall.
  exists (key <$> entries_of h refs). split; [|split; [|split]].
  - unfold Linked.__iter__. rewrite Hhead. by eapply iter_walk_links.
  - unfold Linked.reverse_iter. rewrite Htail, last_lookup.
    pose proof (reverse_walk_links fuel h refs (length refs) Hlinks) as Hw.
    rewrite take_ge in Hw by (by rewrite entries_of_length).
    rewrite <-Hw by lia. f_equal.
    destruct (length refs) as [|j] eqn:E; [|done].
    apply lookup_ge_None. lia.
  - unfold Linked.__len__. by rewrite Hsize, length_fmap, entries_of_length.
  - done.
Qed.

(** [append] and then [remove] of the node it returned gives the list
    back: the same [head], [tail] and [len()], the same nodes in the same
    order, and every node that was in the store as it was. *)
Theorem append_then_remove h self refs k v :
  Linked.linked h self refs →
  ∃ h1 self1 node h2,
    Linked.append h self k v = Linked.Ok (h1, self1, node)
    ∧ Linked.remove h1 self1 node = Linked.Ok (h2, self)
    ∧ Linked.linked h2 self refs
    ∧ sequence h2 self refs = sequence h self refs
    ∧ ∀ b, (b < length h)%nat → h2 !! b = h !! b.
Proof.
  intros Hl.
  destruct (append_spec h self refs k v Hl)
    as (h1 & self1 & Hrun1 & Hl1 & Hseq1 & Hnodes & Hnew & Hlen1).
  assert (Hi : (refs ++ [length h]) !! length refs = Some (length h)).
  { by apply list_lookup_middle. }
  pose proof (remove_run h1 self1 _ _ _ Hl1 Hi) as Hrun2.
  destruct (remove_spec h1 self1 _ _ _ Hl1 Hi)
    as (h2 & self2 & Hrun2' & Hl2 & Hseq2 & Hframe2 & Hlen2).
  rewrite Hrun2 in Hrun2'. injection Hrun2' as Hh2 Hself2.
  pose proof (delete_middle refs [] (length h)) as Hdel.
  rewrite app_nil_r in Hdel. rewrite Hdel in *.
  assert (self2 = self) as ->.
  { destruct Hl as [_ Hhead Htail Hsize _], Hl2 as [_ Hhead2 Htail2 Hsize2 _].
    destruct self, self2. simpl in *. f_equal; congruence. }
  exists h1, self1, (length h), h2. split; [done|]. split.
  { rewrite Hrun2. by rewrite Hh2, Hself2. }
  split; [done|].
  assert (Hsame : ∀ b, (b < length h)%nat → h2 !! b = h !! b).
  { intros b Hb. destruct (lookup_lt_is_Some_2 h b Hb) as [nb Hnb].
    pose proof Hl as [_ _ Htail _ Hlinks].
    pose proof (proj1 (links_lookup h None refs) Hlinks) as Hlk.
    rewrite (lookup_ge_None_2 (refs ++ [length h]) (S (length refs))) in Hh2
      by (rewrite length_app; simpl; lia).
    assert (Hpr : match length refs with
                  | O => None
                  | S j => (refs ++ [length h]) !! j
                  end = Linked.tail self).
    { rewrite Htail, last_lookup. destruct (length refs) as [|j] eqn:E.
      - symmetry. apply lookup_ge_None. simpl. lia.
      - simpl. by rewrite lookup_app_l by lia. }
    rewrite Hpr in Hh2. rewrite <-Hh2, upd_lookup, (Hnodes _ _ Hnb), Hnb.
    case_decide as Hd; [|done]. simpl. f_equal.
    rewrite Htail, last_lookup in Hd.
    destruct (Hlk _ _ Hd) as (n & Hn & _ & Hnx). simplify_eq.
    rewrite (lookup_ge_None_2 refs) in Hnx
      by (apply lookup_lt_Some in Hd; lia).
    destruct nb. simpl in *. by subst. }
  split; [|done].
  unfold sequence. f_equal. apply entries_of_ext. intros b Hb.
  rewrite Hsame; [done|]. by eapply linked_allocated.
Qed.

End Links.

(** * The claims on concrete tables *)

(** The scenario of the specification: capacity 4, threshold 0.75, ten
    inserts.  The capacity doubles at the fourth and at the seventh. *)
Example ten_inserts :
  let st := (run (ThreadSafeHashTable.call hash_int 6) (sets ten_entries)
               example_empty).1 in
  _capacity st = 16 ∧ _size st = 10
  ∧ ThreadSafeHashTable.__getitem__ hash_int 2 st = (st, Return 2).
Proof. vm_compute. done. Qed.

(** One insert into the table of capacity 1 and threshold 0.3: the rehash
    resizes again, and one nested call of [__setitem__] is not enough. *)
Example tiny_insert :
  _capacity (ThreadSafeHashTable.__setitem__ hash_int 2 1 10 tiny_table).1 = 4
  ∧ (ThreadSafeHashTable.__setitem__ hash_int 2 1 10 tiny_table).2 = Return tt
  ∧ (ThreadSafeHashTable.__setitem__ hash_int 1 1 10 tiny_table).2
    = Raise OutOfFuel.
Proof. vm_compute. done. Qed.

(** The history of [example_history] call by call. *)
Example example_history_results :
  (run (ThreadSafeHashTable.call hash_int 6) example_history example_empty).2
  = [Return VNone; Return VNone; Return VNone; Return (VValue 11);
     Return VNone; Raise (KeyError 1); Return VNone; Return VNone;
     Return (VBool true); Return (VInt 3); Return (VKeys [2; 3; 1]);
     Return VNone].
Proof. vm_compute. reflexivity. Qed.

Lemma example_reachable : reachable hash_int example_table.
Proof.
  eapply (run_reachable hash_int 4 example_ops).
  - by apply (reachable_init hash_int 4 (3 # 4)).
  - reflexivity.
  - vm_compute. repeat constructor; discriminate.
Qed.

Lemma tiny_reachable : reachable hash_int tiny_table.
Proof. by apply (reachable_init hash_int 1 (3 # 10)). Qed.

Lemma resize_transparent_witness :
  ∃ st, run (ThreadSafeHashTable.call hash_int 6) (sets ten_entries)
          (mkTable 4 (3 # 4) (Common.fresh_buckets 4) 0
             DoublyLinkedList.__init__)
        = (st, (λ _, Return VNone) <$> ten_entries)
    ∧ ThreadSafeHashTable.__len__ st
      = (st, Return (Z.of_nat (length ten_entries)))
    ∧ (∀ k v, (k, v) ∈ ten_entries →
         ThreadSafeHashTable.__getitem__ hash_int k st = (st, Return v))
    ∧ ThreadSafeHashTable.keys st = (st, Return ten_entries.*1)
    ∧ ThreadSafeHashTable.items st = (st, Return ten_entries)
    ∧ (∃ j : nat, _capacity st = 4 * 2 ^ Z.of_nat j)
    ∧ (ten_entries ≠ [] →
       ¬ over (3 # 4) (Z.of_nat (length ten_entries)) (_capacity st)).
Proof.
  apply (resize_transparent hash_int 4 (3 # 4)).
  - reflexivity.
  - compute_done.
  - vm_compute. lia.
Defined.

Lemma set_then_get_witness :
  ∃ st', ThreadSafeHashTable.__setitem__ hash_int 4 7 70 example_table
         = (st', Return tt)
    ∧ ThreadSafeHashTable.__getitem__ hash_int 7 st' = (st', Return 70).
Proof.
  apply (set_then_get hash_int example_table 7 70 4).
  - exact example_reachable.
  - vm_compute. lia.
Defined.

Lemma delete_present_or_absent_witness :
  ∃ present n,
    ThreadSafeHashTable.__contains__ hash_int 2 example_table
    = (example_table, Return present)
    ∧ ThreadSafeHashTable.__len__ example_table = (example_table, Return n)
    ∧ if present
      then ∃ st',
        ThreadSafeHashTable.__delitem__ hash_int 2 example_table
        = (st', Return tt)
        ∧ ThreadSafeHashTable.__contains__ hash_int 2 st' = (st', Return false)
        ∧ ThreadSafeHashTable.__len__ st' = (st', Return (n - 1))
      else
        ThreadSafeHashTable.__delitem__ hash_int 2 example_table
        = (example_table, Raise (KeyError 2)).
Proof. apply (delete_present_or_absent hash_int example_table 2 example_reachable). Defined.

Lemma keys_enumerate_live_witness :
  let final := run (ThreadSafeHashTable.call hash_int 6) example_history
                 example_empty in
  ThreadSafeHashTable.keys final.1
  = (final.1, Return (live_keys example_history))
  ∧ ThreadSafeHashTable.__len__ final.1
    = (final.1, Return (Z.of_nat (length (live_keys example_history)))).
Proof.
  intros final.
  apply (keys_enumerate_live hash_int 4 (3 # 4) example_empty example_history
           6 final.1 final.2).
  - reflexivity.
  - vm_compute. lia.
  - vm_compute. reflexivity.
Defined.

Lemma absent_key_default_witness :
  let final := run (ThreadSafeHashTable.call hash_int 6) example_history
                 example_empty in
  ThreadSafeHashTable.get hash_int 3 (-1) final.1 = (final.1, Return (-1))
  ∧ ThreadSafeHashTable.__contains__ hash_int 3 final.1
    = (final.1, Return false).
Proof.
  intros final.
  apply (absent_key_default hash_int 4 (3 # 4) example_empty example_history
           6 final.1 final.2 3 (-1)).
  - reflexivity.
  - vm_compute. lia.
  - vm_compute. reflexivity.
  - compute_done.
Defined.

Lemma classes_agree_witness :
  run (ThreadSafeHashTable.call hash_int 6) example_history example_empty
  = run (NonThreadSafeHashTable.call hash_int 6) example_history
      (NonThreadSafeHashTable.__init__ 4 (3 # 4))
  ∧ ((fuel_for (3 # 4) (length example_history) <= 6)%nat →
     Forall (λ r, r ≠ Raise OutOfFuel)
       (run (ThreadSafeHashTable.call hash_int 6) example_history
          example_empty).2).
Proof.
  apply (classes_agree hash_int 4 (3 # 4) example_empty example_history 6).
  reflexivity.
Defined.

Lemma capacity_growth_witness :
  (∃ st',
     ThreadSafeHashTable.__setitem__ hash_int 4 7 70 example_table
     = (st', Return tt)
     ∧ grown (_load_factor example_table) (_size example_table + 1)
         (_capacity example_table) (_capacity st')
     ∧ (¬ over (_load_factor example_table) (_size example_table + 1)
            (_capacity example_table) →
        _capacity st' = _capacity example_table)
     ∧ (over (_load_factor example_table) (_size example_table + 1)
          (_capacity example_table) →
        ¬ over (_load_factor example_table) (_size example_table + 1)
            (_capacity example_table * 2) →
        _capacity st' = _capacity example_table * 2)
     ∧ (QDen (_load_factor example_table)
        <= Qnum (_load_factor example_table) * _capacity example_table →
        _capacity st' = _capacity example_table
        ∨ _capacity st' = _capacity example_table * 2))
  ∧ (∀ k' st' r,
       ThreadSafeHashTable.__delitem__ hash_int k' example_table = (st', r) →
       _capacity st' = _capacity example_table)
  ∧ (¬ over (_load_factor example_table) (_size example_table)
         (_capacity example_table) →
     ∀ new_capacity,
       ThreadSafeHashTable._resize hash_int 4 new_capacity example_table
       = (example_table, Return tt)).
Proof.
  apply (capacity_growth hash_int example_table 7 70 4).
  - exact example_reachable.
  - vm_compute. lia.
  - reflexivity.
Defined.

Lemma set_twice_witness :
  ∃ s1 s12 s2,
    ThreadSafeHashTable.__setitem__ hash_int 4 2 21 example_table
    = (s1, Return tt)
    ∧ ThreadSafeHashTable.__setitem__ hash_int 4 2 22 s1 = (s12, Return tt)
    ∧ ThreadSafeHashTable.__setitem__ hash_int 4 2 22 example_table
      = (s2, Return tt)
    ∧ (ThreadSafeHashTable.__len__ s12).2 = (ThreadSafeHashTable.__len__ s2).2
    ∧ (∀ k', (ThreadSafeHashTable.__getitem__ hash_int k' s12).2
             = (ThreadSafeHashTable.__getitem__ hash_int k' s2).2)
    ∧ (ThreadSafeHashTable.keys s12).2 = (ThreadSafeHashTable.keys s2).2
    ∧ (ThreadSafeHashTable.values s12).2 = (ThreadSafeHashTable.values s2).2
    ∧ (ThreadSafeHashTable.items s12).2 = (ThreadSafeHashTable.items s2).2
    ∧ (ThreadSafeHashTable.__contains__ hash_int 2 example_table
       = (example_table, Return true) →
       (ThreadSafeHashTable.__len__ s2).2
       = (ThreadSafeHashTable.__len__ example_table).2
       ∧ (ThreadSafeHashTable.keys s2).2
         = (ThreadSafeHashTable.keys example_table).2
       ∧ ∃ old, (ThreadSafeHashTable.items example_table).2 = Return old
           ∧ (ThreadSafeHashTable.items s2).2
             = Return ((λ p, if decide (p.1 = 2) then (p.1, 22) else p)
                         <$> old)).
Proof.
  apply (set_twice hash_int example_table 2 21 22 4).
  - exact example_reachable.
  - vm_compute. lia.
Defined.

(** C6, as the specification words it, fails on the empty table of
    capacity 1 and load factor 0.3: the insert of one key crosses the
    threshold at capacity 1 and again at capacity 2, and leaves the
    capacity at 4. *)
Lemma doubles_exactly_when_over_counterexample :
  ¬ doubles_exactly_when_over hash_int tiny_table 1 10 2.
Proof.
  intros Hd.
  pose (r := ThreadSafeHashTable.__setitem__ hash_int 2 1 10 tiny_table).
  assert (Hr : r = (r.1, Return tt)) by (vm_compute; reflexivity).
  apply Hd in Hr. destruct Hr as [_ Hr].
  assert (Hcap : _capacity r.1 = 4) by (vm_compute; reflexivity).
  rewrite Hcap in Hr. simpl in Hr. unfold over in Hr. simpl in Hr. lia.
Qed.

(** C2, which the code breaks: [__setitem__] takes the lock of its bucket
    and then the global lock, [_resize] takes the global lock and then
    every bucket lock, and two writers reach a state in which each waits
    for the lock the other holds.  Besides, [_resize] releases the locks
    of the new list for those of the old one it took: once the resizing
    thread is through, a thread that comes with a lock of the old list
    waits for ever. *)
Theorem setitem_resize_deadlock :
  Locking.global_first (Locking.setitem_locks 0 0) = false
  ∧ Locking.global_first (Locking.resize_locks 0 2 [1%nat]) = true
  ∧ (∃ s,
       Locking.schedule [1; 1; 1; 1; 1; 0]%nat Locking.two_writers = Some s
       ∧ Locking.blocked s 0 = true
       ∧ Locking.blocked s 1 = true)
  ∧ (∃ s,
       Locking.schedule (replicate 14 1%nat) Locking.two_writers = Some s
       ∧ Locking.threads s !! 1%nat = Some []
       ∧ Locking.blocked s 0 = true).
Proof.
  split; [reflexivity|]. split; [reflexivity|]. split.
  - eexists. split; [vm_compute; reflexivity|]. split; reflexivity.
  - eexists. split; [vm_compute; reflexivity|]. split; reflexivity.
Qed.

(** * The further properties on concrete tables and lists *)

Lemma three_linked : Linked.linked three_store three_list [0; 1; 2]%nat.
Proof. constructor; [compute_done|done|done|done|vm_compute; done]. Qed.

Lemma only_KeyError_witness :
  (∃ x, Raise (KeyError 9) = Return (K := Z) (x : val Z Z))
  ∨ (∃ k, Raise (KeyError 9) = Raise (A := val Z Z) (KeyError k)
       ∧ (OpDel (V := Z) 9 = OpGetItem k ∨ OpDel (V := Z) 9 = OpDel k)
       ∧ ThreadSafeHashTable.__contains__ hash_int k example_table
         = (example_table, Return false)
       ∧ example_table = example_table).
Proof.
  apply (only_KeyError hash_int example_table 4 (OpDel 9) example_table
           (Raise (KeyError 9))).
  - exact example_reachable.
  - vm_compute. lia.
  - vm_compute. reflexivity.
Defined.

Lemma items_agree_with_lookups_witness :
  ∃ ks vs,
    ThreadSafeHashTable.keys example_table = (example_table, Return ks)
    ∧ ThreadSafeHashTable.values example_table = (example_table, Return vs)
    ∧ ThreadSafeHashTable.items example_table
      = (example_table, Return (zip ks vs))
    ∧ length ks = length vs
    ∧ NoDup ks
    ∧ ∀ k v, (k, v) ∈ zip ks vs
             ↔ ThreadSafeHashTable.__getitem__ hash_int k example_table
               = (example_table, Return v).
Proof.
  apply (items_agree_with_lookups hash_int example_table example_reachable).
Defined.

Lemma get_present_witness :
  ∃ v, ThreadSafeHashTable.__getitem__ hash_int 2 example_table
       = (example_table, Return v)
    ∧ ThreadSafeHashTable.get hash_int 2 (-1) example_table
      = (example_table, Return v).
Proof.
  apply (get_present hash_int example_table 2 (-1)).
  - exact example_reachable.
  - vm_compute. reflexivity.
Defined.

Lemma set_keeps_others_witness :
  ∃ st' ks present,
    ThreadSafeHashTable.__setitem__ hash_int 4 7 70 example_table
    = (st', Return tt)
    ∧ ThreadSafeHashTable.keys example_table = (example_table, Return ks)
    ∧ ThreadSafeHashTable.__contains__ hash_int 7 example_table
      = (example_table, Return present)
    ∧ ThreadSafeHashTable.keys st'
      = (st', Return (if present then ks else ks ++ [7]))
    ∧ ∀ k', k' ≠ 7 →
        (ThreadSafeHashTable.__getitem__ hash_int k' st').2
        = (ThreadSafeHashTable.__getitem__ hash_int k' example_table).2
        ∧ (ThreadSafeHashTable.__contains__ hash_int k' st').2
          = (ThreadSafeHashTable.__contains__ hash_int k' example_table).2.
Proof.
  apply (set_keeps_others hash_int example_table 7 70 4).
  - exact example_reachable.
  - vm_compute. lia.
Defined.

Lemma delete_keeps_others_witness :
  ∃ st' kvs,
    ThreadSafeHashTable.__delitem__ hash_int 2 example_table
    = (st', Return tt)
    ∧ ThreadSafeHashTable.items example_table = (example_table, Return kvs)
    ∧ ThreadSafeHashTable.items st'
      = (st', Return (filter (λ p, p.1 ≠ 2) kvs))
    ∧ ∀ k', k' ≠ 2 →
        (ThreadSafeHashTable.__getitem__ hash_int k' st').2
        = (ThreadSafeHashTable.__getitem__ hash_int k' example_table).2.
Proof.
  apply (delete_keeps_others hash_int example_table 2).
  - exact example_reachable.
  - vm_compute. reflexivity.
Defined.

Lemma delete_then_set_last_witness :
  ∃ st1 st2 ks,
    ThreadSafeHashTable.__delitem__ hash_int 1 example_table
    = (st1, Return tt)
    ∧ ThreadSafeHashTable.__setitem__ hash_int 4 1 11 st1 = (st2, Return tt)
    ∧ ThreadSafeHashTable.keys example_table = (example_table, Return ks)
    ∧ ThreadSafeHashTable.keys st2
      = (st2, Return (filter (λ k', k' ≠ 1) ks ++ [1]))
    ∧ ThreadSafeHashTable.__getitem__ hash_int 1 st2 = (st2, Return 11)
    ∧ (ThreadSafeHashTable.__len__ st2).2
      = (ThreadSafeHashTable.__len__ example_table).2.
Proof.
  apply (delete_then_set_last hash_int example_table 1 11 4).
  - exact example_reachable.
  - vm_compute. lia.
  - vm_compute. reflexivity.
Defined.

Lemma clear_empties_witness :
  ∃ st',
    ThreadSafeHashTable.clear example_table = (st', Return tt)
    ∧ ThreadSafeHashTable.__len__ st' = (st', Return 0)
    ∧ ThreadSafeHashTable.keys st' = (st', Return [])
    ∧ (∀ k default,
         ThreadSafeHashTable.__contains__ hash_int k st' = (st', Return false)
         ∧ ThreadSafeHashTable.get hash_int k default st'
           = (st', Return default))
    ∧ _capacity st' = _capacity example_table
    ∧ _load_factor st' = _load_factor example_table
    ∧ Z.of_nat (length (_buckets st')) = _capacity example_table
    ∧ reachable hash_int st'.
Proof. apply (clear_empties hash_int example_table example_reachable). Defined.

Lemma table_invariants_witness :
  0 < _capacity example_table
  ∧ Z.of_nat (length (_buckets example_table)) = _capacity example_table
  ∧ (0 < _load_factor example_table ∧ _load_factor example_table <= 1)%Q
  ∧ 0 <= _size example_table
  ∧ (inject_Z (_size example_table) / inject_Z (_capacity example_table)
     <= _load_factor example_table)%Q.
Proof. apply (table_invariants hash_int example_table example_reachable). Defined.

Lemma chains_partition_witness :
  (∀ (i : nat) b, _buckets example_table !! i = Some b →
     DoublyLinkedList.__iter__ b
     = filter (λ k, hash_int k `mod` _capacity example_table = Z.of_nat i)
         (DoublyLinkedList.__iter__ (_keys_list example_table))
     ∧ DoublyLinkedList.__len__ b
       = Z.of_nat (length (DoublyLinkedList.__iter__ b)))
  ∧ DoublyLinkedList.__len__ (_keys_list example_table) = _size example_table
  ∧ Z.of_nat (sum_list_with (λ b, length (DoublyLinkedList.__iter__ b))
                (_buckets example_table))
    = _size example_table.
Proof. apply (chains_partition hash_int example_table example_reachable). Defined.

Lemma capacity_only_doubles_witness :
  let final := run (ThreadSafeHashTable.call hash_int 6) example_history
                 example_empty in
  _load_factor final.1 = (3 # 4)%Q
  ∧ ∃ j : nat, _capacity final.1 = 4 * 2 ^ Z.of_nat j.
Proof.
  intros final.
  apply (capacity_only_doubles hash_int 4 (3 # 4) example_empty
           example_history 6 final.1 final.2).
  - reflexivity.
  - vm_compute. lia.
  - vm_compute. reflexivity.
Defined.

Lemma repr_lists_items_witness :
  ∃ kvs,
    ThreadSafeHashTable.items example_table = (example_table, Return kvs)
    ∧ ThreadSafeHashTable.__repr__ hash_int pretty pretty example_table
      = (example_table, Return
           (String.append "{"
              (String.append
                 (String.concat ", "
                    ((λ p, String.append (pretty p.1)
                             (String.append ": " (pretty p.2))) <$> kvs))
                 "}"))).
Proof.
  apply (repr_lists_items hash_int example_table pretty pretty
           example_reachable).
Defined.

Lemma unchecked_capacity_witness :
  NonThreadSafeHashTable.call hash_int 4 (OpSet 1 10)
    (NonThreadSafeHashTable.__init__ 0 (3 # 4))
  = (NonThreadSafeHashTable.__init__ 0 (3 # 4), Raise ZeroDivisionError).
Proof. apply (unchecked_capacity hash_int 0 (3 # 4) 4 (OpSet 1 10)). lia. Defined.

Lemma unchecked_load_factor_witness :
  NonThreadSafeHashTable.__setitem__ hash_int 3 1 10
    (NonThreadSafeHashTable.__init__ 4 0)
  = (NonThreadSafeHashTable.__init__ (4 * 2 ^ Z.of_nat 4) 0, Raise OutOfFuel).
Proof.
  apply (unchecked_load_factor hash_int 4 0 3 1 10).
  - lia.
  - vm_compute. discriminate.
Defined.

Lemma reversed_newest_first_witness :
  ∃ st' ks,
    ThreadSafeHashTable.keys example_table = (example_table, Return ks)
    ∧ ThreadSafeHashTable.__reversed__ example_table
      = (example_table, Return (reverse ks))
    ∧ ThreadSafeHashTable.__setitem__ hash_int 4 7 70 example_table
      = (st', Return tt)
    ∧ ThreadSafeHashTable.__reversed__ st' = (st', Return (7 :: reverse ks)).
Proof.
  apply (reversed_newest_first hash_int example_table 7 70 4).
  - exact example_reachable.
  - vm_compute. lia.
  - vm_compute. reflexivity.
Defined.

Lemma table_is_ordered_map_witness :
  let final := run (ThreadSafeHashTable.call hash_int 6) example_history
                 example_empty in
  final.2 = (model_run example_history []).2
  ∧ ThreadSafeHashTable.items final.1
    = (final.1, Return ((λ n, (key n, value n))
                          <$> (model_run example_history []).1)).
Proof.
  intros final.
  apply (table_is_ordered_map hash_int 4 (3 # 4) example_empty
           example_history 6 final.1 final.2).
  - reflexivity.
  - vm_compute. lia.
  - vm_compute. reflexivity.
Defined.

Lemma append_links_at_tail_witness :
  ∃ h' self',
    Linked.append three_store three_list 4 40
    = Linked.Ok (h', self', length three_store)
    ∧ Linked.linked h' self' ([0; 1; 2]%nat ++ [length three_store])
    ∧ sequence h' self' ([0; 1; 2]%nat ++ [length three_store])
      = (DoublyLinkedList.append
           (sequence three_store three_list [0; 1; 2]%nat) 4 40).1
    ∧ Linked.__len__ self' = Linked.__len__ three_list + 1
    ∧ (∀ node, node ∉ [0; 1; 2]%nat → (node < length three_store)%nat →
         h' !! node = three_store !! node).
Proof.
  apply (append_links_at_tail three_store three_list [0; 1; 2]%nat 4 40).
  exact three_linked.
Defined.

Lemma find_first_match_witness :
  ∃ r,
    Linked.find 3 three_store three_list 2 = Linked.Ok r
    ∧ r = (DoublyLinkedList.find
             (sequence three_store three_list [0; 1; 2]%nat) 2
           ≫= λ p, [0; 1; 2]%nat !! p.1)
    ∧ match r with
      | Some node =>
          ∃ i n, [0; 1; 2]%nat !! i = Some node
            ∧ three_store !! node = Some n
            ∧ Linked.key n = 2
            ∧ ∀ j b nb, (j < i)%nat → [0; 1; 2]%nat !! j = Some b →
                three_store !! b = Some nb → Linked.key nb ≠ 2
      | None =>
          ∀ b nb, b ∈ [0; 1; 2]%nat → three_store !! b = Some nb →
            Linked.key nb ≠ 2
      end.
Proof.
  apply (find_first_match three_store three_list [0; 1; 2]%nat 2 3).
  - exact three_linked.
  - simpl. lia.
Defined.

Lemma remove_unlinks_witness :
  ∃ h' self',
    Linked.remove three_store three_list 1 = Linked.Ok (h', self')
    ∧ Linked.linked h' self' (delete 1%nat [0; 1; 2]%nat)
    ∧ sequence h' self' (delete 1%nat [0; 1; 2]%nat)
      = DoublyLinkedList.remove
          (sequence three_store three_list [0; 1; 2]%nat) 1
    ∧ Linked.__len__ self' = Linked.__len__ three_list - 1
    ∧ (∀ b, b ∉ delete 1%nat [0; 1; 2]%nat → h' !! b = three_store !! b).
Proof.
  apply (remove_unlinks three_store three_list [0; 1; 2]%nat 1 1).
  - exact three_linked.
  - reflexivity.
Defined.

Lemma iterators_mirror_witness :
  ∃ ks,
    Linked.__iter__ 3 three_store three_list = Linked.Ok ks
    ∧ Linked.reverse_iter 3 three_store three_list = Linked.Ok (reverse ks)
    ∧ Linked.__len__ three_list = Z.of_nat (length ks)
    ∧ ks = DoublyLinkedList.__iter__
             (sequence three_store three_list [0; 1; 2]%nat)
    ∧ reverse ks
      = DoublyLinkedList.reverse_iter
          (sequence three_store three_list [0; 1; 2]%nat).
Proof.
  apply (iterators_mirror three_store three_list [0; 1; 2]%nat 3).
  - exact three_linked.
  - simpl. lia.
Defined.

Lemma append_then_remove_witness :
  ∃ h1 self1 node h2,
    Linked.append three_store three_list 4 40 = Linked.Ok (h1, self1, node)
    ∧ Linked.remove h1 self1 node = Linked.Ok (h2, three_list)
    ∧ Linked.linked h2 three_list [0; 1; 2]%nat
    ∧ sequence h2 three_list [0; 1; 2]%nat
      = sequence three_store three_list [0; 1; 2]%nat
    ∧ ∀ b, (b < length three_store)%nat → h2 !! b = three_store !! b.
Proof.
  apply (append_then_remove three_store three_list [0; 1; 2]%nat 4 40).
  exact three_linked.
Defined.
